(** * werf cleanup subsystem: tag codec, stages storage and cleanup engine

    A shallow embedding of the Go sources

    - [pkg/storage] (repo stages storage: tag schema and registry adapter use),
    - [pkg/cleaning] (images cleanup, stages purge),

    and the properties of the specification established over them.

    Go strings are byte strings: they are embedded as [string] (a list of
    [ascii] bytes).  An [int64] is a [Z] with its range written out where the
    code depends on it.  A Go [error] is carried by the text of [err.Error()];
    a run-time panic is a result of its own. *)

From Stdlib Require Import ZArith Lia Ascii String List Bool.
From Stdlib Require Import DecimalString DecimalZ DecimalPos DecimalN.
From Stdlib Require Import Sorting.Permutation Sorting.Sorted.
From stdpp Require Import base option list gmap strings fin_maps.

Local Open Scope string_scope.
Local Open Scope Z_scope.

(* stdpp freezes string concatenation under [simpl]; the proofs below compute
   with it. *)
Arguments String.append !s1 s2 : simpl nomatch.

(* ===================================================================== *)
(** * Definitions                                                         *)
(* ===================================================================== *)

(** ** Results of fallible Go calls *)

Inductive result (A : Type) : Type :=
| Ok (a : A)
| Err (msg : string)      (* a returned [error], by its message *)
| Panic (msg : string).   (* a run-time panic *)
Arguments Ok {A} a.
Arguments Err {A} msg.
Arguments Panic {A} msg.

(** ** The [strings] and [strconv] functions the sources call *)

Module GoStrings.

(** [strings.HasPrefix(s, prefix)] *)
Fixpoint HasPrefix (s prefix : string) {struct prefix} : bool :=
  match prefix with
  | EmptyString => true
  | String c prefix' =>
      match s with
      | EmptyString => false
      | String d s' => if Ascii.eqb c d then HasPrefix s' prefix' else false
      end
  end.

(** [strings.TrimPrefix(s, prefix)] *)
Fixpoint TrimPrefix_aux (s prefix : string) {struct prefix} : option string :=
  match prefix with
  | EmptyString => Some s
  | String c prefix' =>
      match s with
      | EmptyString => None
      | String d s' => if Ascii.eqb c d then TrimPrefix_aux s' prefix' else None
      end
  end.

Definition TrimPrefix (s prefix : string) : string :=
  match TrimPrefix_aux s prefix with
  | Some r => r
  | None => s
  end.

(** The text before and after the first occurrence of the byte [sep]. *)
Fixpoint Cut (s : string) (sep : ascii) : option (string * string) :=
  match s with
  | EmptyString => None
  | String c s' =>
      if Ascii.eqb c sep then Some (EmptyString, s')
      else match Cut s' sep with
           | Some (before, after) => Some (String c before, after)
           | None => None
           end
  end.

(** [strings.SplitN(s, sep, n)] for a one-byte separator and [n >= 0]:
    at most [n] pieces, the last one holding the unsplit rest. *)
Fixpoint SplitN (s : string) (sep : ascii) (n : nat) : list string :=
  match n with
  | O => []
  | S O => [s]
  | S n' =>
      match Cut s sep with
      | Some (before, after) => before :: SplitN after sep n'
      | None => [s]
      end
  end.

(** [strings.Split(s, sep)] for a one-byte separator: every piece, the empty
    string giving one empty piece. *)
Fixpoint Split (s : string) (sep : ascii) : list string :=
  match s with
  | EmptyString => [EmptyString]
  | String c s' =>
      if Ascii.eqb c sep then EmptyString :: Split s' sep
      else match Split s' sep with
           | piece :: pieces => String c piece :: pieces
           | [] => [String c EmptyString]
           end
  end.

(** [stringutil.Reverse(s)] on a string of one-byte characters: the bytes
    in reverse order.  (The library reverses runes; on ASCII text, as the
    tags of a registry are, a rune is a byte.) *)
Fixpoint Reverse (s : string) : string :=
  match s with
  | EmptyString => EmptyString
  | String c s' => Reverse s' ++ String c EmptyString
  end.

(** Every byte of [s] is an ASCII character. *)
Fixpoint isASCII (s : string) : bool :=
  match s with
  | EmptyString => true
  | String c s' => (nat_of_ascii c <? 128)%nat && isASCII s'
  end.

(** [strings.ReplaceAll(s, old, new)] for a one-byte [old]. *)
Fixpoint ReplaceAll (s : string) (old : ascii) (new : string) : string :=
  match s with
  | EmptyString => EmptyString
  | String c s' =>
      if Ascii.eqb c old then new ++ ReplaceAll s' old new
      else String c (ReplaceAll s' old new)
  end.

(** Does the byte [c] occur in [s]? *)
Fixpoint ContainsByte (s : string) (c : ascii) : bool :=
  match s with
  | EmptyString => false
  | String d s' => if Ascii.eqb d c then true else ContainsByte s' c
  end.

(** [len(s)] as an [int] *)
Definition len (s : string) : Z := Z.of_nat (String.length s).

Definition MinInt64 : Z := - 2 ^ 63.
Definition MaxInt64 : Z := 2 ^ 63 - 1.
Definition is_int64 (z : Z) : bool := (MinInt64 <=? z) && (z <=? MaxInt64).

(** [%d] of an [int64]: the decimal digits, with a leading [-] below zero. *)
Definition FormatInt (z : Z) : string := NilZero.string_of_int (Z.to_int z).

(** [strconv.ParseInt(s, 10, 64)]: an optional sign, then one decimal digit
    or more and nothing else, the value within the [int64] range.  The
    error carries the reason only. *)
Definition ParseInt (s : string) : result Z :=
  let '(neg, digits) :=
    match s with
    | String "+"%char r => (false, r)
    | String "-"%char r => (true, r)
    | _ => (false, s)
    end in
  match NilZero.uint_of_string digits with
  | None => Err "invalid syntax"
  | Some d =>
      let v := if neg then (- Z.of_uint d) else Z.of_uint d in
      if is_int64 v then Ok v else Err "value out of range"
  end.

End GoStrings.

(** ** Package [image]: the parts the storage and the engine use *)

Module Image.

Record StageID := mkStageID { Signature : string; UniqueID : Z }.

(** The registry-side description of an image.  [Labels] is a Go map that
    may be [nil]. *)
Record Info := mkInfo {
  Repository : string;
  Tag : string;
  RepoDigest : string;
  Labels : option (gmap string string);
  CreatedAtUnixNano : Z
}.

(** [info.Labels[key]] with the comma-ok flag: reading a nil map finds
    nothing. *)
Definition label (i : Info) (key : string) : option string :=
  match Labels i with
  | Some m => m !! key
  | None => None
  end.

(** [info.Labels[key]] as a plain read: the empty string when absent. *)
Definition labelOrEmpty (i : Info) (key : string) : string :=
  match label i key with
  | Some v => v
  | None => ""
  end.

(** Modelled from the spec: the label names of package [image], which are
    not among the sources (section 6: "WerfTagStrategy, WerfImageTag,
    WerfContentSignature"). *)
Definition WerfTagStrategyLabel : string := "WerfTagStrategy".
Definition WerfImageTagLabel : string := "WerfImageTag".
Definition WerfContentSignatureLabel : string := "WerfContentSignature".

(** Modelled from the spec: [image.ParseUniqueIDAsTimestamp] is not among
    the sources; the unique id is "a millisecond timestamp encoded in
    decimal", an [int64], so it is read with [strconv.ParseInt] in base 10
    on 64 bits. *)
Definition ParseUniqueIDAsTimestamp (uniqueID : string) : result Z :=
  GoStrings.ParseInt uniqueID.

End Image.

(** ** Package [storage]: the repository stages storage *)

Module Storage.
Import GoStrings Image.

Definition RepoManagedImageRecord_ImageTagPrefix : string := "managed-image-".
Definition RepoImageMetadataByCommitRecord_ImageTagPrefix : string :=
  "image-metadata-by-commit-".
Definition RepoClientIDRecrod_ImageTagPrefix : string := "client-id-".
Definition UnexpectedTagFormatErrorPrefix : string := "unexpected tag format".

(** [fmt.Sprintf(RepoStage_ImageFormat, repo, signature, uniqueID)] with
    [RepoStage_ImageFormat = "%s:%s-%d"] *)
Definition RepoStage_ImageFormat (repo signature : string) (uniqueID : Z) : string :=
  repo ++ ":" ++ signature ++ "-" ++ FormatInt uniqueID.

(** The tag part of a stage image name. *)
Definition stageImageTag (signature : string) (uniqueID : Z) : string :=
  signature ++ "-" ++ FormatInt uniqueID.

Definition getSignatureAndUniqueIDFromRepoStageImageTag
    (repoStageImageTag : string) : result (string * Z) :=
  match SplitN repoStageImageTag "-"%char 2 with
  | [part0; part1] =>
      match ParseUniqueIDAsTimestamp part1 with
      | Ok uniqueID => Ok (part0, uniqueID)
      | Err err =>
          Err (UnexpectedTagFormatErrorPrefix ++ " " ++ repoStageImageTag
               ++ ": unable to parse unique id " ++ part1
               ++ " as timestamp: " ++ err)
      | Panic p => Panic p
      end
  | _ => Err (UnexpectedTagFormatErrorPrefix ++ " " ++ repoStageImageTag)
  end.

Definition isUnexpectedTagFormatError (err : string) : bool :=
  HasPrefix err UnexpectedTagFormatErrorPrefix.

Record ImageMetadata := mkImageMetadata { ContentSignature : string }.

(** The registry accessor (an external collaborator): the answers of the
    calls the storage makes. *)
Record DockerRegistry := mkDockerRegistry {
  Tags : string -> result (list string);
  TryGetRepoImage : string -> result (option Info)
}.

Record RepoStagesStorage := mkRepoStagesStorage {
  RepoAddress : string;
  Registry : DockerRegistry
}.

Definition ConstructStageImageName (storage : RepoStagesStorage)
    (projectName signature : string) (uniqueID : Z) : string :=
  RepoStage_ImageFormat (RepoAddress storage) signature uniqueID.

(** The body of the loop of [GetAllStages] over the tags still to visit,
    [res] being the stages selected so far.  Debug log lines are left
    out. *)
Fixpoint GetAllStages_loop (tags : list string) (res : list StageID)
    : result (list StageID) :=
  match tags with
  | [] => Ok res
  | tag :: tags' =>
      if HasPrefix tag RepoManagedImageRecord_ImageTagPrefix
         || HasPrefix tag RepoImageMetadataByCommitRecord_ImageTagPrefix
      then GetAllStages_loop tags' res
      else
        match getSignatureAndUniqueIDFromRepoStageImageTag tag with
        | Ok (signature, uniqueID) =>
            GetAllStages_loop tags' (res ++ [mkStageID signature uniqueID])
        | Err err =>
            if isUnexpectedTagFormatError err
            then GetAllStages_loop tags' res
            else Err err
        | Panic p => Panic p
        end
  end.

Definition GetAllStages (storage : RepoStagesStorage) (projectName : string)
    : result (list StageID) :=
  match Tags (Registry storage) (RepoAddress storage) with
  | Ok tags => GetAllStages_loop tags []
  | Err err =>
      Err ("unable to fetch tags for repo " ++ RepoAddress storage ++ ": " ++ err)
  | Panic p => Panic p
  end.

Fixpoint GetStagesBySignature_loop (signature : string) (tags : list string)
    (res : list StageID) : result (list StageID) :=
  match tags with
  | [] => Ok res
  | tag :: tags' =>
      if negb (HasPrefix tag signature)
      then GetStagesBySignature_loop signature tags' res
      else
        match getSignatureAndUniqueIDFromRepoStageImageTag tag with
        | Ok (_, uniqueID) =>
            GetStagesBySignature_loop signature tags'
              (res ++ [mkStageID signature uniqueID])
        | Err err =>
            if isUnexpectedTagFormatError err
            then GetStagesBySignature_loop signature tags' res
            else Err err
        | Panic p => Panic p
        end
  end.

Definition GetStagesBySignature (storage : RepoStagesStorage)
    (projectName signature : string) : result (list StageID) :=
  match Tags (Registry storage) (RepoAddress storage) with
  | Ok tags => GetStagesBySignature_loop signature tags []
  | Err err =>
      Err ("unable to fetch tags for repo " ++ RepoAddress storage ++ ": " ++ err)
  | Panic p => Panic p
  end.

(** Modelled from the spec: the constant [NamelessImageRecordTag] is not
    among the sources; the tag schema gives "empty -> -nameless-image-". *)
Definition NamelessImageRecordTag : string := "-nameless-image-".

Definition slugImageNameAsDockerImageTag (imageName : string) : string :=
  let res := imageName in
  let res := ReplaceAll res "/"%char "__slash__" in
  let res := ReplaceAll res "+"%char "__plus__" in
  if String.eqb imageName "" then NamelessImageRecordTag else res.

(** [fmt.Sprintf(RepoImageMetadataByCommitRecord_TagFormat, name, commit)]
    with the format ["image-metadata-by-commit-%s-%s"] *)
Definition RepoImageMetadataByCommitRecord_TagFormat (name commit : string) : string :=
  RepoImageMetadataByCommitRecord_ImageTagPrefix ++ name ++ "-" ++ commit.

Section WithLimitedSlug.

(** Modelled from the spec: [slug.LimitedSlug(data, slugMaxSize)] of package
    [slug] is not among the sources.  The specification calls it "a
    length-limited slug" by which the name portion is shrunk so that the tag
    is "exactly 128 chars".  It is a parameter of this part of the storage;
    its contract (a string longer than the requested size is shrunk to
    exactly that size) is a hypothesis of the property that depends on it. *)
Variable LimitedSlug : string -> Z -> string.

(** [tagFormat] stands for the two-argument format string. *)
Definition slugImageMetadataByCommitImageRecordTag
    (tagFormat : string -> string -> string) (imageName commit : string) : string :=
  let formattedImageName := slugImageNameAsDockerImageTag imageName in
  let tag := tagFormat formattedImageName commit in
  if len tag <=? 128 then tag
  else
    let extraSize := len tag - 128 in
    let formattedImageName :=
      LimitedSlug formattedImageName (len formattedImageName - extraSize) in
    let formattedImageName := ReplaceAll formattedImageName "-"%char "_" in
    tagFormat formattedImageName commit.

Definition slugRepoImageMetadataByCommitImageRecordTag
    (imageName commit : string) : string :=
  slugImageMetadataByCommitImageRecordTag
    RepoImageMetadataByCommitRecord_TagFormat imageName commit.

(** [strings.Join([]string{repoAddress, tag}, ":")] *)
Definition makeRepoImageMetadataByCommitImageRecord
    (repoAddress imageName commit : string) : string :=
  repoAddress ++ ":" ++ slugRepoImageMetadataByCommitImageRecordTag imageName commit.

Definition GetImageMetadataByCommit (storage : RepoStagesStorage)
    (projectName imageName commit : string) : result (option ImageMetadata) :=
  let fullImageName :=
    makeRepoImageMetadataByCommitImageRecord (RepoAddress storage) imageName commit in
  match TryGetRepoImage (Registry storage) fullImageName with
  | Err err => Err ("unable to get repo image " ++ fullImageName ++ ": " ++ err)
  | Panic p => Panic p
  | Ok imgInfo =>
      match imgInfo with
      | Some info =>
          match Labels info with
          | Some labels =>
              (* imgInfo != nil && imgInfo.Labels != nil *)
              Ok (Some (mkImageMetadata (default "" (labels !! "ContentSignature"))))
          | None => Ok None
          end
      | None => Ok None
      end
  end.

End WithLimitedSlug.

(** *** The statements of the specification, in its own words *)

(** The reserved prefixes of the tag schema. *)
Definition hasReservedPrefix (s : string) : bool :=
  HasPrefix s RepoManagedImageRecord_ImageTagPrefix
  || HasPrefix s RepoImageMetadataByCommitRecord_ImageTagPrefix
  || HasPrefix s RepoClientIDRecrod_ImageTagPrefix.

(** "Tags with the managed-image or metadata-by-commit prefix are filtered
    out, tags that fail the signature/unique-id parse (no hyphen, or
    non-timestamp suffix) are skipped, and every remaining tag contributes
    one (signature, unique_id) entry." *)
Definition decodableStage (tag : string) : option StageID :=
  if HasPrefix tag RepoManagedImageRecord_ImageTagPrefix
     || HasPrefix tag RepoImageMetadataByCommitRecord_ImageTagPrefix
  then None
  else
    match Cut tag "-"%char with
    | Some (signature, suffix) =>
        match ParseInt suffix with
        | Ok uniqueID => Some (mkStageID signature uniqueID)
        | _ => None
        end
    | None => None
    end.

(** "One entry for every listed tag that starts with sig and whose suffix
    after the tag's first hyphen parses as a timestamp, carrying Signature
    equal to the argument." *)
Definition stageByBarePrefix (sig tag : string) : option StageID :=
  if HasPrefix tag sig then
    match Cut tag "-"%char with
    | Some (_, suffix) =>
        match ParseInt suffix with
        | Ok uniqueID => Some (mkStageID sig uniqueID)
        | _ => None
        end
    | None => None
    end
  else None.

(** The first [n] bytes of [s]: the simplest length-limited shrinking,
    used to run the metadata tag encoder on concrete names. *)
Fixpoint firstBytes (n : nat) (s : string) : string :=
  match n, s with
  | S n', String c s' => String c (firstBytes n' s')
  | _, _ => EmptyString
  end.

Definition truncatingSlug (s : string) (n : Z) : string :=
  firstBytes (Z.to_nat n) s.

Fixpoint repeatByte (c : ascii) (n : nat) : string :=
  match n with
  | O => EmptyString
  | S n' => String c (repeatByte c n')
  end.

(** A registry that holds one image, whatever the reference asked for. *)
Definition registryWithImage (info : Info) : DockerRegistry :=
  mkDockerRegistry (fun _ => Ok []) (fun _ => Ok (Some info)).

(** A metadata image whose labels do not include [ContentSignature]. *)
Definition infoWithoutContentSignature : Info :=
  mkInfo "repo" "image-metadata-by-commit-app-c0ffee" "sha256:0"
    (Some {[ "maintainer" := "team" ]}) 0.

(** A registry that lists the given tags and holds no image. *)
Definition registryWithTags (tags : list string) : DockerRegistry :=
  mkDockerRegistry (fun _ => Ok tags) (fun _ => Ok None).

(** *** Managed image and client id records, commits of an image *)

(** [fmt.Sprintf(RepoManagedImageRecord_ImageNameFormat, repo, slug)] with the
    format ["%s:managed-image-%s"] *)
Definition makeRepoManagedImageRecord (repoAddress imageName : string) : string :=
  repoAddress ++ ":" ++ RepoManagedImageRecord_ImageTagPrefix
  ++ slugImageNameAsDockerImageTag imageName.

(** The tag part of a managed image record. *)
Definition managedImageRecordTag (imageName : string) : string :=
  RepoManagedImageRecord_ImageTagPrefix ++ slugImageNameAsDockerImageTag imageName.

(** The tag part of [fmt.Sprintf(RepoClientIDRecrod_ImageNameFormat, repo, id,
    timestamp)] with the format ["%s:client-id-%s-%d"] *)
Definition clientIDRecordTag (clientID : string) (timestampMillisec : Z) : string :=
  RepoClientIDRecrod_ImageTagPrefix ++ clientID ++ "-" ++ FormatInt timestampMillisec.

Record ClientIDRecord := mkClientIDRecord {
  ClientID : string;
  TimestampMillisec : Z
}.

(** The loop of [GetClientIDRecords] over the tags still to visit.  The
    tag without its prefix is cut at its last hyphen: reversed, split in
    two at the first hyphen, and each part reversed back. *)
Fixpoint GetClientIDRecords_loop (tags : list string) (res : list ClientIDRecord)
    : list ClientIDRecord :=
  match tags with
  | [] => res
  | tag :: tags' =>
      if negb (HasPrefix tag RepoClientIDRecrod_ImageTagPrefix)
      then GetClientIDRecords_loop tags' res
      else
        let tagWithoutPrefix := TrimPrefix tag RepoClientIDRecrod_ImageTagPrefix in
        match SplitN (Reverse tagWithoutPrefix) "-"%char 2 with
        | [timestampPart; clientIDPart] =>
            let clientID := Reverse clientIDPart in
            let timestampMillisecStr := Reverse timestampPart in
            match ParseInt timestampMillisecStr with
            | Ok timestampMillisec =>
                GetClientIDRecords_loop tags'
                  (res ++ [mkClientIDRecord clientID timestampMillisec])
            | _ => GetClientIDRecords_loop tags' res
            end
        | _ => GetClientIDRecords_loop tags' res
        end
  end.

Definition GetClientIDRecords (storage : RepoStagesStorage) (projectName : string)
    : result (list ClientIDRecord) :=
  match Tags (Registry storage) (RepoAddress storage) with
  | Ok tags => Ok (GetClientIDRecords_loop tags [])
  | Err err => Err ("unable to get repo " ++ RepoAddress storage ++ " tags: " ++ err)
  | Panic p => Panic p
  end.

Section ImageCommits.

(** [slug.LimitedSlug], a parameter as above. *)
Variable LimitedSlug : string -> Z -> string.

(** The loop of [GetImageCommits] over the tags still to visit. *)
Fixpoint GetImageCommits_loop (imageName : string) (tags : list string)
    (res : list string) : list string :=
  match tags with
  | [] => res
  | tag :: tags' =>
      if negb (HasPrefix tag RepoImageMetadataByCommitRecord_ImageTagPrefix)
      then GetImageCommits_loop imageName tags' res
      else
        let sluggedImageAndCommit :=
          TrimPrefix tag RepoImageMetadataByCommitRecord_ImageTagPrefix in
        let sluggedImageAndCommitParts := Split sluggedImageAndCommit "-"%char in
        if (length sluggedImageAndCommitParts <? 2)%nat
        then GetImageCommits_loop imageName tags' res
        else
          let commit := List.last sluggedImageAndCommitParts "" in
          if String.eqb (slugRepoImageMetadataByCommitImageRecordTag LimitedSlug
                           imageName commit) tag
          then GetImageCommits_loop imageName tags' (res ++ [commit])
          else GetImageCommits_loop imageName tags' res
  end.

Definition GetImageCommits (storage : RepoStagesStorage)
    (projectName imageName : string) : result (list string) :=
  match Tags (Registry storage) (RepoAddress storage) with
  | Ok tags => Ok (GetImageCommits_loop imageName tags [])
  | Err err => Err ("unable to get repo " ++ RepoAddress storage ++ " tags: " ++ err)
  | Panic p => Panic p
  end.

End ImageCommits.

End Storage.

(** ** Package [cleaning]: the cleanup engine *)

Module Cleaning.
Import GoStrings Image Storage.

(* Lists are the rule in this module: [++] appends lists, [+:+] strings. *)
Local Open Scope list_scope.

(** *** Data *)

(** The engine handles images through [*image.Info] pointers and compares
    them by identity: a pointer is an address, and the store [heap] (fixed
    during a run, which never writes to an [Info]) gives the object at an
    address. *)
Definition ptr := nat.

(** [plumbing.Hash], by its hexadecimal [String()] form. *)
Definition Hash := string.

(** Modelled from the spec: the tag strategy names of package
    [tag_strategy], which is not among the sources (section 6: "git-tag,
    git-branch, git-commit, stages-signature, custom"). *)
Definition GitTag : string := "git-tag".
Definition GitBranch : string := "git-branch".
Definition GitCommit : string := "git-commit".
Definition StagesSignature : string := "stages-signature".

(** A Kubernetes client, by the answers of its eight workload list calls:
    for each listed item, the images of its containers. *)
Record KubeClient := mkKubeClient {
  Pods : result (list (list string));
  ReplicationControllers : result (list (list string));
  Deployments : result (list (list string));
  StatefulSets : result (list (list string));
  DaemonSets : result (list (list string));
  ReplicaSets : result (list (list string));
  CronJobs : result (list (list string));
  Jobs : result (list (list string))
}.

(** The [GitRepo] interface, by the answers of its calls.  The opened
    repository is passed on to the reference resolver and the history
    scanner only. *)
Record GitRepo := mkGitRepo {
  PlainOpen : result string;
  IsCommitExists : string -> result bool;
  TagsList : result (list string);
  RemoteBranchesList : result (list string)
}.

Record ImagesCleanupPolicies := mkPolicies {
  GitTagStrategyHasLimit : bool;
  GitTagStrategyLimit : Z;
  GitTagStrategyHasExpiryPeriod : bool;
  GitTagStrategyExpiryPeriod : Z;
  GitCommitStrategyHasLimit : bool;
  GitCommitStrategyLimit : Z;
  GitCommitStrategyHasExpiryPeriod : bool;
  GitCommitStrategyExpiryPeriod : Z;
  StagesSignatureStrategyHasLimit : bool;
  StagesSignatureStrategyLimit : Z;
  StagesSignatureStrategyHasExpiryPeriod : bool;
  StagesSignatureStrategyExpiryPeriod : Z
}.

Record repoImagesCleanupByPolicyOptions := mkPolicyOptions {
  hasLimit : bool;
  limit : Z;
  hasExpiryPeriod : bool;
  expiryPeriod : Z;
  schemeName : string
}.

(** The manager.  Its two pointer fields are carried by value; the run
    returns the manager it leaves behind. *)
Record imagesCleanupManager := mkManager {
  imageRepoImageList : gmap string (list ptr);
  imageCommitHashImageMetadata : gmap string (gmap Hash ImageMetadata);
  ProjectName : string;
  ImageNameList : list string;
  LocalGit : option GitRepo;
  KubernetesContextsClients : gmap string KubeClient;
  WithoutKube : bool;
  Policies : ImagesCleanupPolicies;
  GitHistoryBasedCleanup : bool;
  GitHistoryBasedCleanupV12 : bool;
  KeepPolicies : list string;
  DryRun : bool;
  ImagesRepoString : string   (* m.ImagesRepo.String() *)
}.

Record stagesPurgeManager := mkPurgeManager {
  PurgeProjectName : string;
  RmContainersThatUseWerfImages : bool;
  PurgeDryRun : bool
}.

(** *** Effects *)

(** What a run does to its collaborators and what it logs. *)
Inductive Event : Type :=
| EvHostLockAcquire (name : string)
| EvHostLockRelease (name : string)
| EvDeleteRepoImages (dryRun : bool) (images : list ptr)
    (* deleteRepoImageInImagesRepo(ctx, m.ImagesRepo, dryRun, images...) *)
| EvDeleteStages (dryRun : bool) (stages : list StageID)
    (* deleteStageInStagesStorage(ctx, m.StagesManager, options, dryRun, stages...) *)
| EvRmImageCommit (imageName : string) (commit : Hash)
| EvRmManagedImage (imageName : string)
| EvLog (line : string)
| EvWarn (line : string).

Definition Trace := list Event.

(** The collaborators of the engine whose code is not part of it: the
    images repository, the stages storage, the history scanner, the host
    lock and the clock.  An answer to a call that writes may depend on
    what happened before it. *)
Record Env := mkEnv {
  selectRepoImagesFromImagesRepo : list string -> result (gmap string (list ptr));
  deleteRepoImageInImagesRepo : Trace -> bool -> list ptr -> option string;
  StagesStorage_GetImageCommits : string -> result (list string);
  StagesStorage_GetImageMetadataByCommit : string -> string -> result (option ImageMetadata);
  StagesStorage_RmImageCommit : Trace -> string -> Hash -> option string;
  StagesStorage_GetManagedImages : result (list string);
  StagesStorage_RmManagedImage : Trace -> string -> option string;
  StagesManager_GetAllStages : result (list StageID);
  deleteStageInStagesStorage : Trace -> bool -> list StageID -> option string;
  NewHash : string -> Hash;
  getReferencesToScan : string -> list string -> result (list string);
  scanReferencesHistory :
    string -> list string -> gmap string (list Hash) -> result (list string);
  slug_DockerTag : string -> string;
  acquireHostLock : Trace -> string -> option string;
  timeNow : Trace -> Z
}.

(** A computation threads the trace and may stop with an error or a
    panic; the trace written so far is kept. *)
Definition M (A : Type) : Type := Trace -> result A * Trace.

Definition ret {A} (a : A) : M A := fun tr => (Ok a, tr).

Definition bind {A B} (c : M A) (f : A -> M B) : M B :=
  fun tr =>
    match c tr with
    | (Ok a, tr') => f a tr'
    | (Err e, tr') => (Err e, tr')
    | (Panic p, tr') => (Panic p, tr')
    end.

Definition emit (ev : Event) : M unit := fun tr => (Ok tt, tr ++ [ev]).

Definition lift {A} (r : result A) : M A := fun tr => (r, tr).

(** [errors.New]/[fmt.Errorf] around a failed call *)
Definition wrapErr {A} (wrap : string -> string) (r : result A) : result A :=
  match r with
  | Err e => Err (wrap e)
  | _ => r
  end.

Declare Scope go_scope.
Delimit Scope go_scope with go.
Notation "x <- c ;; k" := (bind c (fun x => k))
  (at level 100, c at next level, right associativity) : go_scope.
Notation "c ;; k" := (bind c (fun _ => k))
  (at level 100, right associativity) : go_scope.
Local Open Scope go_scope.

(** A call that writes: recorded, and answered by the collaborator with an
    error or with none. *)
Definition tryCall (ev : Event) (answer : Trace -> option string) : M (option string) :=
  fun tr => (Ok (answer tr), tr ++ [ev]).

(** A call that writes, under [if err := ...; err != nil { return err }]. *)
Definition call (ev : Event) (answer : Trace -> option string) : M unit :=
  err <- tryCall ev answer ;;
  match err with
  | Some e => lift (Err e)
  | None => ret tt
  end.

(** A loop over a slice (or over the entries of a map) that updates [s].
    Go visits the entries of a map in an order it leaves open: [map_to_list]
    stands for one such order, and the properties below hold for whichever
    it is. *)
Fixpoint foldM {A S} (f : S -> A -> M S) (l : list A) (s : S) : M S :=
  match l with
  | [] => ret s
  | a :: l' => bind (f s a) (foldM f l')
  end.

(** *** The engine *)

Section Engine.

Variable heap : ptr -> Info.
Variable env : Env.

Definition createdAt (p : ptr) : Z := CreatedAtUnixNano (heap p).

(** [repoImage.Labels[image.WerfContentSignatureLabel]] *)
Definition contentSignatureOf (p : ptr) : string :=
  labelOrEmpty (heap p) WerfContentSignatureLabel.

(** [fmt.Sprintf("%s:%s", repoImage.Repository, repoImage.Tag)] *)
Definition dockerImageName (p : ptr) : string :=
  Repository (heap p) +:+ ":" +:+ Tag (heap p).

(** Modelled from the spec: [exceptRepoImageList] is not among the
    sources; it "partitions out" images: the images of the first list
    that are none of the pointers to except, in their order. *)
Definition exceptRepoImageList (repoImageList toExcept : list ptr) : list ptr :=
  filter (fun p => p ∉ toExcept) repoImageList.

(** The Go slice expression [s[:n]].  Beyond [len(s)] the expression
    panics or, within the capacity, exposes nil entries whose first use
    panics: both are a panic here. *)
Definition sliceTo (s : list ptr) (n : Z) : result (list ptr) :=
  if (0 <=? n) && (n <=? Z.of_nat (length s))
  then Ok (take (Z.to_nat n) s)
  else Panic "slice bounds out of range".

(** [sort.Slice(images, func(i, j) { return created(i).Before(created(j)) })]:
    ascending by creation time.  The library leaves the order of images
    of equal time open; insertion keeps them in their order. *)
Fixpoint insertByCreatedAt (p : ptr) (l : list ptr) : list ptr :=
  match l with
  | [] => [p]
  | q :: l' =>
      if createdAt p <=? createdAt q then p :: q :: l'
      else q :: insertByCreatedAt p l'
  end.

Definition sortByCreatedAt (l : list ptr) : list ptr :=
  foldr insertByCreatedAt [] l.

Definition deleteRepoImages (dryRun : bool) (images : list ptr) : M unit :=
  call (EvDeleteRepoImages dryRun images)
       (fun tr => deleteRepoImageInImagesRepo env tr dryRun images).

(** [time.Now()], in nanoseconds *)
Definition now : M Z := fun tr => (Ok (timeNow env tr), tr).

(** **** Kubernetes usage *)

Definition containerImages (listed : result (list (list string))) (kind : string)
    : result (list string) :=
  match listed with
  | Ok items => Ok (concat items)
  | Err e => Err ("cannot get " +:+ kind +:+ " images: " +:+ e)
  | Panic p => Panic p
  end.

Definition deployedDockerImages (kubernetesClient : KubeClient)
    : result (list string) :=
  match containerImages (Pods kubernetesClient) "Pods" with
  | Ok i1 =>
  match containerImages (ReplicationControllers kubernetesClient)
          "ReplicationControllers" with
  | Ok i2 =>
  match containerImages (Deployments kubernetesClient) "Deployments" with
  | Ok i3 =>
  match containerImages (StatefulSets kubernetesClient) "StatefulSets" with
  | Ok i4 =>
  match containerImages (DaemonSets kubernetesClient) "DaemonSets" with
  | Ok i5 =>
  match containerImages (ReplicaSets kubernetesClient) "ReplicaSets" with
  | Ok i6 =>
  match containerImages (CronJobs kubernetesClient) "CronJobs" with
  | Ok i7 =>
  match containerImages (Jobs kubernetesClient) "Jobs" with
  | Ok i8 => Ok (i1 ++ i2 ++ i3 ++ i4 ++ i5 ++ i6 ++ i7 ++ i8)
  | Err e => Err e | Panic p => Panic p end
  | Err e => Err e | Panic p => Panic p end
  | Err e => Err e | Panic p => Panic p end
  | Err e => Err e | Panic p => Panic p end
  | Err e => Err e | Panic p => Panic p end
  | Err e => Err e | Panic p => Panic p end
  | Err e => Err e | Panic p => Panic p end
  | Err e => Err e | Panic p => Panic p end.

Fixpoint getDeployedDockerImagesNames_loop
    (clients : list (string * KubeClient)) (names : list string)
    : result (list string) :=
  match clients with
  | [] => Ok names
  | (contextName, kubernetesClient) :: clients' =>
      match deployedDockerImages kubernetesClient with
      | Ok images => getDeployedDockerImagesNames_loop clients' (names ++ images)
      | Err e => Err ("cannot get deployed imagesRepoImageList: " +:+ e)
      | Panic p => Panic p
      end
  end.

Definition getDeployedDockerImagesNames
    (kubernetesContextsClients : gmap string KubeClient) : result (list string) :=
  getDeployedDockerImagesNames_loop (map_to_list kubernetesContextsClients) [].

(** The loop labelled [Loop] of [exceptRepoImagesByWhitelist] over the
    images of one image name. *)
Fixpoint exceptByWhitelist_loop (deployed : list string) (imageName : string)
    (repoImageList newRepoImages : list ptr)
    (exceptedRepoImages : gmap string (list ptr))
    : list ptr * gmap string (list ptr) :=
  match repoImageList with
  | [] => (newRepoImages, exceptedRepoImages)
  | repoImage :: rest =>
      if bool_decide (dockerImageName repoImage ∈ deployed) then
        let exceptedImageList := default [] (exceptedRepoImages !! imageName) in
        exceptByWhitelist_loop deployed imageName rest newRepoImages
          (<[imageName := exceptedImageList ++ [repoImage]]> exceptedRepoImages)
      else
        exceptByWhitelist_loop deployed imageName rest
          (newRepoImages ++ [repoImage]) exceptedRepoImages
  end.

Definition exceptByWhitelist_step (deployed : list string)
    (acc : gmap string (list ptr) * gmap string (list ptr))
    (entry : string * list ptr)
    : gmap string (list ptr) * gmap string (list ptr) :=
  let '(repoImages, exceptedRepoImages) := acc in
  let '(imageName, repoImageList) := entry in
  let '(newRepoImages, exceptedRepoImages) :=
    exceptByWhitelist_loop deployed imageName repoImageList [] exceptedRepoImages in
  (<[imageName := newRepoImages]> repoImages, exceptedRepoImages).

Definition exceptRepoImagesByWhitelist (repoImages : gmap string (list ptr))
    (kubernetesContextsClients : gmap string KubeClient)
    : M (gmap string (list ptr) * gmap string (list ptr)) :=
  deployedDockerImagesNames <-
    lift (getDeployedDockerImagesNames kubernetesContextsClients) ;;
  ret (foldl (exceptByWhitelist_step deployedDockerImagesNames)
             (repoImages, ∅) (map_to_list repoImages)).

(** **** Cleanup by nonexistent git primitive *)

Definition repoImageMetaTagMatch (imageMetaTag : string) (matches : list string) : bool :=
  existsb (fun match_ => String.eqb imageMetaTag (slug_DockerTag env match_)) matches.

(** The loop labelled [Loop]: the images whose git tag, branch or commit
    is not found, in three lists. *)
Fixpoint nonexistentGitPrimitive_loop (localGit : option GitRepo)
    (gitTags gitBranches : list string) (repoImages : list ptr)
    (acc : list ptr * list ptr * list ptr)
    : result (list ptr * list ptr * list ptr) :=
  match repoImages with
  | [] => Ok acc
  | repoImage :: rest =>
      let '(nonexistentGitTag, nonexistentGitBranch, nonexistentGitCommit) := acc in
      let continue_ := nonexistentGitPrimitive_loop localGit gitTags gitBranches rest in
      match label (heap repoImage) WerfTagStrategyLabel with
      | None => continue_ acc
      | Some strategy =>
          let repoImageMetaTag :=
            match label (heap repoImage) WerfImageTagLabel with
            | Some t => t
            | None => Tag (heap repoImage)
            end in
          if String.eqb strategy GitTag then
            if repoImageMetaTagMatch repoImageMetaTag gitTags then continue_ acc
            else continue_ (nonexistentGitTag ++ [repoImage],
                            nonexistentGitBranch, nonexistentGitCommit)
          else if String.eqb strategy GitBranch then
            if repoImageMetaTagMatch repoImageMetaTag gitBranches then continue_ acc
            else continue_ (nonexistentGitTag,
                            nonexistentGitBranch ++ [repoImage], nonexistentGitCommit)
          else if String.eqb strategy GitCommit then
            let found :=
              match localGit with
              | None => Ok false
              | Some git =>
                  match IsCommitExists git repoImageMetaTag with
                  | Ok b => Ok b
                  | Err e => if HasPrefix e "bad commit hash" then Ok false else Err e
                  | Panic p => Panic p
                  end
              end in
            match found with
            | Ok true => continue_ acc
            | Ok false => continue_ (nonexistentGitTag, nonexistentGitBranch,
                                     nonexistentGitCommit ++ [repoImage])
            | Err e => Err e
            | Panic p => Panic p
            end
          else continue_ acc
      end
  end.

(** [if len(images) != 0 { delete images; repoImages = except(repoImages, images) }] *)
Definition deleteAndExcept (dryRun : bool) (repoImages images : list ptr)
    : M (list ptr) :=
  match images with
  | [] => ret repoImages
  | _ => deleteRepoImages dryRun images ;;
         ret (exceptRepoImageList repoImages images)
  end.

Definition repoImagesCleanupByNonexistentGitPrimitive (m : imagesCleanupManager)
    (repoImages : list ptr) : M (list ptr) :=
  lists <-
    lift (match LocalGit m with
          | Some git =>
              match wrapErr (fun e => "cannot get local git tags list: " +:+ e)
                      (TagsList git) with
              | Ok gitTags =>
                  match wrapErr (fun e => "cannot get local git branches list: " +:+ e)
                          (RemoteBranchesList git) with
                  | Ok gitBranches => Ok (gitTags, gitBranches)
                  | Err e => Err e
                  | Panic p => Panic p
                  end
              | Err e => Err e
              | Panic p => Panic p
              end
          | None => Ok ([], [])
          end) ;;
  found <- lift (nonexistentGitPrimitive_loop (LocalGit m) lists.1 lists.2
                   repoImages ([], [], [])) ;;
  repoImages <- deleteAndExcept (DryRun m) repoImages found.1.1 ;;
  repoImages <- deleteAndExcept (DryRun m) repoImages found.1.2 ;;
  deleteAndExcept (DryRun m) repoImages found.2.

(** **** Cleanup by retention policies *)

(** The images older than the expiry time, and the others, in order. *)
Fixpoint splitExpired (hasExpiryPeriod : bool) (expiryTime : Z)
    (repoImagesWithScheme : list ptr) (notExpired expired : list ptr)
    : list ptr * list ptr :=
  match repoImagesWithScheme with
  | [] => (notExpired, expired)
  | repoImage :: rest =>
      if hasExpiryPeriod && (createdAt repoImage <? expiryTime)
      then splitExpired hasExpiryPeriod expiryTime rest notExpired (expired ++ [repoImage])
      else splitExpired hasExpiryPeriod expiryTime rest (notExpired ++ [repoImage]) expired
  end.

Definition repoImagesCleanupByPolicy (m : imagesCleanupManager)
    (repoImages repoImagesWithScheme : list ptr)
    (options : repoImagesCleanupByPolicyOptions) : M (list ptr) :=
  (* the zero [time.Time] is never compared with: it stands as 0 *)
  expiryTime <- (if hasExpiryPeriod options
                 then t <- now ;; ret (t - expiryPeriod options)
                 else ret 0) ;;
  let repoImagesWithScheme := sortByCreatedAt repoImagesWithScheme in
  let '(notExpiredRepoImages, expiredRepoImages) :=
    splitExpired (hasExpiryPeriod options) expiryTime repoImagesWithScheme [] [] in
  repoImages <- deleteAndExcept (DryRun m) repoImages expiredRepoImages ;;
  if hasLimit options && (limit options <? Z.of_nat (length notExpiredRepoImages))
  then
    excessImagesByLimit <-
      lift (sliceTo notExpiredRepoImages
              (Z.of_nat (length notExpiredRepoImages) - limit options)) ;;
    deleteRepoImages (DryRun m) excessImagesByLimit ;;
    ret (exceptRepoImageList repoImages excessImagesByLimit)
  else ret repoImages.

(** The images by tag strategy, in three lists. *)
Fixpoint splitByScheme (repoImages : list ptr) (acc : list ptr * list ptr * list ptr)
    : list ptr * list ptr * list ptr :=
  match repoImages with
  | [] => acc
  | repoImage :: rest =>
      let '(withGitTag, withGitCommit, withStagesSignature) := acc in
      match label (heap repoImage) WerfTagStrategyLabel with
      | None => splitByScheme rest acc
      | Some strategy =>
          if String.eqb strategy GitTag then
            splitByScheme rest (withGitTag ++ [repoImage], withGitCommit,
                                withStagesSignature)
          else if String.eqb strategy GitCommit then
            splitByScheme rest (withGitTag, withGitCommit ++ [repoImage],
                                withStagesSignature)
          else if String.eqb strategy StagesSignature then
            splitByScheme rest (withGitTag, withGitCommit,
                                withStagesSignature ++ [repoImage])
          else splitByScheme rest acc
      end
  end.

Definition gitTagPolicyOptions (p : ImagesCleanupPolicies) :=
  mkPolicyOptions (GitTagStrategyHasLimit p) (GitTagStrategyLimit p)
    (GitTagStrategyHasExpiryPeriod p) (GitTagStrategyExpiryPeriod p) GitTag.

Definition gitCommitPolicyOptions (p : ImagesCleanupPolicies) :=
  mkPolicyOptions (GitCommitStrategyHasLimit p) (GitCommitStrategyLimit p)
    (GitCommitStrategyHasExpiryPeriod p) (GitCommitStrategyExpiryPeriod p) GitCommit.

Definition stagesSignaturePolicyOptions (p : ImagesCleanupPolicies) :=
  mkPolicyOptions (StagesSignatureStrategyHasLimit p) (StagesSignatureStrategyLimit p)
    (StagesSignatureStrategyHasExpiryPeriod p)
    (StagesSignatureStrategyExpiryPeriod p) StagesSignature.

Definition repoImagesCleanupByPolicies (m : imagesCleanupManager)
    (repoImages : list ptr) : M (list ptr) :=
  let '(repoImagesWithGitTagScheme, repoImagesWithGitCommitScheme,
        repoImagesWithStagesSignatureScheme) :=
    splitByScheme repoImages ([], [], []) in
  repoImages <- repoImagesCleanupByPolicy m repoImages repoImagesWithGitTagScheme
                  (gitTagPolicyOptions (Policies m)) ;;
  repoImages <- repoImagesCleanupByPolicy m repoImages repoImagesWithGitCommitScheme
                  (gitCommitPolicyOptions (Policies m)) ;;
  repoImagesCleanupByPolicy m repoImages repoImagesWithStagesSignatureScheme
    (stagesSignaturePolicyOptions (Policies m)).

Definition repoImagesCleanup_step (m : imagesCleanupManager)
    (resultRepoImages : gmap string (list ptr)) (entry : string * list ptr)
    : M (gmap string (list ptr)) :=
  let '(imageName, repoImageListToCleanup) := entry in
  repoImageListToCleanup <-
    repoImagesCleanupByNonexistentGitPrimitive m repoImageListToCleanup ;;
  resultRepoImageList <- repoImagesCleanupByPolicies m repoImageListToCleanup ;;
  ret (<[imageName := resultRepoImageList]> resultRepoImages).

Definition repoImagesCleanup (m : imagesCleanupManager)
    (repoImagesToCleanup : gmap string (list ptr)) : M (gmap string (list ptr)) :=
  foldM (repoImagesCleanup_step m) (map_to_list repoImagesToCleanup) ∅.

(** **** Git history based cleanup *)

Definition groupByContentSignature_step (repoImageListToCleanup : list ptr)
    (acc : gmap string (list ptr)) (entry : Hash * ImageMetadata)
    : gmap string (list ptr) :=
  let contentSignature := ContentSignature entry.2 in
  match acc !! contentSignature with
  | Some _ => acc
  | None =>
      <[contentSignature :=
          filter (fun p => contentSignatureOf p = contentSignature)
                 repoImageListToCleanup]> acc
  end.

Definition metadataOf (m : imagesCleanupManager) (imageName : string)
    : gmap Hash ImageMetadata :=
  default ∅ (imageCommitHashImageMetadata m !! imageName).

Definition getImageContentSignatureRepoImageListToCleanup
    (m : imagesCleanupManager) (repoImagesToCleanup : gmap string (list ptr))
    : gmap string (gmap string (list ptr)) :=
  foldl (fun acc entry =>
           <[entry.1 := foldl (groupByContentSignature_step entry.2) ∅
                          (map_to_list (metadataOf m entry.1))]> acc)
        ∅ (map_to_list repoImagesToCleanup).

Fixpoint existingCommitHashes_loop (localGit : option GitRepo)
    (entries : list (Hash * ImageMetadata)) (acc : gmap string (list Hash))
    : result (gmap string (list Hash)) :=
  match entries with
  | [] => Ok acc
  | (commitHash, imageMetadata) :: rest =>
      let commitHashes := default [] (acc !! ContentSignature imageMetadata) in
      match localGit with
      | None => Panic "invalid memory address or nil pointer dereference"
      | Some git =>
          match IsCommitExists git commitHash with
          | Ok true =>
              existingCommitHashes_loop localGit rest
                (<[ContentSignature imageMetadata := commitHashes ++ [commitHash]]> acc)
          | Ok false => existingCommitHashes_loop localGit rest acc
          | Err e => Err ("check git commit existence failed: " +:+ e)
          | Panic p => Panic p
          end
      end
  end.

Fixpoint getImageContentSignatureExistingCommitHashes_loop
    (m : imagesCleanupManager) (imageNames : list string)
    (acc : gmap string (gmap string (list Hash)))
    : result (gmap string (gmap string (list Hash))) :=
  match imageNames with
  | [] => Ok acc
  | imageName :: rest =>
      match existingCommitHashes_loop (LocalGit m)
              (map_to_list (metadataOf m imageName)) ∅ with
      | Ok hashes =>
          getImageContentSignatureExistingCommitHashes_loop m rest
            (<[imageName := hashes]> acc)
      | Err e => Err e
      | Panic p => Panic p
      end
  end.

Definition getImageContentSignatureExistingCommitHashes (m : imagesCleanupManager)
    : result (gmap string (gmap string (list Hash))) :=
  getImageContentSignatureExistingCommitHashes_loop m (ImageNameList m) ∅.

Definition getImageRepoImageListWithoutRelatedImageMetadata
    (imageRepoImageListToCleanup : gmap string (list ptr))
    (imageContentSignatureRepoImageListToCleanup : gmap string (gmap string (list ptr)))
    : gmap string (list ptr) :=
  foldl (fun acc entry =>
           let contentSignatureRepoImageListToCleanup :=
             default ∅ (imageContentSignatureRepoImageListToCleanup !! entry.1) in
           <[entry.1 :=
               foldl (fun unusedRepoImageList filtered =>
                        exceptRepoImageList unusedRepoImageList filtered.2)
                     entry.2 (map_to_list contentSignatureRepoImageListToCleanup)]> acc)
        ∅ (map_to_list imageRepoImageListToCleanup).

Definition warnTagsWithoutMetadata : list Event :=
  [EvWarn "Detected tags without related image metadata. These tags will be saved during cleanup.";
   EvWarn "Since v1.2 git history based cleanup will delete such tags by default. You can force this behaviour in current werf version with --git-history-based-cleanup-v1.2 option."].

(** One round of the loop of "Processing images tags without related
    image metadata" over (resultRepoImages, repoImagesToCleanup). *)
Definition withoutMetadata_step (m : imagesCleanupManager)
    (acc : gmap string (list ptr) * gmap string (list ptr))
    (entry : string * list ptr)
    : M (gmap string (list ptr) * gmap string (list ptr)) :=
  let '(imageName, repoImages) := entry in
  if GitHistoryBasedCleanupV12 m then ret acc
  else
    match repoImages with
    | [] => ret tt
    | _ => foldM (fun _ ev => emit ev) warnTagsWithoutMetadata tt
    end ;;
    ret (<[imageName := default [] (acc.1 !! imageName) ++ repoImages]> acc.1,
         <[imageName :=
             exceptRepoImageList (default [] (acc.2 !! imageName)) repoImages]> acc.2).

(** The signatures of an image that still have a commit in the git
    repository, with those commits. *)
Definition existingSignatureCommits
    (contentSignatureRepoImageListToCleanup : gmap string (list ptr))
    (contentSignatureExistingCommitHashes : gmap string (list Hash))
    : gmap string (list Hash) :=
  foldl (fun acc entry =>
           match default [] (contentSignatureExistingCommitHashes !! entry.1) with
           | [] => acc
           | existingCommitHashes => <[entry.1 := existingCommitHashes]> acc
           end)
        ∅ (map_to_list contentSignatureRepoImageListToCleanup).

Fixpoint reachedRepoImages
    (contentSignatureRepoImageListToCleanup : gmap string (list ptr))
    (reachedContentSignatureList : list string) (repoImageListToKeep : list ptr)
    : result (list ptr) :=
  match reachedContentSignatureList with
  | [] => Ok repoImageListToKeep
  | contentSignature :: rest =>
      match contentSignatureRepoImageListToCleanup !! contentSignature with
      | None => Panic "runtime error"
      | Some images =>
          reachedRepoImages contentSignatureRepoImageListToCleanup rest
            (repoImageListToKeep ++ images)
      end
  end.

(** One round of the loop of "Git history based cleanup". *)
Definition historyScan_step (m : imagesCleanupManager)
    (gitRepository : string) (referencesToScan : list string)
    (imageContentSignatureRepoImageListToCleanup : gmap string (gmap string (list ptr)))
    (imageContentSignatureExistingCommitHashes : gmap string (gmap string (list Hash)))
    (resultRepoImages : gmap string (list ptr)) (entry : string * list ptr)
    : M (gmap string (list ptr)) :=
  let '(imageName, repoImageListToCleanup) := entry in
  let contentSignatureRepoImageListToCleanup :=
    default ∅ (imageContentSignatureRepoImageListToCleanup !! imageName) in
  let contentSignatureCommitHashes :=
    existingSignatureCommits contentSignatureRepoImageListToCleanup
      (default ∅ (imageContentSignatureExistingCommitHashes !! imageName)) in
  scanned <-
    (if bool_decide (size contentSignatureCommitHashes ≠ 0%nat) then
       reachedContentSignatureList <-
         lift (scanReferencesHistory env gitRepository referencesToScan
                 contentSignatureCommitHashes) ;;
       repoImageListToKeep <-
         lift (reachedRepoImages contentSignatureRepoImageListToCleanup
                 reachedContentSignatureList []) ;;
       ret (<[imageName :=
                default [] (resultRepoImages !! imageName) ++ repoImageListToKeep]>
              resultRepoImages,
            exceptRepoImageList repoImageListToCleanup repoImageListToKeep)
     else
       emit (EvLog "Scanning stopped due to nothing to seek") ;;
       ret (resultRepoImages, repoImageListToCleanup)) ;;
  deleteRepoImages (DryRun m) scanned.2 ;;
  ret scanned.1.

Definition getImageUnusedCommitHashes (m : imagesCleanupManager)
    (resultImageRepoImageList : gmap string (list ptr)) : gmap string (list Hash) :=
  foldl (fun acc entry =>
           let repoImageList := default [] (resultImageRepoImageList !! entry.1) in
           <[entry.1 :=
               foldl (fun unusedCommitHashes commit =>
                        if bool_decide
                             (Exists (fun p => contentSignatureOf p
                                               = ContentSignature commit.2)
                                     repoImageList)
                        then unusedCommitHashes
                        else unusedCommitHashes ++ [commit.1])
                     [] (map_to_list entry.2)]> acc)
        ∅ (map_to_list (imageCommitHashImageMetadata m)).

Definition rmImageCommit_step (m : imagesCleanupManager) (imageName : string)
    (_ : unit) (commitHash : Hash) : M unit :=
  if DryRun m then emit (EvLog commitHash)
  else
    err <- tryCall (EvRmImageCommit imageName commitHash)
             (fun tr => StagesStorage_RmImageCommit env tr imageName commitHash) ;;
    match err with
    | Some e =>
        emit (EvWarn ("WARNING: Metadata image deletion (image " +:+ imageName
                      +:+ ", commit: " +:+ commitHash +:+ ") failed: " +:+ e))
    | None => ret tt
    end.

(** The phase "Deleting unused images metadata". *)
Definition deleteUnusedImagesMetadata (m : imagesCleanupManager)
    (resultRepoImages : gmap string (list ptr)) : M unit :=
  foldM (fun _ entry => foldM (rmImageCommit_step m entry.1) entry.2 tt)
        (map_to_list (getImageUnusedCommitHashes m resultRepoImages)) tt.

Definition repoImagesGitHistoryBasedCleanup (m : imagesCleanupManager)
    (repoImagesToCleanup : gmap string (list ptr)) : M (gmap string (list ptr)) :=
  gitRepository <-
    lift (match LocalGit m with
          | Some git => wrapErr (fun e => "git plain open failed: " +:+ e) (PlainOpen git)
          | None => Panic "invalid memory address or nil pointer dereference"
          end) ;;
  referencesToScan <- lift (getReferencesToScan env gitRepository (KeepPolicies m)) ;;
  let imageContentSignatureRepoImageListToCleanup :=
    getImageContentSignatureRepoImageListToCleanup m repoImagesToCleanup in
  imageContentSignatureExistingCommitHashes <-
    lift (getImageContentSignatureExistingCommitHashes m) ;;
  let imageRepoImageListWithoutRelatedContentSignature :=
    getImageRepoImageListWithoutRelatedImageMetadata repoImagesToCleanup
      imageContentSignatureRepoImageListToCleanup in
  st <- foldM (withoutMetadata_step m)
          (map_to_list imageRepoImageListWithoutRelatedContentSignature)
          (∅, repoImagesToCleanup) ;;
  resultRepoImages <-
    foldM (historyScan_step m gitRepository referencesToScan
             imageContentSignatureRepoImageListToCleanup
             imageContentSignatureExistingCommitHashes)
          (map_to_list st.2) st.1 ;;
  deleteUnusedImagesMetadata m resultRepoImages ;;
  ret resultRepoImages.

(** **** The cleanup run *)

(** Modelled from the spec: [werf.WithHostLock] is not among the sources;
    "a host-local named lock taken around long-running operations",
    released "on scope exit including error paths"; a lock that cannot
    be acquired is fatal. *)
Definition WithHostLock {A} (lockName : string) (f : M A) : M A :=
  fun tr =>
    match acquireHostLock env tr lockName with
    | Some e => (Err e, tr)
    | None =>
        let '(r, tr') := f (tr ++ [EvHostLockAcquire lockName]) in
        (r, tr' ++ [EvHostLockRelease lockName])
    end.

Definition setImageRepoImageList (m : imagesCleanupManager)
    (repoImages : gmap string (list ptr)) : imagesCleanupManager :=
  mkManager repoImages (imageCommitHashImageMetadata m) (ProjectName m)
    (ImageNameList m) (LocalGit m) (KubernetesContextsClients m) (WithoutKube m)
    (Policies m) (GitHistoryBasedCleanup m) (GitHistoryBasedCleanupV12 m)
    (KeepPolicies m) (DryRun m) (ImagesRepoString m).

Definition setImageCommitImageMetadata (m : imagesCleanupManager)
    (metadata : gmap string (gmap Hash ImageMetadata)) : imagesCleanupManager :=
  mkManager (imageRepoImageList m) metadata (ProjectName m)
    (ImageNameList m) (LocalGit m) (KubernetesContextsClients m) (WithoutKube m)
    (Policies m) (GitHistoryBasedCleanup m) (GitHistoryBasedCleanupV12 m)
    (KeepPolicies m) (DryRun m) (ImagesRepoString m).

Fixpoint commitImageMetadata_loop (imageName : string) (commits : list string)
    (acc : gmap Hash ImageMetadata) : result (gmap Hash ImageMetadata) :=
  match commits with
  | [] => Ok acc
  | commit :: rest =>
      match StagesStorage_GetImageMetadataByCommit env imageName commit with
      | Ok (Some imageMetadata) =>
          commitImageMetadata_loop imageName rest
            (<[NewHash env commit := imageMetadata]> acc)
      | Ok None => commitImageMetadata_loop imageName rest acc
      | Err _ =>
          Err ("get image " +:+ imageName +:+ " metadata by commit " +:+ commit
               +:+ " failed")
      | Panic p => Panic p
      end
  end.

Fixpoint initImageCommitHashImageMetadata_loop (imageNames : list string)
    (acc : gmap string (gmap Hash ImageMetadata))
    : result (gmap string (gmap Hash ImageMetadata)) :=
  match imageNames with
  | [] => Ok acc
  | imageName :: rest =>
      match StagesStorage_GetImageCommits env imageName with
      | Ok commits =>
          match commitImageMetadata_loop imageName commits ∅ with
          | Ok commitImageMetadata =>
              initImageCommitHashImageMetadata_loop rest
                (<[imageName := commitImageMetadata]> acc)
          | Err e => Err e
          | Panic p => Panic p
          end
      | Err e => Err ("get image " +:+ imageName +:+ " commits failed: " +:+ e)
      | Panic p => Panic p
      end
  end.

Definition initRepoImagesData (m : imagesCleanupManager) : M imagesCleanupManager :=
  repoImages <- lift (selectRepoImagesFromImagesRepo env (ImageNameList m)) ;;
  let m := setImageRepoImageList m repoImages in
  if GitHistoryBasedCleanup m || GitHistoryBasedCleanupV12 m then
    metadata <- lift (initImageCommitHashImageMetadata_loop (ImageNameList m) ∅) ;;
    ret (setImageCommitImageMetadata m metadata)
  else ret m.

(** One round of the final loop of [run] over the excepted images. *)
Definition mergeExcepted_step (resultRepoImages : gmap string (list ptr))
    (entry : string * list ptr) : gmap string (list ptr) :=
  match resultRepoImages !! entry.1 with
  | None => <[entry.1 := entry.2]> resultRepoImages
  | Some images => <[entry.1 := images ++ entry.2]> resultRepoImages
  end.

Definition skippedWithoutGit : string :=
  "Images cleanup skipped due to local git repository was not detected".

(** [imagesCleanupManager.run] *)
Definition imagesCleanup_run (m : imagesCleanupManager) : M imagesCleanupManager :=
  WithHostLock ("images-cleanup." +:+ ImagesRepoString m)
    (m <- initRepoImagesData m ;;
     let repoImagesToCleanup := imageRepoImageList m in
     match LocalGit m with
     | None => emit (EvLog skippedWithoutGit) ;; ret m
     | Some _ =>
         split <- (if negb (WithoutKube m)
                   then exceptRepoImagesByWhitelist repoImagesToCleanup
                          (KubernetesContextsClients m)
                   else ret (repoImagesToCleanup, ∅)) ;;
         resultRepoImages <-
           (if GitHistoryBasedCleanup m || GitHistoryBasedCleanupV12 m
            then repoImagesGitHistoryBasedCleanup m split.1
            else repoImagesCleanup m split.1) ;;
         ret (setImageRepoImageList m
                (foldl mergeExcepted_step resultRepoImages (map_to_list split.2)))
     end).

(** **** The stages purge run *)

Definition rmManagedImage_step (pm : stagesPurgeManager) (_ : unit)
    (managedImage : string) : M unit :=
  (if PurgeDryRun pm then ret tt
   else call (EvRmManagedImage managedImage)
             (fun tr => StagesStorage_RmManagedImage env tr managedImage)) ;;
  let logTag := if String.eqb managedImage "" then NamelessImageRecordTag
                else managedImage in
  emit (EvLog ("  tag: " +:+ logTag)).

(** [stagesPurgeManager.run] *)
Definition stagesPurge_run (pm : stagesPurgeManager) : M unit :=
  WithHostLock ("stages-purge." +:+ PurgeProjectName pm)
    (stages <- lift (StagesManager_GetAllStages env) ;;
     call (EvDeleteStages (PurgeDryRun pm) stages)
          (fun tr => deleteStageInStagesStorage env tr (PurgeDryRun pm) stages) ;;
     managedImages <- lift (StagesStorage_GetManagedImages env) ;;
     foldM (rmManagedImage_step pm) managedImages tt).

End Engine.

(** *** Reading traces *)

(** Writes: the events that ask a collaborator to delete something.  The
    engine has no call that pushes. *)
Definition isWrite (ev : Event) : bool :=
  match ev with
  | EvDeleteRepoImages _ _ | EvDeleteStages _ _
  | EvRmImageCommit _ _ | EvRmManagedImage _ => true
  | _ => false
  end.

(** The images a trace asks the images repository to delete. *)
Definition deletedImages (evs : list Event) : list ptr :=
  concat (omap (fun ev => match ev with
                          | EvDeleteRepoImages _ images => Some images
                          | _ => None
                          end) evs).

(** The per-commit metadata records a trace asks the stages storage to
    remove. *)
Definition rmImageCommitCalls (evs : list Event) : list (string * Hash) :=
  omap (fun ev => match ev with
                  | EvRmImageCommit imageName commit => Some (imageName, commit)
                  | _ => None
                  end) evs.

(** What the purge loop writes for a managed image it removed. *)
Definition managedImageRemoved (managedImage : string) : list Event :=
  [EvRmManagedImage managedImage;
   EvLog ("  tag: " +:+ (if String.eqb managedImage "" then NamelessImageRecordTag
                         else managedImage))].

(** Every image that a computation asks to delete satisfies [P], from any
    trace on, and its value, when it returns one, satisfies [Q]. *)
Definition deletesWithin {A} (P : ptr -> Prop) (c : M A) (Q : A -> Prop) : Prop :=
  forall tr,
    exists evs,
      (c tr).2 = tr ++ evs
      /\ Forall P (deletedImages evs)
      /\ forall a, (c tr).1 = Ok a -> Q a.

(** Every image of every list of a map satisfies [P]. *)
Definition MapAll (P : ptr -> Prop) (images : gmap string (list ptr)) : Prop :=
  forall imageName l, images !! imageName = Some l -> Forall P l.

(** Every image of every list of a map of maps satisfies [P]. *)
Definition MapMapAll (P : ptr -> Prop)
    (images : gmap string (gmap string (list ptr))) : Prop :=
  forall imageName bySignature,
    images !! imageName = Some bySignature -> MapAll P bySignature.

(** An image has no related image metadata under an image name: none of
    the content signatures stored per commit for that name is the content
    signature label of the image. *)
Definition withoutRelatedMetadata (heap : ptr -> Info) (m : imagesCleanupManager)
    (imageName : string) (p : ptr) : Prop :=
  forall commitHash imageMetadata,
    metadataOf m imageName !! commitHash = Some imageMetadata ->
    contentSignatureOf heap p <> ContentSignature imageMetadata.

(** An image has related image metadata under an image name: some content
    signature stored per commit for that name is its content signature
    label. *)
Definition relatedMetadata (heap : ptr -> Info) (m : imagesCleanupManager)
    (imageName : string) (p : ptr) : Prop :=
  exists commitHash imageMetadata,
    metadataOf m imageName !! commitHash = Some imageMetadata
    /\ contentSignatureOf heap p = ContentSignature imageMetadata.

(** The two maps after a round of the loop over the images without related
    metadata, when the v1.2 flag is off. *)
Definition withoutMetadata_saved
    (acc : gmap string (list ptr) * gmap string (list ptr))
    (entry : string * list ptr)
    : gmap string (list ptr) * gmap string (list ptr) :=
  (<[entry.1 := default [] (acc.1 !! entry.1) ++ entry.2]> acc.1,
   <[entry.1 := exceptRepoImageList (default [] (acc.2 !! entry.1)) entry.2]> acc.2).

(** The warnings of that loop: one pair for each image name that has
    images without related metadata. *)
Definition withoutMetadata_warnings (entries : list (string * list ptr)) : list Event :=
  flat_map (fun entry : string * list ptr =>
              match entry.2 with
              | [] => []
              | _ => warnTagsWithoutMetadata
              end) entries.

(** *** The retention policy, in the words of the specification *)



(** The images that carry the tag strategy label [strategy]. *)
Definition withStrategy (heap : ptr -> Info) (strategy : string) (images : list ptr)
    : list ptr :=
  filter (fun p => label (heap p) WerfTagStrategyLabel = Some strategy) images.



(** *** A small repository to run the engine on *)

(** Five images of one application, tagged by git commit, created at
    times 10, 20, 30, 40 and 50; any other address holds an unlabelled
    image. *)
Definition demoHeap (p : ptr) : Info :=
  match p with
  | 1%nat => mkInfo "repo/app" "c1" "sha256:1" (Some {[ WerfTagStrategyLabel := GitCommit ]}) 10
  | 2%nat => mkInfo "repo/app" "c2" "sha256:2" (Some {[ WerfTagStrategyLabel := GitCommit ]}) 20
  | 3%nat => mkInfo "repo/app" "c3" "sha256:3" (Some {[ WerfTagStrategyLabel := GitCommit ]}) 30
  | 4%nat => mkInfo "repo/app" "c4" "sha256:4" (Some {[ WerfTagStrategyLabel := GitCommit ]}) 40
  | 5%nat => mkInfo "repo/app" "c5" "sha256:5" (Some {[ WerfTagStrategyLabel := GitCommit ]}) 50
  | _ => mkInfo "repo/app" "other" "sha256:0" None 0
  end.

(** Collaborators that answer every call without error: the repository
    holds the five images under the image name [app], no metadata, no
    managed image; every commit exists. *)
Definition demoEnv : Env :=
  mkEnv (fun _ => Ok {[ "app" := [1; 2; 3; 4; 5]%nat ]})
        (fun _ _ _ => None)
        (fun _ => Ok [])
        (fun _ _ => Ok None)
        (fun _ _ _ => None)
        (Ok ["backend"; "frontend"])
        (fun _ _ => None)
        (Ok [])
        (fun _ _ _ => None)
        (fun commit => commit)
        (fun _ _ => Ok [])
        (fun _ _ _ => Ok [])
        (fun name => name)
        (fun _ _ => None)
        (fun _ => 1000).

Definition demoGit : GitRepo :=
  mkGitRepo (Ok ".") (fun _ => Ok true) (Ok []) (Ok []).

Definition noPolicies : ImagesCleanupPolicies :=
  mkPolicies false 0 false 0 false 0 false 0 false 0 false 0.

(** The same collaborators, except that the stages storage fails to
    remove the managed image [backend] and every metadata record. *)
Definition failingEnv : Env :=
  mkEnv (selectRepoImagesFromImagesRepo demoEnv)
        (deleteRepoImageInImagesRepo demoEnv)
        (StagesStorage_GetImageCommits demoEnv)
        (StagesStorage_GetImageMetadataByCommit demoEnv)
        (fun _ _ _ => Some "registry unavailable")
        (StagesStorage_GetManagedImages demoEnv)
        (fun _ managedImage =>
           if String.eqb managedImage "backend" then Some "registry unavailable"
           else None)
        (StagesManager_GetAllStages demoEnv)
        (deleteStageInStagesStorage demoEnv)
        (NewHash demoEnv)
        (getReferencesToScan demoEnv)
        (scanReferencesHistory demoEnv)
        (slug_DockerTag demoEnv)
        (acquireHostLock demoEnv)
        (timeNow demoEnv).

(** A manager in git history mode that knows one metadata record, of a
    content signature that no image carries. *)
Definition orphanMetadataManager : imagesCleanupManager :=
  mkManager ∅ {[ "app" := {[ "c0ffee" := mkImageMetadata "sig-gone" ]} ]}
    "project" ["app"] None ∅ true noPolicies true false [] false "repo".

(** A cluster whose only workload is a pod that runs [repo/app:c1]. *)
Definition demoKube : KubeClient :=
  mkKubeClient (Ok [["repo/app:c1"]]) (Ok []) (Ok []) (Ok []) (Ok []) (Ok []) (Ok [])
    (Ok []).

(** A manager with the Kubernetes probe enabled on that cluster. *)
Definition kubeManager (policies : ImagesCleanupPolicies) : imagesCleanupManager :=
  mkManager ∅ ∅ "project" ["app"] (Some demoGit) {[ "production" := demoKube ]}
    false policies false false [] false "repo".

(** A manager in git history mode, with or without the v1.2 flag, that
    knows one metadata record: at commit [c0ffee] the image [app] had the
    content signature [sig-a], which none of the repo images carries. *)
Definition historyManager (v12 : bool) : imagesCleanupManager :=
  mkManager ∅ {[ "app" := {[ "c0ffee" := mkImageMetadata "sig-a" ]} ]}
    "project" ["app"] (Some demoGit) ∅ true noPolicies true v12 [] false "repo".

(** Scenario S4: keep at most three images tagged by git commit. *)
Definition limit3Policies : ImagesCleanupPolicies :=
  mkPolicies false 0 false 0 true 3 false 0 false 0 false 0.

Definition demoManager (localGit : option GitRepo) (withoutKube : bool)
    (policies : ImagesCleanupPolicies) : imagesCleanupManager :=
  mkManager ∅ ∅ "project" ["app"] localGit ∅ withoutKube policies
    false false [] false "repo".

(** *** The events of a run *)

(** Every event that a computation writes satisfies [E], from any trace
    on. *)
Definition emitsOnly {A} (E : Event -> Prop) (c : M A) : Prop :=
  forall tr, exists evs, (c tr).2 = tr ++ evs /\ Forall E evs.

(** What an event of the images cleanup may be under the dry-run flag
    [dryRun]: a deletion of repo images carries the flag, a removal of a
    metadata record needs the flag off; stages and managed image records
    are not touched. *)
Definition cleanupEventUnder (dryRun : bool) (ev : Event) : Prop :=
  match ev with
  | EvDeleteRepoImages d _ => d = dryRun
  | EvRmImageCommit _ _ => dryRun = false
  | EvDeleteStages _ _ | EvRmManagedImage _ => False
  | _ => True
  end.

(** What an event of the stages purge may be under the dry-run flag
    [dryRun]: a deletion of stages carries the flag, a removal of a managed
    image record needs the flag off; repo images and metadata records are
    not touched. *)
Definition purgeEventUnder (dryRun : bool) (ev : Event) : Prop :=
  match ev with
  | EvDeleteStages d _ => d = dryRun
  | EvRmManagedImage _ => dryRun = false
  | EvDeleteRepoImages _ _ | EvRmImageCommit _ _ => False
  | _ => True
  end.

(** A computation over the image list [l] accounts for every image: when
    it succeeds, the list it returns holds images of [l] only, and every
    image of [l] is in that list or among the images it asked to delete. *)
Definition accountsFor (l : list ptr) (c : M (list ptr)) : Prop :=
  forall tr res tr',
    c tr = (Ok res, tr') ->
    exists evs,
      tr' = tr ++ evs
      /\ (forall p, p ∈ res -> p ∈ l)
      /\ (forall p, p ∈ l -> p ∈ res \/ p ∈ deletedImages evs).

(** An image carries one of the tag strategies that the cleanup without git
    history manages. *)
Definition hasManagedStrategy (heap : ptr -> Info) (p : ptr) : Prop :=
  exists strategy,
    label (heap p) WerfTagStrategyLabel = Some strategy
    /\ strategy ∈ [GitTag; GitBranch; GitCommit; StagesSignature].

End Cleaning.

(* ===================================================================== *)
(** * Properties                                                          *)
(* ===================================================================== *)

Module GoStringsFacts.
Import GoStrings.

Lemma HasPrefix_app (p s : string) : HasPrefix (p ++ s) p = true.
Proof.
  induction p as [|c p IH]; simpl; [reflexivity|].
  now rewrite Ascii.eqb_refl.
Qed.

Lemma Cut_no_sep (s : string) (sep : ascii) :
  ContainsByte s sep = false -> Cut s sep = None.
Proof.
  induction s as [|c s IH]; simpl; [reflexivity|].
  destruct (Ascii.eqb c sep); [discriminate|].
  intros H. now rewrite IH.
Qed.

Lemma Cut_first (s rest : string) (sep : ascii) :
  ContainsByte s sep = false ->
  Cut (s ++ String sep rest) sep = Some (s, rest).
Proof.
  induction s as [|c s IH]; simpl.
  - now rewrite Ascii.eqb_refl.
  - destruct (Ascii.eqb c sep); [discriminate|].
    intros H. now rewrite IH.
Qed.

Lemma Cut_Some (s : string) (sep : ascii) (a b : string) :
  Cut s sep = Some (a, b) ->
  s = a ++ String sep b /\ ContainsByte a sep = false.
Proof.
  revert a. induction s as [|c s IH]; simpl; intros a; [discriminate|].
  destruct (Ascii.eqb_spec c sep) as [->|Hne].
  - intros [= <- <-]. split; reflexivity.
  - destruct (Cut s sep) as [[a' b']|] eqn:E; [|discriminate].
    intros [= <- <-]. destruct (IH a' eq_refl) as [-> Ha]. simpl.
    split; [reflexivity|].
    destruct (Ascii.eqb_spec c sep); [contradiction|exact Ha].
Qed.

Lemma Cut_None (s : string) (sep : ascii) :
  Cut s sep = None -> ContainsByte s sep = false.
Proof.
  induction s as [|c s IH]; simpl; [reflexivity|].
  destruct (Ascii.eqb c sep); [discriminate|].
  destruct (Cut s sep) as [[a b]|]; [discriminate|]. auto.
Qed.

(** The digits of a non-empty decimal numeral start with neither sign. *)
Lemma string_of_uint_head (d : Decimal.uint) :
  match NilZero.string_of_uint d with
  | String c _ => c <> "+"%char /\ c <> "-"%char
  | EmptyString => False
  end.
Proof. destruct d; simpl; split; discriminate. Qed.

Lemma ParseInt_digits (d : Decimal.uint) :
  d <> Decimal.Nil ->
  is_int64 (Z.of_uint d) = true ->
  ParseInt (NilZero.string_of_uint d) = Ok (Z.of_uint d).
Proof.
  intros Hd Hr. unfold ParseInt.
  pose proof (string_of_uint_head d) as Hh.
  pose proof (NilZero.usu d Hd) as Hu.
  destruct (NilZero.string_of_uint d) as [|c r] eqn:E; [contradiction|].
  destruct Hh as [Hp Hm].
  assert (Hsel : (let '(neg, digits) :=
              match String c r with
              | String "+"%char r0 => (false, r0)
              | String "-"%char r0 => (true, r0)
              | _ => (false, String c r)
              end in
            match NilZero.uint_of_string digits with
            | None => Err "invalid syntax"
            | Some d0 =>
                let v := if neg then (- Z.of_uint d0) else Z.of_uint d0 in
                if is_int64 v then Ok v else Err "value out of range"
            end) = Ok (Z.of_uint d)).
  { destruct c as [[|] [|] [|] [|] [|] [|] [|] [|]];
      try (exfalso; apply Hp; reflexivity);
      try (exfalso; apply Hm; reflexivity);
      cbv zeta beta iota; rewrite Hu; cbv zeta; rewrite Hr; reflexivity. }
  exact Hsel.
Qed.

Lemma ParseInt_neg_digits (d : Decimal.uint) :
  d <> Decimal.Nil ->
  is_int64 (- Z.of_uint d) = true ->
  ParseInt (String "-" (NilZero.string_of_uint d)) = Ok (- Z.of_uint d).
Proof.
  intros Hd Hr. unfold ParseInt. rewrite (NilZero.usu d Hd).
  cbv zeta. now rewrite Hr.
Qed.

Lemma Pos_to_uint_nonnil (p : positive) : Pos.to_uint p <> Decimal.Nil.
Proof.
  intros H.
  pose proof (DecimalPos.Unsigned.of_to p) as Hof.
  rewrite H in Hof. discriminate.
Qed.

Lemma Z_of_uint_to_uint (p : positive) : Z.of_uint (Pos.to_uint p) = Z.pos p.
Proof.
  unfold Z.of_uint. now rewrite DecimalPos.Unsigned.of_to.
Qed.

(** Reading back what [%d] printed. *)
Lemma ParseInt_FormatInt (z : Z) :
  is_int64 z = true -> ParseInt (FormatInt z) = Ok z.
Proof.
  intros Hr. unfold FormatInt. destruct z as [|p|p].
  - reflexivity.
  - pose proof (ParseInt_digits (Pos.to_uint p) (Pos_to_uint_nonnil p)) as H.
    rewrite Z_of_uint_to_uint in H. exact (H Hr).
  - pose proof (ParseInt_neg_digits (Pos.to_uint p) (Pos_to_uint_nonnil p)) as H.
    rewrite Z_of_uint_to_uint in H. exact (H Hr).
Qed.

Lemma len_app (a b : string) : len (a ++ b) = len a + len b.
Proof.
  unfold len. induction a as [|c a IH]; simpl String.length; [lia|].
  rewrite !Nat2Z.inj_succ. lia.
Qed.

Lemma len_String (c : ascii) (s : string) : len (String c s) = 1 + len s.
Proof. unfold len. simpl String.length. lia. Qed.

Lemma len_nonneg (s : string) : 0 <= len s.
Proof. unfold len. lia. Qed.

(** Replacing a byte by one byte keeps the length and leaves no occurrence
    of the replaced byte. *)
Lemma len_ReplaceAll_byte (s : string) (old new : ascii) :
  len (ReplaceAll s old (String new "")) = len s.
Proof.
  induction s as [|c s IH]; [reflexivity|]. simpl ReplaceAll.
  destruct (Ascii.eqb c old); simpl String.append;
    rewrite !len_String, IH; reflexivity.
Qed.

Lemma ContainsByte_ReplaceAll_byte (s : string) (old new : ascii) :
  new <> old ->
  ContainsByte (ReplaceAll s old (String new "")) old = false.
Proof.
  intros Hne. induction s as [|c s IH]; [reflexivity|]. simpl ReplaceAll.
  destruct (Ascii.eqb_spec c old) as [->|Hc]; simpl.
  - destruct (Ascii.eqb_spec new old); [contradiction|exact IH].
  - destruct (Ascii.eqb_spec c old); [contradiction|exact IH].
Qed.

End GoStringsFacts.

Module StorageFacts.
Import GoStrings Image Storage GoStringsFacts.

(** The decoder, by the first hyphen of the tag. *)
Lemma getSignatureAndUniqueID_unfold (tag : string) :
  getSignatureAndUniqueIDFromRepoStageImageTag tag =
  match Cut tag "-"%char with
  | Some (signature, suffix) =>
      match ParseInt suffix with
      | Ok uniqueID => Ok (signature, uniqueID)
      | Err err =>
          Err (UnexpectedTagFormatErrorPrefix ++ " " ++ tag
               ++ ": unable to parse unique id " ++ suffix
               ++ " as timestamp: " ++ err)
      | Panic p => Panic p
      end
  | None => Err (UnexpectedTagFormatErrorPrefix ++ " " ++ tag)
  end.
Proof.
  unfold getSignatureAndUniqueIDFromRepoStageImageTag, ParseUniqueIDAsTimestamp.
  simpl SplitN. destruct (Cut tag "-"%char) as [[a b]|]; reflexivity.
Qed.

Lemma ParseInt_no_panic (s p : string) : ParseInt s <> Panic p.
Proof.
  unfold ParseInt.
  destruct (match s with
            | String "+"%char r => (false, r)
            | String "-"%char r => (true, r)
            | _ => (false, s)
            end) as [neg digits].
  destruct (NilZero.uint_of_string digits); [|discriminate].
  cbv zeta. destruct (is_int64 _); discriminate.
Qed.

(** Every error of the decoder is an unexpected-tag-format error, and the
    decoder does not panic. *)
Lemma getSignatureAndUniqueID_error (tag err : string) :
  getSignatureAndUniqueIDFromRepoStageImageTag tag = Err err ->
  isUnexpectedTagFormatError err = true.
Proof.
  rewrite getSignatureAndUniqueID_unfold.
  destruct (Cut tag "-"%char) as [[a b]|].
  - destruct (ParseInt b); intros [= <-]. reflexivity.
  - intros [= <-]. reflexivity.
Qed.

Lemma getSignatureAndUniqueID_no_panic (tag p : string) :
  getSignatureAndUniqueIDFromRepoStageImageTag tag <> Panic p.
Proof.
  rewrite getSignatureAndUniqueID_unfold.
  destruct (Cut tag "-"%char) as [[a b]|]; [|discriminate].
  destruct (ParseInt b) eqn:E; try discriminate.
  exfalso. exact (ParseInt_no_panic _ _ E).
Qed.

(** ** Stage tags: encoding and decoding *)

(** C2, as the specification states it, fails: a signature that holds a
    hyphen and no reserved prefix is not read back, since the decoder cuts
    the tag at its first hyphen. *)
Lemma stage_tag_roundtrip_hyphen_counterexample :
  hasReservedPrefix "a-b" = false
  /\ ContainsByte "a-b" "-"%char = true
  /\ stageImageTag "a-b" 1700000000000 = "a-b-1700000000000"
  /\ getSignatureAndUniqueIDFromRepoStageImageTag (stageImageTag "a-b" 1700000000000)
     = Err "unexpected tag format a-b-1700000000000: unable to parse unique id b-1700000000000 as timestamp: invalid syntax".
Proof. vm_compute. repeat split. Qed.

(** C2 (amended): for every signature without a hyphen (such a signature
    starts with no reserved prefix) and every int64 unique id, the stage
    image name is [repo:signature-uniqueID] and decoding its tag yields
    back exactly (signature, unique id). *)
Theorem stage_tag_roundtrip (storage : RepoStagesStorage)
    (projectName signature : string) (uniqueID : Z) :
  ContainsByte signature "-"%char = false ->
  is_int64 uniqueID = true ->
  ConstructStageImageName storage projectName signature uniqueID
    = RepoAddress storage ++ ":" ++ stageImageTag signature uniqueID
  /\ hasReservedPrefix signature = false
  /\ getSignatureAndUniqueIDFromRepoStageImageTag (stageImageTag signature uniqueID)
     = Ok (signature, uniqueID).
Proof.
  intros Hsig Hid. split; [reflexivity|]. split.
  - unfold hasReservedPrefix.
    assert (Hp : forall p q, HasPrefix signature (p ++ String "-" q) = false).
    { clear Hid. induction signature as [|c s IH]; intros p q.
      - destruct p; reflexivity.
      - cbn -[Ascii.eqb] in Hsig.
        destruct (Ascii.eqb_spec c "-"%char) as [->|Hne]; [discriminate|].
        destruct p as [|d p]; cbn -[Ascii.eqb].
        + destruct (Ascii.eqb_spec "-"%char c) as [<-|]; [contradiction|reflexivity].
        + destruct (Ascii.eqb d c); [apply IH; exact Hsig|reflexivity]. }
    rewrite (Hp "managed" "image-" : HasPrefix signature
               RepoManagedImageRecord_ImageTagPrefix = false).
    rewrite (Hp "image" "metadata-by-commit-" : HasPrefix signature
               RepoImageMetadataByCommitRecord_ImageTagPrefix = false).
    rewrite (Hp "client" "id-" : HasPrefix signature
               RepoClientIDRecrod_ImageTagPrefix = false).
    reflexivity.
  - rewrite getSignatureAndUniqueID_unfold. unfold stageImageTag.
    change ("-" ++ FormatInt uniqueID) with (String "-"%char (FormatInt uniqueID)).
    rewrite (Cut_first _ _ _ Hsig), (ParseInt_FormatInt _ Hid). reflexivity.
Qed.

Lemma stage_tag_roundtrip_witness :
  getSignatureAndUniqueIDFromRepoStageImageTag (stageImageTag "abc123" 1700000000000)
  = Ok ("abc123", 1700000000000).
Proof.
  exact (proj2 (proj2 (stage_tag_roundtrip
           (mkRepoStagesStorage "registry.example/project" (registryWithTags []))
           "project" "abc123" 1700000000000 eq_refl eq_refl))).
Defined.

(** ** Enumerating stages *)

Local Arguments HasPrefix : simpl never.
Local Arguments getSignatureAndUniqueIDFromRepoStageImageTag : simpl never.
Local Arguments decodableStage : simpl never.
Local Arguments stageByBarePrefix : simpl never.

Lemma GetAllStages_loop_omap (tags : list string) (res : list StageID) :
  GetAllStages_loop tags res = Ok (res ++ omap decodableStage tags)%list.
Proof.
  revert res. induction tags as [|tag tags IH]; intros res; simpl.
  - now rewrite app_nil_r.
  - unfold decodableStage.
    destruct (HasPrefix tag RepoManagedImageRecord_ImageTagPrefix
              || HasPrefix tag RepoImageMetadataByCommitRecord_ImageTagPrefix).
    + apply IH.
    + destruct (getSignatureAndUniqueIDFromRepoStageImageTag tag)
        as [[sig uid]|err|p] eqn:E.
      * rewrite getSignatureAndUniqueID_unfold in E.
        destruct (Cut tag "-"%char) as [[a b]|]; [|discriminate].
        destruct (ParseInt b); try discriminate.
        injection E as <- <-. rewrite IH, <- app_assoc. reflexivity.
      * rewrite (getSignatureAndUniqueID_error _ _ E).
        rewrite getSignatureAndUniqueID_unfold in E.
        destruct (Cut tag "-"%char) as [[a b]|].
        -- destruct (ParseInt b); try discriminate; apply IH.
        -- apply IH.
      * exfalso. exact (getSignatureAndUniqueID_no_panic _ _ E).
Qed.

(** C8: when the registry lists [tags], [GetAllStages] returns, without
    error and in the order of the list, exactly the stage identifiers
    decodable from it: tags with the managed-image or metadata-by-commit
    prefix are filtered out, tags failing the signature/unique-id parse are
    skipped, every other tag contributes its (signature, unique id); on the
    tag list of scenario S1 the result is the two [abc123] stages. *)
Theorem GetAllStages_decodable :
  (forall (storage : RepoStagesStorage) (projectName : string) (tags : list string),
      Tags (Registry storage) (RepoAddress storage) = Ok tags ->
      GetAllStages storage projectName = Ok (omap decodableStage tags))
  /\ GetAllStages
       (mkRepoStagesStorage "repo"
          (registryWithTags ["abc123-1700000000000"; "abc123-1700000001000";
                             "managed-image-myapp"; "noise"; "def-notanumber"]))
       "project"
     = Ok [mkStageID "abc123" 1700000000000; mkStageID "abc123" 1700000001000].
Proof.
  split; [|vm_compute; reflexivity].
  intros storage projectName tags Htags. unfold GetAllStages.
  rewrite Htags. apply GetAllStages_loop_omap.
Qed.

Lemma GetAllStages_decodable_witness :
  GetAllStages
    (mkRepoStagesStorage "repo"
       (registryWithTags ["abc123-1700000000000"; "client-id-x-1"; "noise"]))
    "project"
  = Ok [mkStageID "abc123" 1700000000000].
Proof.
  exact (proj1 GetAllStages_decodable
           (mkRepoStagesStorage "repo"
              (registryWithTags ["abc123-1700000000000"; "client-id-x-1"; "noise"]))
           "project" _ eq_refl).
Defined.

Lemma GetStagesBySignature_loop_omap (sig : string) (tags : list string)
    (res : list StageID) :
  GetStagesBySignature_loop sig tags res
  = Ok (res ++ omap (stageByBarePrefix sig) tags)%list.
Proof.
  revert res. induction tags as [|tag tags IH]; intros res; simpl.
  - now rewrite app_nil_r.
  - unfold stageByBarePrefix.
    destruct (HasPrefix tag sig); simpl.
    + destruct (getSignatureAndUniqueIDFromRepoStageImageTag tag)
        as [[sig' uid]|err|p] eqn:E.
      * rewrite getSignatureAndUniqueID_unfold in E.
        destruct (Cut tag "-"%char) as [[a b]|]; [|discriminate].
        destruct (ParseInt b); try discriminate.
        injection E as <- <-. rewrite IH, <- app_assoc. reflexivity.
      * rewrite (getSignatureAndUniqueID_error _ _ E).
        rewrite getSignatureAndUniqueID_unfold in E.
        destruct (Cut tag "-"%char) as [[a b]|].
        -- destruct (ParseInt b); try discriminate; apply IH.
        -- apply IH.
      * exfalso. exact (getSignatureAndUniqueID_no_panic _ _ E).
    + apply IH.
Qed.

(** C10: [GetStagesBySignature] selects tags by bare string prefix.  When
    the registry lists [tags], it returns one entry for every tag that
    starts with [sig] (a hyphen need not follow [sig]) and whose suffix
    after the first hyphen of the tag parses as a timestamp; every entry
    carries [Signature = sig], also when the signature encoded in the tag
    strictly extends [sig]: under [sig = "abc"] the tag [abcdef-5] yields
    (abc, 5). *)
Theorem GetStagesBySignature_bare_prefix :
  (forall (storage : RepoStagesStorage) (projectName sig : string) (tags : list string),
      Tags (Registry storage) (RepoAddress storage) = Ok tags ->
      exists stages,
        GetStagesBySignature storage projectName sig = Ok stages
        /\ stages = omap (stageByBarePrefix sig) tags
        /\ Forall (fun stage => Signature stage = sig) stages)
  /\ GetStagesBySignature
       (mkRepoStagesStorage "repo"
          (registryWithTags ["abcdef-5"; "abc-7"; "ab-1"; "abcxyz"; "abc-x-9"]))
       "project" "abc"
     = Ok [mkStageID "abc" 5; mkStageID "abc" 7].
Proof.
  split; [|vm_compute; reflexivity].
  intros storage projectName sig tags Htags.
  exists (omap (stageByBarePrefix sig) tags). split; [|split; [reflexivity|]].
  - unfold GetStagesBySignature. rewrite Htags.
    apply GetStagesBySignature_loop_omap.
  - apply Forall_forall. intros stage Hin.
    apply list_elem_of_omap in Hin as (tag & _ & Hdec).
    unfold stageByBarePrefix in Hdec.
    destruct (HasPrefix tag sig); [|discriminate].
    destruct (Cut tag "-"%char) as [[a b]|]; [|discriminate].
    destruct (ParseInt b); try discriminate.
    now injection Hdec as <-.
Qed.

Lemma GetStagesBySignature_bare_prefix_witness :
  exists stages,
    GetStagesBySignature
      (mkRepoStagesStorage "repo" (registryWithTags ["abcdef-5"; "zzz-1"]))
      "project" "abc" = Ok stages
    /\ stages = omap (stageByBarePrefix "abc") ["abcdef-5"; "zzz-1"]
    /\ Forall (fun stage => Signature stage = "abc") stages.
Proof.
  exact (proj1 GetStagesBySignature_bare_prefix
           (mkRepoStagesStorage "repo" (registryWithTags ["abcdef-5"; "zzz-1"]))
           "project" "abc" _ eq_refl).
Defined.

(** ** Per-commit metadata tags *)

Lemma len_firstBytes (n : nat) (s : string) :
  (n <= String.length s)%nat -> String.length (firstBytes n s) = n.
Proof.
  revert s. induction n as [|n IH]; intros [|c s]; simpl; try lia.
  intros H. rewrite IH; lia.
Qed.

Lemma truncatingSlug_len (s : string) (n : Z) :
  0 <= n < len s -> len (truncatingSlug s n) = n.
Proof.
  unfold len, truncatingSlug. intros H. rewrite len_firstBytes; lia.
Qed.

Lemma len_TagFormat (name commit : string) :
  len (RepoImageMetadataByCommitRecord_TagFormat name commit)
  = 25 + len name + 1 + len commit.
Proof.
  unfold RepoImageMetadataByCommitRecord_TagFormat.
  rewrite !len_app. change (len RepoImageMetadataByCommitRecord_ImageTagPrefix) with 25.
  change (len "-") with 1. lia.
Qed.

(** C5: with a [slug.LimitedSlug] that shrinks a longer string to exactly
    the size it is asked for, and a commit of at most 40 bytes, the
    per-commit metadata tag has at most 128 bytes for every image name; when
    the unshrunk form exceeds 128 bytes the tag has exactly 128 bytes and is
    [image-metadata-by-commit-<shrunk>-<commit>] where [<shrunk>] is the
    shrunk name slug with every hyphen replaced by an underscore, so that
    it holds no hyphen and the hyphen before the commit is kept. *)
Theorem metadata_tag_cap (LimitedSlug : string -> Z -> string)
    (imageName commit : string) :
  (forall s n, 0 <= n < len s -> len (LimitedSlug s n) = n) ->
  len commit <= 40 ->
  let name := slugImageNameAsDockerImageTag imageName in
  let unshrunk := RepoImageMetadataByCommitRecord_TagFormat name commit in
  let tag := slugRepoImageMetadataByCommitImageRecordTag LimitedSlug imageName commit in
  len tag <= 128
  /\ (len unshrunk <= 128 -> tag = unshrunk)
  /\ (128 < len unshrunk ->
      exists shrunk,
        shrunk = ReplaceAll (LimitedSlug name (len name - (len unshrunk - 128)))
                   "-"%char "_"
        /\ tag = RepoImageMetadataByCommitRecord_ImageTagPrefix
                 ++ shrunk ++ "-" ++ commit
        /\ ContainsByte shrunk "-"%char = false
        /\ len tag = 128).
Proof.
  intros Hslug Hcommit name unshrunk tag.
  assert (Hun : len unshrunk = 25 + len name + 1 + len commit)
    by apply len_TagFormat.
  pose proof (len_nonneg name) as Hn. pose proof (len_nonneg commit) as Hc.
  assert (Htag : tag = if len unshrunk <=? 128 then unshrunk
                       else RepoImageMetadataByCommitRecord_TagFormat
                              (ReplaceAll (LimitedSlug name (len name - (len unshrunk - 128)))
                                 "-"%char "_") commit) by reflexivity.
  destruct (Z.leb_spec (len unshrunk) 128) as [Hle|Hgt].
  - rewrite Htag. split; [exact Hle|]. split; [reflexivity|]. lia.
  - assert (Hlen : len tag = 128).
    { rewrite Htag, len_TagFormat, len_ReplaceAll_byte, Hslug; lia. }
    split; [lia|]. split; [lia|]. intros _.
    eexists. split; [reflexivity|]. split; [exact Htag|]. split; [|exact Hlen].
    apply ContainsByte_ReplaceAll_byte. discriminate.
Qed.

(** Scenario S6: a name of 120 bytes and a 40-byte commit. *)
Lemma metadata_tag_cap_witness :
  let imageName := repeatByte "a" 120 in
  let commit := repeatByte "c" 40 in
  let tag := slugRepoImageMetadataByCommitImageRecordTag truncatingSlug imageName commit in
  len (RepoImageMetadataByCommitRecord_TagFormat
         (slugImageNameAsDockerImageTag imageName) commit) = 186
  /\ len tag <= 128.
Proof.
  split; [vm_compute; reflexivity|].
  refine (proj1 (metadata_tag_cap truncatingSlug (repeatByte "a" 120)
                   (repeatByte "c" 40) truncatingSlug_len _)).
  vm_compute. discriminate.
Defined.

(** C6, as the specification states it, fails: an image that exists and
    has labels, none of which is [ContentSignature], yields a non-null
    metadata record (with an empty content signature) instead of null. *)
Lemma GetImageMetadataByCommit_missing_label_counterexample :
  label infoWithoutContentSignature "ContentSignature" = None
  /\ GetImageMetadataByCommit truncatingSlug
       (mkRepoStagesStorage "repo" (registryWithImage infoWithoutContentSignature))
       "project" "app" "c0ffee"
     = Ok (Some (mkImageMetadata "")).
Proof. split; reflexivity. Qed.

(** C6 (amended): [GetImageMetadataByCommit] returns null and no error when
    the encoded metadata tag is absent from the registry and when the
    fetched image has no labels map at all; when the image exists and has
    a labels map it returns a non-null record whose content signature is
    the value of the [ContentSignature] label, or the empty string when the
    map lacks that label; a non-null record is returned only in that
    case. *)
Theorem GetImageMetadataByCommit_cases (LimitedSlug : string -> Z -> string)
    (storage : RepoStagesStorage) (projectName imageName commit : string) :
  let fullImageName :=
    RepoAddress storage ++ ":"
    ++ slugRepoImageMetadataByCommitImageRecordTag LimitedSlug imageName commit in
  let fetched := TryGetRepoImage (Registry storage) fullImageName in
  let res := GetImageMetadataByCommit LimitedSlug storage projectName imageName commit in
  (fetched = Ok None -> res = Ok None)
  /\ (forall info, fetched = Ok (Some info) -> Labels info = None -> res = Ok None)
  /\ (forall info labels,
        fetched = Ok (Some info) -> Labels info = Some labels ->
        res = Ok (Some (mkImageMetadata (default "" (labels !! "ContentSignature")))))
  /\ (forall metadata,
        res = Ok (Some metadata) ->
        exists info labels,
          fetched = Ok (Some info) /\ Labels info = Some labels
          /\ ContentSignature metadata = default "" (labels !! "ContentSignature")).
Proof.
  intros fullImageName fetched res.
  assert (Hres : res = match fetched with
                       | Err err => Err ("unable to get repo image " ++ fullImageName
                                         ++ ": " ++ err)
                       | Panic p => Panic p
                       | Ok None => Ok None
                       | Ok (Some info) =>
                           match Labels info with
                           | Some labels =>
                               Ok (Some (mkImageMetadata
                                           (default "" (labels !! "ContentSignature"))))
                           | None => Ok None
                           end
                       end) by reflexivity.
  clearbody res fetched. subst res. repeat split.
  - intros ->. reflexivity.
  - intros info -> ->. reflexivity.
  - intros info labels -> ->. reflexivity.
  - intros metadata H. destruct fetched as [[info|]|err|p]; try discriminate.
    destruct (Labels info) as [labels|] eqn:E; [|discriminate].
    injection H as <-. exists info, labels. repeat split. exact E.
Qed.

Lemma GetImageMetadataByCommit_cases_witness :
  GetImageMetadataByCommit truncatingSlug
    (mkRepoStagesStorage "repo" (registryWithTags [])) "project" "app" "c0ffee"
  = Ok None.
Proof.
  exact (proj1 (GetImageMetadataByCommit_cases truncatingSlug
                  (mkRepoStagesStorage "repo" (registryWithTags []))
                  "project" "app" "c0ffee") eq_refl).
Defined.

End StorageFacts.

Module CleaningFacts.
Import GoStrings Image Storage Cleaning.
Local Open Scope list_scope.
Local Open Scope go_scope.

(** ** The effect monad *)

Lemma bind_Ok_inv {A B} (c : M A) (f : A -> M B) tr b tr' :
  bind c f tr = (Ok b, tr') ->
  exists a tr1, c tr = (Ok a, tr1) /\ f a tr1 = (Ok b, tr').
Proof.
  unfold bind. destruct (c tr) as [[a|e|p] tr1]; try discriminate.
  intros H. eauto.
Qed.

Lemma bind_eq_Ok {A B} (c : M A) (f : A -> M B) tr a tr1 :
  c tr = (Ok a, tr1) -> bind c f tr = f a tr1.
Proof. unfold bind. now intros ->. Qed.

Section WithEnv.

Variable heap : ptr -> Info.
Variable env : Env.

(** ** Fetching the repo images data *)

Lemma initRepoImagesData_reads (m : imagesCleanupManager) (tr : Trace) :
  exists r,
    initRepoImagesData env m tr = (r, tr)
    /\ forall m1, r = Ok m1 -> LocalGit m1 = LocalGit m.
Proof.
  unfold initRepoImagesData, bind, lift, ret.
  destruct (selectRepoImagesFromImagesRepo env (ImageNameList m)) as [ri|e|p];
    [|eexists; split; [reflexivity|discriminate]..].
  cbn [GitHistoryBasedCleanup GitHistoryBasedCleanupV12 setImageRepoImageList
       ImageNameList].
  destruct (GitHistoryBasedCleanup m || GitHistoryBasedCleanupV12 m).
  - destruct (initImageCommitHashImageMetadata_loop env (ImageNameList m) ∅);
      eexists; (split; [reflexivity|]); try discriminate.
    intros m1 [= <-]. reflexivity.
  - eexists. split; [reflexivity|]. intros m1 [= <-]. reflexivity.
Qed.

(** C9: without a local git repository ([LocalGit] is nil) the images
    cleanup run issues no deletion (and the engine has no push): whatever
    the collaborators answer, the events of the run are the host lock,
    and the line that says cleanup is skipped; when the lock is acquired
    and the repo images data are fetched, the run returns success with
    exactly these events, before any exclusion, policy or deletion
    phase. *)
Theorem run_without_local_git (m : imagesCleanupManager) (tr : Trace) :
  LocalGit m = None ->
  let lockName := "images-cleanup." +:+ ImagesRepoString m in
  (exists evs,
      (imagesCleanup_run heap env m tr).2 = tr ++ evs
      /\ Forall (fun ev => isWrite ev = false) evs)
  /\ (forall m1,
        acquireHostLock env tr lockName = None ->
        initRepoImagesData env m (tr ++ [EvHostLockAcquire lockName])
          = (Ok m1, tr ++ [EvHostLockAcquire lockName]) ->
        imagesCleanup_run heap env m tr
        = (Ok m1, tr ++ [EvHostLockAcquire lockName; EvLog skippedWithoutGit;
                         EvHostLockRelease lockName])).
Proof.
  intros Hgit lockName.
  destruct (initRepoImagesData_reads m (tr ++ [EvHostLockAcquire lockName]))
    as (r & Hinit & Hr).
  assert (Hrun : imagesCleanup_run heap env m tr =
                 match acquireHostLock env tr lockName with
                 | Some e => (Err e, tr)
                 | None =>
                     match r with
                     | Ok m1 => (Ok m1, tr ++ [EvHostLockAcquire lockName;
                                               EvLog skippedWithoutGit;
                                               EvHostLockRelease lockName])
                     | Err e => (Err e, tr ++ [EvHostLockAcquire lockName;
                                               EvHostLockRelease lockName])
                     | Panic p => (Panic p, tr ++ [EvHostLockAcquire lockName;
                                                   EvHostLockRelease lockName])
                     end
                 end).
  { unfold imagesCleanup_run, WithHostLock. fold lockName.
    destruct (acquireHostLock env tr lockName); [reflexivity|].
    unfold bind at 1. rewrite Hinit.
    destruct r as [m1|e|p]; [|now rewrite <- app_assoc..].
    rewrite (Hr m1 eq_refl), Hgit. unfold bind, emit, ret.
    now rewrite <- !app_assoc. }
  split.
  - rewrite Hrun. destruct (acquireHostLock env tr lockName).
    + exists []. split; [now rewrite app_nil_r|constructor].
    + destruct r; eexists; (split; [reflexivity|]); repeat constructor.
  - intros m1 Hlock Hfetch. rewrite Hrun, Hlock.
    rewrite Hfetch in Hinit. injection Hinit as <-. reflexivity.
Qed.

(** ** What a computation deletes *)

Lemma deletedImages_app (evs1 evs2 : list Event) :
  deletedImages (evs1 ++ evs2) = deletedImages evs1 ++ deletedImages evs2.
Proof. unfold deletedImages. now rewrite omap_app, concat_app. Qed.

Lemma dw_ret {A} (P : ptr -> Prop) (Q : A -> Prop) (a : A) :
  Q a -> deletesWithin P (ret a) Q.
Proof.
  intros HQ tr. exists []. cbn. rewrite app_nil_r.
  repeat split; [constructor|]. now intros ? [= <-].
Qed.

Lemma dw_lift {A} (P : ptr -> Prop) (Q : A -> Prop) (r : result A) :
  (forall a, r = Ok a -> Q a) -> deletesWithin P (lift r) Q.
Proof.
  intros HQ tr. exists []. cbn. rewrite app_nil_r.
  repeat split; [constructor|exact HQ].
Qed.

Lemma dw_bind {A B} (P : ptr -> Prop) (Q : A -> Prop) (R : B -> Prop)
    (c : M A) (f : A -> M B) :
  deletesWithin P c Q ->
  (forall a, Q a -> deletesWithin P (f a) R) ->
  deletesWithin P (bind c f) R.
Proof.
  intros Hc Hf tr. destruct (Hc tr) as (evs1 & Htr1 & Hdel1 & HQ).
  unfold bind. destruct (c tr) as [[a|e|p] tr1]; cbn in *; subst tr1.
  - destruct (Hf a (HQ a eq_refl) (tr ++ evs1)) as (evs2 & Htr2 & Hdel2 & HR).
    exists (evs1 ++ evs2). rewrite Htr2, app_assoc. split; [reflexivity|].
    split; [|exact HR]. rewrite deletedImages_app. now apply Forall_app.
  - exists evs1. repeat split; [exact Hdel1|discriminate].
  - exists evs1. repeat split; [exact Hdel1|discriminate].
Qed.

Lemma dw_weaken {A} (P : ptr -> Prop) (Q Q' : A -> Prop) (c : M A) :
  deletesWithin P c Q -> (forall a, Q a -> Q' a) -> deletesWithin P c Q'.
Proof.
  intros Hc HQ tr. destruct (Hc tr) as (evs & Htr & Hdel & Hq).
  exists evs. repeat split; auto.
Qed.

Lemma dw_emit (P : ptr -> Prop) (ev : Event) :
  deletedImages [ev] = [] -> deletesWithin P (emit ev) (fun _ => True).
Proof.
  intros Hev tr. exists [ev]. cbn [emit fst snd]. rewrite Hev.
  repeat split. constructor.
Qed.

Lemma dw_tryCall (P : ptr -> Prop) (ev : Event) (answer : Trace -> option string) :
  Forall P (deletedImages [ev]) ->
  deletesWithin P (tryCall ev answer) (fun _ => True).
Proof. intros Hev tr. exists [ev]. cbn [tryCall fst snd]. repeat split. exact Hev. Qed.

Lemma dw_call (P : ptr -> Prop) (ev : Event) (answer : Trace -> option string) :
  Forall P (deletedImages [ev]) ->
  deletesWithin P (call ev answer) (fun _ => True).
Proof.
  intros Hev. unfold call. eapply dw_bind; [apply dw_tryCall; exact Hev|].
  intros [e|] _; [apply dw_lift|apply dw_ret]; auto.
Qed.

Lemma dw_deleteRepoImages (P : ptr -> Prop) (dryRun : bool) (images : list ptr) :
  Forall P images ->
  deletesWithin P (deleteRepoImages env dryRun images) (fun _ => True).
Proof.
  intros HP. apply dw_call. unfold deletedImages. cbn. now rewrite app_nil_r.
Qed.

Lemma dw_now (P : ptr -> Prop) : deletesWithin P (now env) (fun _ => True).
Proof. intros tr. exists []. cbn. rewrite app_nil_r. repeat split. constructor. Qed.

Lemma dw_foldM {A S} (P : ptr -> Prop) (Inv : S -> Prop)
    (f : S -> A -> M S) (l : list A) (s : S) :
  Inv s ->
  (forall s a, a ∈ l -> Inv s -> deletesWithin P (f s a) Inv) ->
  deletesWithin P (foldM f l s) Inv.
Proof.
  revert s. induction l as [|a l IH]; intros s Hs Hf; simpl.
  - now apply dw_ret.
  - eapply dw_bind; [apply Hf; [left|exact Hs]|].
    intros s' Hs'. apply IH; [exact Hs'|].
    intros s0 a0 Ha0. apply Hf. now right.
Qed.

Lemma dw_WithHostLock {A} (P : ptr -> Prop) (Q : A -> Prop) (name : string) (c : M A) :
  deletesWithin P c Q -> deletesWithin P (WithHostLock env name c) Q.
Proof.
  intros Hc tr. unfold WithHostLock.
  destruct (acquireHostLock env tr name).
  - exists []. cbn. rewrite app_nil_r. repeat split; [constructor|discriminate].
  - destruct (Hc (tr ++ [EvHostLockAcquire name])) as (evs & Htr & Hdel & HQ).
    destruct (c (tr ++ [EvHostLockAcquire name])) as [r tr1]. cbn in *. subst tr1.
    exists ([EvHostLockAcquire name] ++ evs ++ [EvHostLockRelease name]).
    split; [now rewrite <- !app_assoc|]. split; [|exact HQ].
    rewrite !deletedImages_app. cbn. now rewrite app_nil_r.
Qed.

(** ** Loops over the entries of a map *)

(** A loop over entries of distinct keys, each round of which changes
    what is read at the key of its entry only. *)
Lemma foldl_keyed {S V X} (get : S -> string -> X)
    (step : S -> string * V -> S) (upd : string -> V -> X -> X)
    (l : list (string * V)) :
  (forall s k v, get (step s (k, v)) k = upd k v (get s k)) ->
  (forall s k v k', k' <> k -> get (step s (k, v)) k' = get s k') ->
  NoDup l.*1 ->
  forall s,
    (forall k v, (k, v) ∈ l -> get (foldl step s l) k = upd k v (get s k))
    /\ (forall k, k ∉ l.*1 -> get (foldl step s l) k = get s k).
Proof.
  intros Hsame Hother. induction l as [|[k0 v0] l IH]; intros Hnd s.
  - split; [intros k v H; inversion H|reflexivity].
  - cbn in Hnd. apply NoDup_cons in Hnd as [Hk0 Hnd].
    destruct (IH Hnd (step s (k0, v0))) as [IHin IHout]. split.
    + intros k v Hin. cbn. apply elem_of_cons in Hin as [[= -> ->]|Hin].
      * rewrite (IHout k0 Hk0). apply Hsame.
      * assert (k <> k0).
        { intros ->. apply Hk0. apply list_elem_of_fmap. now exists (k0, v). }
        rewrite (IHin k v Hin). now rewrite Hother.
    + intros k Hk. cbn. cbn in Hk. apply not_elem_of_cons in Hk as [Hne Hk].
      rewrite (IHout k Hk). now apply Hother.
Qed.

Lemma foldl_map_to_list {S V X} (get : S -> string -> X)
    (step : S -> string * V -> S) (upd : string -> V -> X -> X)
    (entries : gmap string V) (s : S) (k : string) :
  (forall s k v, get (step s (k, v)) k = upd k v (get s k)) ->
  (forall s k v k', k' <> k -> get (step s (k, v)) k' = get s k') ->
  get (foldl step s (map_to_list entries)) k
  = match entries !! k with
    | Some v => upd k v (get s k)
    | None => get s k
    end.
Proof.
  intros Hsame Hother.
  destruct (foldl_keyed get step upd (map_to_list entries) Hsame Hother
              (NoDup_fst_map_to_list entries) s) as [Hin Hout].
  destruct (entries !! k) as [v|] eqn:E.
  - apply Hin. now apply elem_of_map_to_list.
  - apply Hout. intros Hk. apply list_elem_of_fmap in Hk as ([k' v] & -> & Hk).
    apply elem_of_map_to_list in Hk. cbn in E. congruence.
Qed.

(** ** Lists of images *)

Lemma exceptRepoImageList_nil (l : list ptr) : exceptRepoImageList l [] = l.
Proof.
  unfold exceptRepoImageList. induction l as [|p l IH]; [reflexivity|].
  rewrite filter_cons_True by apply not_elem_of_nil. now rewrite IH.
Qed.

Lemma exceptRepoImageList_elem_of (l toExcept : list ptr) (p : ptr) :
  p ∈ exceptRepoImageList l toExcept <-> p ∈ l /\ p ∉ toExcept.
Proof. unfold exceptRepoImageList. rewrite list_elem_of_filter. tauto. Qed.

Lemma insertByCreatedAt_perm (p : ptr) (l : list ptr) :
  insertByCreatedAt heap p l ≡ₚ p :: l.
Proof.
  induction l as [|q l IH]; simpl; [reflexivity|].
  destruct (createdAt heap p <=? createdAt heap q); [reflexivity|].
  rewrite IH. apply Permutation_swap.
Qed.

Lemma sortByCreatedAt_perm (l : list ptr) : sortByCreatedAt heap l ≡ₚ l.
Proof.
  unfold sortByCreatedAt. induction l as [|p l IH]; simpl; [reflexivity|].
  rewrite insertByCreatedAt_perm. now rewrite IH.
Qed.








(** ** Retention policies *)







Lemma withStrategy_cons (strategy : string) (p : ptr) (l : list ptr) :
  withStrategy heap strategy (p :: l)
  = if bool_decide (label (heap p) WerfTagStrategyLabel = Some strategy)
    then p :: withStrategy heap strategy l
    else withStrategy heap strategy l.
Proof.
  unfold withStrategy. rewrite filter_cons.
  destruct (decide (label (heap p) WerfTagStrategyLabel = Some strategy)) as [H|H].
  - now rewrite bool_decide_eq_true_2.
  - now rewrite bool_decide_eq_false_2.
Qed.

(** The three lists of [repoImagesCleanupByPolicies] hold the images that
    carry each strategy label. *)
Lemma splitByScheme_withStrategy (images a b c : list ptr) :
  splitByScheme heap images (a, b, c)
  = (a ++ withStrategy heap GitTag images,
     b ++ withStrategy heap GitCommit images,
     c ++ withStrategy heap StagesSignature images).
Proof.
  revert a b c. induction images as [|p l IH]; intros a b c.
  - cbn. now rewrite !app_nil_r.
  - cbn [splitByScheme]. rewrite !withStrategy_cons.
    destruct (label (heap p) WerfTagStrategyLabel) as [strategy|] eqn:Hl.
    + destruct (String.eqb_spec strategy GitTag) as [->|Hn1].
      { rewrite IH, bool_decide_eq_true_2 by reflexivity.
        rewrite !bool_decide_eq_false_2 by discriminate.
        now rewrite <- app_assoc. }
      destruct (String.eqb_spec strategy GitCommit) as [->|Hn2].
      { rewrite IH, (bool_decide_eq_true_2 (Some GitCommit = Some GitCommit))
          by reflexivity.
        rewrite !bool_decide_eq_false_2 by discriminate.
        now rewrite <- app_assoc. }
      destruct (String.eqb_spec strategy StagesSignature) as [->|Hn3].
      { rewrite IH, (bool_decide_eq_true_2
                       (Some StagesSignature = Some StagesSignature))
          by reflexivity.
        rewrite !bool_decide_eq_false_2 by discriminate.
        now rewrite <- app_assoc. }
      rewrite IH, !bool_decide_eq_false_2 by congruence. reflexivity.
    + rewrite IH, !bool_decide_eq_false_2 by discriminate. reflexivity.
Qed.



(** ** What the cleanup without git history deletes *)

Section DeletesWithin.

Variable P : ptr -> Prop.

Lemma Forall_filter_list {A} (Q : A -> Prop) (R : A -> Prop)
    `{!forall x, Decision (R x)} (l : list A) :
  Forall Q l -> Forall Q (filter R l).
Proof.
  rewrite !Forall_forall. intros Hall x Hx.
  apply list_elem_of_filter in Hx as [_ Hx]. now apply Hall.
Qed.

Lemma Forall_exceptRepoImageList (l toExcept : list ptr) :
  Forall P l -> Forall P (exceptRepoImageList l toExcept).
Proof. apply Forall_filter_list. Qed.

Lemma dw_deleteAndExcept (dryRun : bool) (repoImages images : list ptr) :
  Forall P repoImages -> Forall P images ->
  deletesWithin P (deleteAndExcept env dryRun repoImages images) (Forall P).
Proof.
  intros Hr Hi. unfold deleteAndExcept. destruct images as [|q l].
  - now apply dw_ret.
  - eapply dw_bind; [apply dw_deleteRepoImages; exact Hi|].
    intros _ _. apply dw_ret. now apply Forall_exceptRepoImageList.
Qed.

Lemma nonexistentGitPrimitive_loop_Forall (localGit : option GitRepo)
    (gitTags gitBranches : list string) (repoImages : list ptr)
    (acc found : list ptr * list ptr * list ptr) :
  Forall P repoImages ->
  Forall P acc.1.1 /\ Forall P acc.1.2 /\ Forall P acc.2 ->
  nonexistentGitPrimitive_loop heap env localGit gitTags gitBranches repoImages acc
    = Ok found ->
  Forall P found.1.1 /\ Forall P found.1.2 /\ Forall P found.2.
Proof.
  revert acc. induction repoImages as [|q l IH]; intros [[a b] c] Hl Hacc.
  - cbn. now intros [= <-].
  - apply Forall_cons in Hl as [Hq Hl]. cbn in Hacc. destruct Hacc as (Ha & Hb & Hc).
    assert (Hq1 : Forall P [q]) by (now constructor).
    cbn [nonexistentGitPrimitive_loop].
    destruct (label (heap q) WerfTagStrategyLabel) as [strategy|];
      [|apply IH; cbn; auto].
    repeat match goal with
           | |- context [if ?b then _ else _] => destruct b
           | |- context [match ?r with Ok _ => _ | Err _ => _ | Panic _ => _ end] =>
               destruct r as [[|]| |]
           | |- context [match ?o with Some _ => _ | None => _ end] => destruct o
           end;
      try discriminate;
      apply IH; cbn; auto using Forall_app_2.
Qed.

Lemma dw_repoImagesCleanupByNonexistentGitPrimitive (m : imagesCleanupManager)
    (repoImages : list ptr) :
  Forall P repoImages ->
  deletesWithin P (repoImagesCleanupByNonexistentGitPrimitive heap env m repoImages)
    (Forall P).
Proof.
  intros Hr. unfold repoImagesCleanupByNonexistentGitPrimitive.
  eapply dw_bind; [apply dw_lift with (Q := fun _ => True); auto|].
  intros lists _.
  eapply dw_bind.
  { apply dw_lift with
      (Q := fun found : list ptr * list ptr * list ptr =>
              Forall P found.1.1 /\ Forall P found.1.2 /\ Forall P found.2).
    intros found Hfound.
    eapply nonexistentGitPrimitive_loop_Forall; [exact Hr| |exact Hfound].
    cbn. auto. }
  intros found (Ha & Hb & Hc).
  eapply dw_bind; [apply dw_deleteAndExcept; assumption|].
  intros r1 Hr1.
  eapply dw_bind; [apply dw_deleteAndExcept; assumption|].
  intros r2 Hr2. apply dw_deleteAndExcept; assumption.
Qed.

Lemma splitExpired_Forall (hasExpiry : bool) (expiryTime : Z)
    (images notExpired expired : list ptr) :
  Forall P images -> Forall P notExpired -> Forall P expired ->
  Forall P (splitExpired heap hasExpiry expiryTime images notExpired expired).1
  /\ Forall P (splitExpired heap hasExpiry expiryTime images notExpired expired).2.
Proof.
  revert notExpired expired.
  induction images as [|q l IH]; intros notExpired expired Hl Hn He.
  - cbn. auto.
  - apply Forall_cons in Hl as [Hq Hl]. cbn [splitExpired].
    destruct (hasExpiry && (createdAt heap q <? expiryTime));
      apply IH; auto using Forall_app_2.
Qed.

Lemma sliceTo_Forall (l excess : list ptr) (n : Z) :
  Forall P l -> sliceTo l n = Ok excess -> Forall P excess.
Proof.
  unfold sliceTo. intros Hl.
  destruct ((0 <=? n) && (n <=? Z.of_nat (length l))); [|discriminate].
  intros [= <-]. now apply Forall_take.
Qed.

Lemma dw_repoImagesCleanupByPolicy (m : imagesCleanupManager)
    (options : repoImagesCleanupByPolicyOptions)
    (repoImages repoImagesWithScheme : list ptr) :
  Forall P repoImages -> Forall P repoImagesWithScheme ->
  deletesWithin P
    (repoImagesCleanupByPolicy heap env m repoImages repoImagesWithScheme options)
    (Forall P).
Proof.
  intros Hr Hw. unfold repoImagesCleanupByPolicy.
  eapply dw_bind with (Q := fun _ => True).
  { destruct (hasExpiryPeriod options); [|now apply dw_ret].
    eapply dw_bind; [apply dw_now|]. intros t _. now apply dw_ret. }
  intros expiryTime _.
  assert (Hs : Forall P (sortByCreatedAt heap repoImagesWithScheme)).
  { rewrite sortByCreatedAt_perm. exact Hw. }
  destruct (splitExpired_Forall (hasExpiryPeriod options) expiryTime
              (sortByCreatedAt heap repoImagesWithScheme) [] [] Hs
              (Forall_nil_2 P) (Forall_nil_2 P)) as [Hne He].
  destruct (splitExpired heap (hasExpiryPeriod options) expiryTime
              (sortByCreatedAt heap repoImagesWithScheme) [] [])
    as [notExpired expired].
  cbn [fst snd] in Hne, He.
  eapply dw_bind; [apply dw_deleteAndExcept; assumption|].
  intros r1 Hr1.
  destruct (hasLimit options && (limit options <? Z.of_nat (length notExpired)));
    [|now apply dw_ret].
  eapply dw_bind.
  { apply dw_lift with (Q := Forall P). intros excess.
    now apply sliceTo_Forall. }
  intros excess Hex.
  eapply dw_bind; [apply dw_deleteRepoImages; exact Hex|].
  intros _ _. apply dw_ret. now apply Forall_exceptRepoImageList.
Qed.

Lemma dw_repoImagesCleanupByPolicies (m : imagesCleanupManager)
    (repoImages : list ptr) :
  Forall P repoImages ->
  deletesWithin P (repoImagesCleanupByPolicies heap env m repoImages) (Forall P).
Proof.
  intros Hr. unfold repoImagesCleanupByPolicies.
  rewrite splitByScheme_withStrategy. cbn [app].
  eapply dw_bind;
    [apply dw_repoImagesCleanupByPolicy;
     [exact Hr|now apply Forall_filter_list]|].
  intros r1 Hr1.
  eapply dw_bind;
    [apply dw_repoImagesCleanupByPolicy;
     [exact Hr1|now apply Forall_filter_list]|].
  intros r2 Hr2.
  apply dw_repoImagesCleanupByPolicy; [exact Hr2|now apply Forall_filter_list].
Qed.

Lemma MapAll_empty : MapAll P ∅.
Proof. intros k l H. rewrite lookup_empty in H. discriminate. Qed.

Lemma MapAll_insert (images : gmap string (list ptr)) (k : string) (l : list ptr) :
  MapAll P images -> Forall P l -> MapAll P (<[k := l]> images).
Proof.
  intros Hm Hl k' l' H. destruct (decide (k = k')) as [->|Hne].
  - rewrite lookup_insert_eq in H. now injection H as <-.
  - rewrite lookup_insert_ne in H by exact Hne. eapply Hm; eauto.
Qed.

Lemma MapAll_entry (images : gmap string (list ptr)) (entry : string * list ptr) :
  MapAll P images -> entry ∈ map_to_list images -> Forall P entry.2.
Proof.
  intros Hm Hin. destruct entry as [k l].
  apply elem_of_map_to_list in Hin. eapply Hm; eauto.
Qed.

Lemma MapAll_default (images : gmap string (list ptr)) (k : string) :
  MapAll P images -> Forall P (default [] (images !! k)).
Proof.
  intros Hm. destruct (images !! k) as [l|] eqn:E; cbn; [|constructor].
  eapply Hm; eauto.
Qed.

Lemma dw_repoImagesCleanup (m : imagesCleanupManager)
    (repoImagesToCleanup : gmap string (list ptr)) :
  MapAll P repoImagesToCleanup ->
  deletesWithin P (repoImagesCleanup heap env m repoImagesToCleanup) (MapAll P).
Proof.
  intros Hm. unfold repoImagesCleanup.
  apply dw_foldM; [apply MapAll_empty|].
  intros result [imageName l] Hin Hres. unfold repoImagesCleanup_step.
  pose proof (MapAll_entry _ _ Hm Hin) as Hl. cbn in Hl.
  eapply dw_bind;
    [apply dw_repoImagesCleanupByNonexistentGitPrimitive; exact Hl|].
  intros l1 Hl1.
  eapply dw_bind; [apply dw_repoImagesCleanupByPolicies; exact Hl1|].
  intros l2 Hl2. apply dw_ret. now apply MapAll_insert.
Qed.

(** *** The cleanup by git history *)

Lemma foldl_invariant {A S} (Inv : S -> Prop) (step : S -> A -> S)
    (l : list A) (s : S) :
  Inv s ->
  (forall s a, a ∈ l -> Inv s -> Inv (step s a)) ->
  Inv (foldl step s l).
Proof.
  revert s. induction l as [|a l IH]; intros s Hs Hstep; [exact Hs|].
  cbn. apply IH.
  - apply Hstep; [left|exact Hs].
  - intros s0 a0 Ha0. apply Hstep. now right.
Qed.

Lemma MapAll_groupByContentSignature (l : list ptr)
    (entries : list (Hash * ImageMetadata)) :
  Forall P l ->
  MapAll P (foldl (groupByContentSignature_step heap l) ∅ entries).
Proof.
  intros Hl. apply foldl_invariant; [apply MapAll_empty|].
  intros acc entry _ Hacc. unfold groupByContentSignature_step.
  destruct (acc !! ContentSignature entry.2); [exact Hacc|].
  apply MapAll_insert; [exact Hacc|]. now apply Forall_filter_list.
Qed.

Lemma MapMapAll_default (images : gmap string (gmap string (list ptr)))
    (k : string) :
  MapMapAll P images -> MapAll P (default ∅ (images !! k)).
Proof.
  intros Hm. destruct (images !! k) as [sm|] eqn:E; cbn; [|apply MapAll_empty].
  eapply Hm; eauto.
Qed.

Lemma MapMapAll_signatures (m : imagesCleanupManager)
    (repoImagesToCleanup : gmap string (list ptr)) :
  MapAll P repoImagesToCleanup ->
  MapMapAll P (getImageContentSignatureRepoImageListToCleanup heap m
               repoImagesToCleanup).
Proof.
  intros Hm. unfold getImageContentSignatureRepoImageListToCleanup.
  apply foldl_invariant.
  - intros k sm H. rewrite lookup_empty in H. discriminate.
  - intros acc entry Hin Hacc k sm H.
    destruct (decide (entry.1 = k)) as [<-|Hne].
    + rewrite lookup_insert_eq in H. injection H as <-.
      apply MapAll_groupByContentSignature. exact (MapAll_entry _ _ Hm Hin).
    + rewrite lookup_insert_ne in H by exact Hne. eapply Hacc; eauto.
Qed.

Lemma MapAll_withoutRelated
    (repoImagesToCleanup : gmap string (list ptr))
    (bySignature : gmap string (gmap string (list ptr))) :
  MapAll P repoImagesToCleanup ->
  MapAll P (getImageRepoImageListWithoutRelatedImageMetadata
              repoImagesToCleanup bySignature).
Proof.
  intros Hm. unfold getImageRepoImageListWithoutRelatedImageMetadata.
  apply foldl_invariant; [apply MapAll_empty|].
  intros acc entry Hin Hacc. apply MapAll_insert; [exact Hacc|].
  apply (foldl_invariant (Forall P)); [exact (MapAll_entry _ _ Hm Hin)|].
  intros l filtered _ Hl. now apply Forall_exceptRepoImageList.
Qed.

Lemma dw_emit_all (evs : list Event) :
  Forall (fun ev => deletedImages [ev] = []) evs ->
  deletesWithin P (foldM (fun _ ev => emit ev) evs tt) (fun _ => True).
Proof.
  intros Hevs. apply dw_foldM; [exact I|].
  intros [] ev Hin _. apply dw_emit.
  rewrite Forall_forall in Hevs. now apply Hevs.
Qed.

Lemma dw_withoutMetadata_step (m : imagesCleanupManager)
    (acc : gmap string (list ptr) * gmap string (list ptr))
    (entry : string * list ptr) :
  MapAll P acc.1 /\ MapAll P acc.2 -> Forall P entry.2 ->
  deletesWithin P (withoutMetadata_step m acc entry)
    (fun acc' => MapAll P acc'.1 /\ MapAll P acc'.2).
Proof.
  intros [H1 H2] He. destruct entry as [imageName repoImages].
  unfold withoutMetadata_step.
  destruct (GitHistoryBasedCleanupV12 m); [now apply dw_ret|].
  eapply dw_bind with (Q := fun _ => True).
  { destruct repoImages; [now apply dw_ret|].
    apply dw_emit_all. repeat constructor. }
  intros _ _. apply dw_ret. cbn [fst snd]. split.
  - apply MapAll_insert; [exact H1|].
    apply Forall_app_2; [now apply MapAll_default|exact He].
  - apply MapAll_insert; [exact H2|].
    apply Forall_exceptRepoImageList. now apply MapAll_default.
Qed.

Lemma reachedRepoImages_Forall (bySignature : gmap string (list ptr))
    (reached : list string) (keep kept : list ptr) :
  MapAll P bySignature -> Forall P keep ->
  reachedRepoImages bySignature reached keep = Ok kept -> Forall P kept.
Proof.
  intros Hm. revert keep. induction reached as [|sig reached IH]; intros keep Hk.
  - cbn. now intros [= <-].
  - cbn. destruct (bySignature !! sig) as [l|] eqn:E; [|discriminate].
    apply IH. apply Forall_app_2; [exact Hk|]. eapply Hm; eauto.
Qed.

Lemma dw_historyScan_step (m : imagesCleanupManager)
    (gitRepository : string) (referencesToScan : list string)
    (bySignature : gmap string (gmap string (list ptr)))
    (existing : gmap string (gmap string (list Hash)))
    (resultRepoImages : gmap string (list ptr)) (entry : string * list ptr) :
  MapMapAll P bySignature -> MapAll P resultRepoImages -> Forall P entry.2 ->
  deletesWithin P
    (historyScan_step env m gitRepository referencesToScan bySignature existing
       resultRepoImages entry)
    (MapAll P).
Proof.
  intros Hsig Hres He. destruct entry as [imageName l]. cbn in He.
  unfold historyScan_step.
  eapply dw_bind with
    (Q := fun scanned : gmap string (list ptr) * list ptr =>
            MapAll P scanned.1 /\ Forall P scanned.2).
  { destruct (bool_decide _).
    - eapply dw_bind; [apply dw_lift with (Q := fun _ => True); auto|].
      intros reached _.
      eapply dw_bind.
      { apply dw_lift with (Q := Forall P). intros kept.
        apply reachedRepoImages_Forall; [|constructor].
        now apply MapMapAll_default. }
      intros kept Hkept. apply dw_ret. cbn [fst snd]. split.
      + apply MapAll_insert; [exact Hres|].
        apply Forall_app_2; [now apply MapAll_default|exact Hkept].
      + now apply Forall_exceptRepoImageList.
    - eapply dw_bind; [now apply dw_emit|].
      intros _ _. apply dw_ret. now split. }
  intros scanned [Hs1 Hs2].
  eapply dw_bind; [apply dw_deleteRepoImages; exact Hs2|].
  intros _ _. now apply dw_ret.
Qed.

Lemma dw_rmImageCommit_step (m : imagesCleanupManager) (imageName : string)
    (commitHash : Hash) :
  deletesWithin P (rmImageCommit_step env m imageName tt commitHash)
    (fun _ => True).
Proof.
  unfold rmImageCommit_step. destruct (DryRun m); [now apply dw_emit|].
  eapply dw_bind; [apply dw_tryCall; constructor|].
  intros [e|] _; [now apply dw_emit|now apply dw_ret].
Qed.

Lemma dw_deleteUnusedImagesMetadata (m : imagesCleanupManager)
    (resultRepoImages : gmap string (list ptr)) :
  deletesWithin P (deleteUnusedImagesMetadata heap env m resultRepoImages)
    (fun _ => True).
Proof.
  unfold deleteUnusedImagesMetadata. apply dw_foldM; [exact I|].
  intros [] entry _ _. apply dw_foldM; [exact I|].
  intros [] commitHash _ _. apply dw_rmImageCommit_step.
Qed.

Lemma dw_repoImagesGitHistoryBasedCleanup (m : imagesCleanupManager)
    (repoImagesToCleanup : gmap string (list ptr)) :
  MapAll P repoImagesToCleanup ->
  deletesWithin P (repoImagesGitHistoryBasedCleanup heap env m repoImagesToCleanup)
    (MapAll P).
Proof.
  intros Hm. unfold repoImagesGitHistoryBasedCleanup.
  eapply dw_bind; [apply dw_lift with (Q := fun _ => True); auto|].
  intros gitRepository _.
  eapply dw_bind; [apply dw_lift with (Q := fun _ => True); auto|].
  intros referencesToScan _.
  eapply dw_bind; [apply dw_lift with (Q := fun _ => True); auto|].
  intros existing _.
  pose proof (MapMapAll_signatures m _ Hm) as Hsig.
  eapply dw_bind.
  { apply dw_foldM with
      (Inv := fun acc : gmap string (list ptr) * gmap string (list ptr) =>
                MapAll P acc.1 /\ MapAll P acc.2).
    - split; [apply MapAll_empty|exact Hm].
    - intros acc entry Hin Hacc. apply dw_withoutMetadata_step; [exact Hacc|].
      exact (MapAll_entry _ _ (MapAll_withoutRelated _ _ Hm) Hin). }
  intros st [Hst1 Hst2].
  eapply dw_bind.
  { apply dw_foldM with (Inv := MapAll P); [exact Hst1|].
    intros res entry Hin Hres. apply dw_historyScan_step; auto.
    exact (MapAll_entry _ _ Hst2 Hin). }
  intros res Hres.
  eapply dw_bind; [apply dw_deleteUnusedImagesMetadata|].
  intros _ _. now apply dw_ret.
Qed.

End DeletesWithin.

(** ** Images in use in Kubernetes *)

Section Whitelist.

Variable deployed : list string.

Let inUse (p : ptr) : Prop := dockerImageName heap p ∈ deployed.

Lemma exceptByWhitelist_loop_filter (imageName : string)
    (l newRepoImages : list ptr) (excepted : gmap string (list ptr)) :
  exceptByWhitelist_loop heap deployed imageName l newRepoImages excepted
  = (newRepoImages ++ filter (fun p => ¬ inUse p) l,
     match filter inUse l with
     | [] => excepted
     | used => <[imageName := default [] (excepted !! imageName) ++ used]> excepted
     end).
Proof.
  revert newRepoImages excepted.
  induction l as [|p l IH]; intros newRepoImages excepted.
  - cbn. now rewrite app_nil_r.
  - cbn [exceptByWhitelist_loop]. rewrite !filter_cons.
    destruct (decide (inUse p)) as [Hp|Hp].
    + rewrite bool_decide_eq_true_2 by exact Hp.
      rewrite decide_False by (intros H; now apply H).
      rewrite IH. f_equal. rewrite lookup_insert_eq. cbn [default from_option id].
      destruct (filter inUse l) as [|q used]; [reflexivity|].
      rewrite insert_insert_eq, <- app_assoc. reflexivity.
    + rewrite bool_decide_eq_false_2 by exact Hp.
      rewrite decide_True by exact Hp.
      rewrite IH, <- app_assoc. reflexivity.
Qed.

Lemma exceptByWhitelist_candidates (repoImages : gmap string (list ptr))
    (imageName : string) :
  (foldl (exceptByWhitelist_step heap deployed) (repoImages, ∅)
         (map_to_list repoImages)).1 !! imageName
  = filter (fun p => ¬ inUse p) <$> repoImages !! imageName.
Proof.
  rewrite (foldl_map_to_list
             (fun s : gmap string (list ptr) * gmap string (list ptr) => fun k => s.1 !! k)
             (exceptByWhitelist_step heap deployed)
             (fun _ l _ => Some (filter (fun p => ¬ inUse p) l))).
  - cbn [fst]. now destruct (repoImages !! imageName).
  - intros [ri ex] k v. unfold exceptByWhitelist_step.
    rewrite exceptByWhitelist_loop_filter. cbn [fst app].
    apply lookup_insert_eq.
  - intros [ri ex] k v k' Hne. unfold exceptByWhitelist_step.
    rewrite exceptByWhitelist_loop_filter. cbn [fst].
    now apply lookup_insert_ne.
Qed.

Lemma exceptByWhitelist_excepted (repoImages : gmap string (list ptr))
    (imageName : string) (l : list ptr) (p : ptr) :
  repoImages !! imageName = Some l -> p ∈ l -> inUse p ->
  exists used,
    (foldl (exceptByWhitelist_step heap deployed) (repoImages, ∅)
           (map_to_list repoImages)).2 !! imageName = Some used
    /\ p ∈ used.
Proof.
  intros Hl Hp Huse.
  rewrite (foldl_map_to_list
             (fun s : gmap string (list ptr) * gmap string (list ptr) => fun k => s.2 !! k)
             (exceptByWhitelist_step heap deployed)
             (fun _ l x => match filter inUse l with
                           | [] => x
                           | used => Some (default [] x ++ used)
                           end)).
  - rewrite Hl. cbn [snd]. rewrite lookup_empty. cbn [default app].
    assert (Hin : p ∈ filter inUse l) by (apply list_elem_of_filter; now split).
    destruct (filter inUse l) as [|q used]; [inversion Hin|].
    eexists. split; [reflexivity|exact Hin].
  - intros [ri ex] k v. unfold exceptByWhitelist_step.
    rewrite exceptByWhitelist_loop_filter. cbn [snd].
    destruct (filter inUse v); [reflexivity|apply lookup_insert_eq].
  - intros [ri ex] k v k' Hne. unfold exceptByWhitelist_step.
    rewrite exceptByWhitelist_loop_filter. cbn [snd].
    destruct (filter inUse v); [reflexivity|now apply lookup_insert_ne].
Qed.

Lemma exceptByWhitelist_MapAll (repoImages : gmap string (list ptr)) :
  MapAll (fun p => ¬ inUse p)
    (foldl (exceptByWhitelist_step heap deployed) (repoImages, ∅)
           (map_to_list repoImages)).1.
Proof.
  intros k l Hk. rewrite exceptByWhitelist_candidates in Hk.
  destruct (repoImages !! k) as [l0|]; [|discriminate].
  injection Hk as <-. apply Forall_forall. intros p Hp.
  now apply list_elem_of_filter in Hp as [Hp _].
Qed.

End Whitelist.

Lemma mergeExcepted_lookup (resultRepoImages excepted : gmap string (list ptr))
    (imageName : string) :
  foldl mergeExcepted_step resultRepoImages (map_to_list excepted) !! imageName
  = match excepted !! imageName with
    | Some l => Some (default [] (resultRepoImages !! imageName) ++ l)
    | None => resultRepoImages !! imageName
    end.
Proof.
  apply (foldl_map_to_list
           (fun s : gmap string (list ptr) => fun k => s !! k)
           mergeExcepted_step
           (fun _ l x => Some (default [] x ++ l))).
  - intros res k v. unfold mergeExcepted_step. cbn [fst snd].
    destruct (res !! k); apply lookup_insert_eq.
  - intros res k v k' Hne. unfold mergeExcepted_step. cbn [fst snd].
    destruct (res !! k); now apply lookup_insert_ne.
Qed.

Lemma initRepoImagesData_fetch (m : imagesCleanupManager) (tr : Trace) :
  exists r,
    initRepoImagesData env m tr = (r, tr)
    /\ forall m1,
        r = Ok m1 ->
        selectRepoImagesFromImagesRepo env (ImageNameList m)
          = Ok (imageRepoImageList m1)
        /\ LocalGit m1 = LocalGit m
        /\ WithoutKube m1 = WithoutKube m
        /\ KubernetesContextsClients m1 = KubernetesContextsClients m.
Proof.
  unfold initRepoImagesData, bind, lift, ret.
  destruct (selectRepoImagesFromImagesRepo env (ImageNameList m)) as [ri|e|p];
    [|eexists; split; [reflexivity|discriminate]..].
  cbn [GitHistoryBasedCleanup GitHistoryBasedCleanupV12 setImageRepoImageList
       ImageNameList].
  destruct (GitHistoryBasedCleanup m || GitHistoryBasedCleanupV12 m).
  - destruct (initImageCommitHashImageMetadata_loop env (ImageNameList m) ∅);
      eexists; (split; [reflexivity|]); try discriminate.
    intros m1 [= <-]. repeat split.
  - eexists. split; [reflexivity|]. intros m1 [= <-]. repeat split.
Qed.

Lemma dw_initRepoImagesData (P : ptr -> Prop) (m : imagesCleanupManager) :
  deletesWithin P (initRepoImagesData env m)
    (fun m1 =>
       selectRepoImagesFromImagesRepo env (ImageNameList m)
         = Ok (imageRepoImageList m1)
       /\ LocalGit m1 = LocalGit m
       /\ WithoutKube m1 = WithoutKube m
       /\ KubernetesContextsClients m1 = KubernetesContextsClients m).
Proof.
  intros tr. destruct (initRepoImagesData_fetch m tr) as (r & Hinit & Hr).
  exists []. rewrite Hinit. cbn [fst snd]. rewrite app_nil_r.
  split; [reflexivity|]. split; [constructor|exact Hr].
Qed.

(** C1: when the Kubernetes probe is enabled and returns the deployed
    docker image names, no image whose [Repository:Tag] is among them is
    in any deletion the cleanup run asks for, whatever the collaborators
    answer and in both cleanup modes; and when the run succeeds, every
    such image of the fetched repo images is, under its image name, in
    the image list the run leaves in the manager. *)
Theorem deployed_images_survive (m : imagesCleanupManager) (tr : Trace)
    (deployed : list string) :
  WithoutKube m = false ->
  getDeployedDockerImagesNames (KubernetesContextsClients m) = Ok deployed ->
  (exists evs,
      (imagesCleanup_run heap env m tr).2 = tr ++ evs
      /\ forall p, p ∈ deletedImages evs -> dockerImageName heap p ∉ deployed)
  /\ (forall m' fetched imageName images p,
        (imagesCleanup_run heap env m tr).1 = Ok m' ->
        selectRepoImagesFromImagesRepo env (ImageNameList m) = Ok fetched ->
        fetched !! imageName = Some images ->
        p ∈ images ->
        dockerImageName heap p ∈ deployed ->
        exists images',
          imageRepoImageList m' !! imageName = Some images' /\ p ∈ images').
Proof.
  intros Hkube Hdeployed. split.
  - assert (Hdw : deletesWithin (fun p => dockerImageName heap p ∉ deployed)
                    (imagesCleanup_run heap env m) (fun _ => True)).
    { unfold imagesCleanup_run. apply dw_WithHostLock.
      eapply dw_bind; [apply dw_initRepoImagesData|].
      intros m1 (Hsel & Hgit & Hk & Hclients).
      destruct (LocalGit m1) as [git|].
      - rewrite Hk, Hkube, Hclients. cbn [negb].
        eapply dw_bind with
          (Q := fun split : gmap string (list ptr) * gmap string (list ptr) =>
                  MapAll (fun p => dockerImageName heap p ∉ deployed) split.1).
        { unfold exceptRepoImagesByWhitelist. rewrite Hdeployed.
          eapply dw_bind; [apply dw_lift with (Q := fun d => d = deployed)|].
          - now intros d [= <-].
          - intros d ->. apply dw_ret. apply exceptByWhitelist_MapAll. }
        intros split Hsplit.
        eapply dw_bind with (Q := fun _ => True).
        { destruct (GitHistoryBasedCleanup m1 || GitHistoryBasedCleanupV12 m1).
          - eapply dw_weaken;
              [apply dw_repoImagesGitHistoryBasedCleanup; exact Hsplit|auto].
          - eapply dw_weaken; [apply dw_repoImagesCleanup; exact Hsplit|auto]. }
        intros result _. now apply dw_ret.
      - eapply dw_bind; [now apply dw_emit|]. intros _ _. now apply dw_ret. }
    destruct (Hdw tr) as (evs & Htr & Hdel & _).
    exists evs. split; [exact Htr|].
    intros p Hp. rewrite Forall_forall in Hdel. now apply Hdel.
  - intros m' fetched imageName images p Hok Hsel Himages Hp Huse.
    unfold imagesCleanup_run, WithHostLock in Hok.
    destruct (acquireHostLock env tr _); [discriminate|].
    set (tr1 := tr ++ [EvHostLockAcquire ("images-cleanup." +:+ ImagesRepoString m)])
      in Hok.
    destruct (initRepoImagesData_fetch m tr1) as (r & Hinit & Hr).
    unfold bind at 1 in Hok. rewrite Hinit in Hok.
    destruct r as [m1|e|e]; [|discriminate..].
    destruct (Hr m1 eq_refl) as (Hsel1 & Hgit & Hk & Hclients).
    rewrite Hsel in Hsel1. injection Hsel1 as Hfetched.
    destruct (LocalGit m1) as [git|].
    + rewrite Hk, Hkube, Hclients in Hok. cbn [negb] in Hok.
      unfold exceptRepoImagesByWhitelist in Hok. rewrite Hdeployed in Hok.
      unfold bind at 1 in Hok. unfold bind at 1 in Hok.
      unfold lift at 1, ret at 1 in Hok.
      match type of Hok with
      | context [bind ?c ?f tr1] =>
          destruct (bind c f tr1) as [r' tr'] eqn:Hbind
      end.
      cbn [fst] in Hok. subst r'.
      apply bind_Ok_inv in Hbind as (result & tr3 & _ & Hret).
      unfold ret in Hret. injection Hret as <- _.
      cbn [imageRepoImageList setImageRepoImageList fst snd].
      rewrite mergeExcepted_lookup. rewrite <- Hfetched.
      destruct (exceptByWhitelist_excepted deployed fetched imageName images p
                  Himages Hp Huse) as (used & Hused & Hin).
      rewrite Hused. eexists. split; [reflexivity|].
      apply elem_of_app. now right.
    + unfold bind, emit, ret in Hok. cbn [fst] in Hok. injection Hok as <-.
      rewrite <- Hfetched. eauto.
Qed.

(** ** Images without related image metadata *)

Section GitHistory.

Variable m : imagesCleanupManager.

Lemma groupByContentSignature_related (imageName : string) (l : list ptr) :
  MapAll (fun q => q ∈ l /\ relatedMetadata heap m imageName q)
    (foldl (groupByContentSignature_step heap l) ∅
           (map_to_list (metadataOf m imageName))).
Proof.
  apply (foldl_invariant
           (MapAll (fun q => q ∈ l /\ relatedMetadata heap m imageName q)));
    [apply MapAll_empty|].
  intros acc [commitHash imageMetadata] Hin Hacc.
  unfold groupByContentSignature_step. cbn [snd].
  destruct (acc !! ContentSignature imageMetadata); [exact Hacc|].
  apply MapAll_insert; [exact Hacc|].
  apply Forall_forall. intros q Hq.
  apply list_elem_of_filter in Hq as [Hcs Hq]. split; [exact Hq|].
  exists commitHash, imageMetadata. split; [|exact Hcs].
  now apply elem_of_map_to_list.
Qed.

(** The images grouped under an image name are images to clean up of
    that name, with related metadata. *)
Lemma signatures_related (repoImagesToCleanup : gmap string (list ptr))
    (imageName : string) :
  MapAll (fun q => q ∈ default [] (repoImagesToCleanup !! imageName)
                   /\ relatedMetadata heap m imageName q)
    (default ∅ (getImageContentSignatureRepoImageListToCleanup heap m
                  repoImagesToCleanup !! imageName)).
Proof.
  unfold getImageContentSignatureRepoImageListToCleanup.
  rewrite (foldl_map_to_list
             (fun s : gmap string (gmap string (list ptr)) => fun k => s !! k)
             _ (fun k l _ => Some (foldl (groupByContentSignature_step heap l) ∅
                                     (map_to_list (metadataOf m k))))).
  - rewrite lookup_empty.
    destruct (repoImagesToCleanup !! imageName) as [l|]; cbn [default from_option id].
    + apply groupByContentSignature_related.
    + apply MapAll_empty.
  - intros acc k v. cbn [fst snd]. apply lookup_insert_eq.
  - intros acc k v k' Hne. cbn [fst snd]. now apply lookup_insert_ne.
Qed.

Lemma foldl_except_elem_of {A} (filtered : list (A * list ptr)) (l : list ptr)
    (p : ptr) :
  p ∈ foldl (fun unused f => exceptRepoImageList unused f.2) l filtered
  <-> p ∈ l /\ forall f, f ∈ filtered -> p ∉ f.2.
Proof.
  revert l. induction filtered as [|f filtered IH]; intros l; cbn [foldl].
  - split; [intros H; split; [exact H|]; intros f Hf; inversion Hf|tauto].
  - rewrite IH, exceptRepoImageList_elem_of. split.
    + intros [[Hl Hf] Hrest]. split; [exact Hl|].
      intros f' Hf'. apply elem_of_cons in Hf' as [->|Hf']; auto.
    + intros [Hl Hall]. split; [split; [exact Hl|]|].
      * apply Hall. left.
      * intros f' Hf'. apply Hall. now right.
Qed.

Lemma withoutRelated_lookup (repoImagesToCleanup : gmap string (list ptr))
    (bySignature : gmap string (gmap string (list ptr))) (imageName : string) :
  getImageRepoImageListWithoutRelatedImageMetadata repoImagesToCleanup bySignature
    !! imageName
  = (fun l => foldl (fun unused f => exceptRepoImageList unused f.2) l
                (map_to_list (default ∅ (bySignature !! imageName))))
      <$> repoImagesToCleanup !! imageName.
Proof.
  unfold getImageRepoImageListWithoutRelatedImageMetadata.
  rewrite (foldl_map_to_list
             (fun s : gmap string (list ptr) => fun k => s !! k)
             _ (fun k l _ =>
                  Some (foldl (fun unused f => exceptRepoImageList unused f.2) l
                          (map_to_list (default ∅ (bySignature !! k)))))).
  - rewrite lookup_empty. now destruct (repoImagesToCleanup !! imageName).
  - intros acc k v. cbn [fst snd]. apply lookup_insert_eq.
  - intros acc k v k' Hne. cbn [fst snd]. now apply lookup_insert_ne.
Qed.

(** An image to clean up is without related metadata exactly when the
    engine lists it so. *)
Lemma withoutRelated_elem_of (repoImagesToCleanup : gmap string (list ptr))
    (imageName : string) (l : list ptr) (p : ptr) :
  repoImagesToCleanup !! imageName = Some l ->
  p ∈ l ->
  withoutRelatedMetadata heap m imageName p ->
  exists without,
    getImageRepoImageListWithoutRelatedImageMetadata repoImagesToCleanup
      (getImageContentSignatureRepoImageListToCleanup heap m repoImagesToCleanup)
      !! imageName = Some without
    /\ p ∈ without.
Proof.
  intros Hl Hp Hwithout. rewrite withoutRelated_lookup, Hl. cbn [fmap option_fmap option_map].
  eexists. split; [reflexivity|].
  apply foldl_except_elem_of. split; [exact Hp|].
  intros [sig lst] Hin Hplst. apply elem_of_map_to_list in Hin.
  pose proof (signatures_related repoImagesToCleanup imageName sig lst Hin) as Hall.
  rewrite Forall_forall in Hall. destruct (Hall p Hplst) as [_ Hrel].
  destruct Hrel as (commitHash & imageMetadata & Hmd & Hcs).
  exact (Hwithout commitHash imageMetadata Hmd Hcs).
Qed.

(** *** The loop over the images without related metadata *)

Lemma withoutMetadata_step_saved (entry : string * list ptr)
    (acc : gmap string (list ptr) * gmap string (list ptr)) (tr : Trace) :
  GitHistoryBasedCleanupV12 m = false ->
  withoutMetadata_step m acc entry tr
  = (Ok (withoutMetadata_saved acc entry),
     tr ++ match entry.2 with
           | [] => []
           | _ => warnTagsWithoutMetadata
           end).
Proof.
  intros Hv12. destruct entry as [imageName repoImages].
  unfold withoutMetadata_step. rewrite Hv12.
  destruct repoImages as [|q l]; cbn [snd].
  - unfold bind, ret, withoutMetadata_saved. cbn [fst snd].
    now rewrite (app_nil_r tr).
  - unfold bind, ret. cbn [warnTagsWithoutMetadata foldM]. unfold bind, emit, ret.
    now rewrite <- !app_assoc.
Qed.

Lemma withoutMetadata_loop_saved (entries : list (string * list ptr))
    (acc : gmap string (list ptr) * gmap string (list ptr)) (tr : Trace) :
  GitHistoryBasedCleanupV12 m = false ->
  foldM (withoutMetadata_step m) entries acc tr
  = (Ok (foldl withoutMetadata_saved acc entries),
     tr ++ withoutMetadata_warnings entries).
Proof.
  intros Hv12. revert acc tr.
  induction entries as [|entry entries IH]; intros acc tr.
  - cbn. unfold ret. now rewrite app_nil_r.
  - cbn [foldM foldl withoutMetadata_warnings flat_map].
    unfold bind at 1. rewrite (withoutMetadata_step_saved _ _ _ Hv12), IH.
    unfold withoutMetadata_warnings. now rewrite <- app_assoc.
Qed.

Lemma withoutMetadata_loop_v12 (entries : list (string * list ptr))
    (acc : gmap string (list ptr) * gmap string (list ptr)) (tr : Trace) :
  GitHistoryBasedCleanupV12 m = true ->
  foldM (withoutMetadata_step m) entries acc tr = (Ok acc, tr).
Proof.
  intros Hv12. revert tr. induction entries as [|[imageName repoImages] entries IH];
    intros tr; [reflexivity|].
  cbn [foldM]. unfold bind at 1.
  assert (Hstep : withoutMetadata_step m acc (imageName, repoImages) tr
                  = (Ok acc, tr)).
  { unfold withoutMetadata_step. now rewrite Hv12. }
  rewrite Hstep. apply IH.
Qed.

Lemma saved_result_lookup (without repoImagesToCleanup : gmap string (list ptr))
    (imageName : string) :
  (foldl withoutMetadata_saved (∅, repoImagesToCleanup) (map_to_list without)).1
    !! imageName
  = without !! imageName.
Proof.
  rewrite (foldl_map_to_list
             (fun s : gmap string (list ptr) * gmap string (list ptr) =>
                fun k => s.1 !! k)
             withoutMetadata_saved (fun _ l x => Some (default [] x ++ l))).
  - cbn [fst]. rewrite lookup_empty. now destruct (without !! imageName).
  - intros acc k v. cbn [withoutMetadata_saved fst snd]. apply lookup_insert_eq.
  - intros acc k v k' Hne. cbn [withoutMetadata_saved fst snd].
    now apply lookup_insert_ne.
Qed.

Lemma saved_candidates_lookup (without repoImagesToCleanup : gmap string (list ptr))
    (imageName : string) :
  (foldl withoutMetadata_saved (∅, repoImagesToCleanup) (map_to_list without)).2
    !! imageName
  = match without !! imageName with
    | Some l =>
        Some (exceptRepoImageList
                (default [] (repoImagesToCleanup !! imageName)) l)
    | None => repoImagesToCleanup !! imageName
    end.
Proof.
  apply (foldl_map_to_list
           (fun s : gmap string (list ptr) * gmap string (list ptr) =>
              fun k => s.2 !! k)
           withoutMetadata_saved
           (fun _ l x => Some (exceptRepoImageList (default [] x) l))).
  - intros acc k v. cbn [withoutMetadata_saved fst snd]. apply lookup_insert_eq.
  - intros acc k v k' Hne. cbn [withoutMetadata_saved fst snd].
    now apply lookup_insert_ne.
Qed.

Section OneImage.

Variable repoImagesToCleanup : gmap string (list ptr).
Variable p : ptr.

(** Wherever [p] is an image to clean up, it has no related metadata. *)
Hypothesis p_without :
  forall imageName l,
    repoImagesToCleanup !! imageName = Some l -> p ∈ l ->
    withoutRelatedMetadata heap m imageName p.

Let bySignature :=
  getImageContentSignatureRepoImageListToCleanup heap m repoImagesToCleanup.
Let without :=
  getImageRepoImageListWithoutRelatedImageMetadata repoImagesToCleanup bySignature.

Lemma signatures_exclude : MapMapAll (fun q => q <> p) bySignature.
Proof.
  intros imageName sm Hsm sig lst Hlst. apply Forall_forall. intros q Hq ->.
  pose proof (signatures_related repoImagesToCleanup imageName sig lst) as Hall.
  fold bySignature in Hall. rewrite Hsm in Hall.
  specialize (Hall Hlst). rewrite Forall_forall in Hall.
  destruct (Hall p Hq) as [Hin (commitHash & imageMetadata & Hmd & Hcs)].
  destruct (repoImagesToCleanup !! imageName) as [l|] eqn:El;
    [|inversion Hin].
  exact (p_without imageName l El Hin commitHash imageMetadata Hmd Hcs).
Qed.

Lemma saved_candidates_exclude :
  MapAll (fun q => q <> p)
    (foldl withoutMetadata_saved (∅, repoImagesToCleanup)
           (map_to_list without)).2.
Proof.
  intros imageName l Hl. rewrite saved_candidates_lookup in Hl.
  apply Forall_forall. intros q Hq ->.
  destruct (repoImagesToCleanup !! imageName) as [l0|] eqn:El.
  - destruct (without !! imageName) as [w|] eqn:Ew.
    + injection Hl as <-. apply exceptRepoImageList_elem_of in Hq as [Hin Hnot].
      cbn in Hin.
      destruct (withoutRelated_elem_of repoImagesToCleanup imageName l0 p El Hin
                  (p_without imageName l0 El Hin)) as (w' & Hw' & Hpw').
      fold bySignature in Hw'. fold without in Hw'.
      rewrite Ew in Hw'. injection Hw' as <-. contradiction.
    + unfold without in Ew. rewrite withoutRelated_lookup, El in Ew. discriminate.
  - destruct (without !! imageName) as [w|] eqn:Ew; [|discriminate].
    unfold without in Ew. rewrite withoutRelated_lookup, El in Ew. discriminate.
Qed.

Lemma saved_result_holds (imageName : string) (l : list ptr) :
  repoImagesToCleanup !! imageName = Some l -> p ∈ l ->
  p ∈ default [] ((foldl withoutMetadata_saved (∅, repoImagesToCleanup)
                         (map_to_list without)).1 !! imageName)
  /\ exists w q, (imageName, q :: w) ∈ map_to_list without.
Proof.
  intros El Hin. rewrite saved_result_lookup.
  destruct (withoutRelated_elem_of repoImagesToCleanup imageName l p El Hin
              (p_without imageName l El Hin)) as (w & Hw & Hpw).
  fold bySignature in Hw. fold without in Hw. rewrite Hw. split; [exact Hpw|].
  destruct w as [|q w]; [inversion Hpw|].
  exists w, q. now apply elem_of_map_to_list.
Qed.

End OneImage.

(** *** The loop that scans the history and deletes *)

Lemma lift_Ok_inv {A} (r : result A) (tr tr' : Trace) (a : A) :
  lift r tr = (Ok a, tr') -> r = Ok a /\ tr' = tr.
Proof. unfold lift. now intros [= -> ->]. Qed.

Lemma deleteRepoImages_trace (dryRun : bool) (images : list ptr) (tr : Trace) :
  (deleteRepoImages env dryRun images tr).2
  = tr ++ [EvDeleteRepoImages dryRun images].
Proof.
  unfold deleteRepoImages, call, bind, tryCall, lift, ret.
  now destruct (deleteRepoImageInImagesRepo env tr dryRun images).
Qed.

(** A round that succeeds asks to delete every image of its entry that
    is in none of the lists grouped by signature. *)
Lemma historyScan_step_deleted (gitRepository : string)
    (referencesToScan : list string)
    (bySignature : gmap string (gmap string (list ptr)))
    (existing : gmap string (gmap string (list Hash)))
    (res res' : gmap string (list ptr)) (imageName : string) (l : list ptr)
    (tr tr' : Trace) (p : ptr) :
  historyScan_step env m gitRepository referencesToScan bySignature existing
    res (imageName, l) tr = (Ok res', tr') ->
  p ∈ l ->
  MapAll (fun q => q <> p) (default ∅ (bySignature !! imageName)) ->
  exists evs, tr' = tr ++ evs /\ p ∈ deletedImages evs.
Proof.
  intros Hstep Hp Hsig. unfold historyScan_step in Hstep.
  apply bind_Ok_inv in Hstep as (scanned & trA & Hscan & Hstep).
  apply bind_Ok_inv in Hstep as ([] & trB & Hdel & Hret).
  unfold ret in Hret. injection Hret as _ <-.
  pose proof (deleteRepoImages_trace (DryRun m) scanned.2 trA) as HtrB.
  rewrite Hdel in HtrB. cbn [snd] in HtrB.
  assert (Hscanned : (exists evsA, trA = tr ++ evsA) /\ p ∈ scanned.2).
  { destruct (bool_decide _).
    - apply bind_Ok_inv in Hscan as (reached & tr1 & Hreached & Hscan).
      apply lift_Ok_inv in Hreached as [_ ->].
      apply bind_Ok_inv in Hscan as (keep & tr2 & Hkeep & Hscan).
      apply lift_Ok_inv in Hkeep as [Hkeep ->].
      unfold ret in Hscan. injection Hscan as <- <-. cbn [snd]. split.
      + exists []. now rewrite app_nil_r.
      + apply exceptRepoImageList_elem_of. split; [exact Hp|].
        pose proof (reachedRepoImages_Forall (fun q => q <> p) _ _ _ _ Hsig
                      (Forall_nil_2 _) Hkeep) as Hall.
        rewrite Forall_forall in Hall. intros Hin. now apply (Hall p Hin).
    - unfold bind, emit, ret in Hscan. injection Hscan as <- <-. cbn [snd].
      split; [eauto|exact Hp]. }
  destruct Hscanned as [[evsA ->] Hin].
  exists (evsA ++ [EvDeleteRepoImages (DryRun m) scanned.2]).
  split; [now rewrite HtrB, app_assoc|].
  rewrite deletedImages_app. apply elem_of_app. right.
  unfold deletedImages. cbn. now rewrite app_nil_r.
Qed.

(** A round keeps what the result holds, and deletes images of its
    entry only. *)
Lemma dw_historyScan_step_grows (P : ptr -> Prop) (gitRepository : string)
    (referencesToScan : list string)
    (bySignature : gmap string (gmap string (list ptr)))
    (existing : gmap string (gmap string (list Hash)))
    (res : gmap string (list ptr)) (entry : string * list ptr) :
  Forall P entry.2 ->
  deletesWithin P
    (historyScan_step env m gitRepository referencesToScan bySignature existing
       res entry)
    (fun res' => forall k q, q ∈ default [] (res !! k) -> q ∈ default [] (res' !! k)).
Proof.
  intros He. destruct entry as [imageName l]. cbn in He.
  unfold historyScan_step.
  eapply dw_bind with
    (Q := fun scanned : gmap string (list ptr) * list ptr =>
            (forall k q, q ∈ default [] (res !! k)
                         -> q ∈ default [] (scanned.1 !! k))
            /\ Forall P scanned.2).
  { destruct (bool_decide _).
    - eapply dw_bind; [apply dw_lift with (Q := fun _ => True); auto|].
      intros reached _.
      eapply dw_bind; [apply dw_lift with (Q := fun _ => True); auto|].
      intros kept _. apply dw_ret. cbn [fst snd]. split.
      + intros k q Hq. destruct (decide (imageName = k)) as [->|Hne].
        * rewrite lookup_insert_eq. cbn. apply elem_of_app. now left.
        * now rewrite lookup_insert_ne.
      + now apply Forall_exceptRepoImageList.
    - eapply dw_bind; [now apply dw_emit|].
      intros _ _. apply dw_ret. now split. }
  intros scanned [Hs1 Hs2].
  eapply dw_bind; [apply dw_deleteRepoImages; exact Hs2|].
  intros _ _. now apply dw_ret.
Qed.

Lemma foldM_extends {A S} (f : S -> A -> M S) (l : list A) (s : S) (tr : Trace) :
  (forall s a tr, exists evs, (f s a tr).2 = tr ++ evs) ->
  exists evs, (foldM f l s tr).2 = tr ++ evs.
Proof.
  intros Hext. revert s tr. induction l as [|a l IH]; intros s tr.
  - exists []. cbn. now rewrite app_nil_r.
  - cbn [foldM]. unfold bind. destruct (Hext s a tr) as (evs1 & H1).
    destruct (f s a tr) as [[s1|e|e] tr1]; cbn [snd] in H1; subst tr1;
      [|eauto..].
    destruct (IH s1 (tr ++ evs1)) as (evs2 & H2).
    exists (evs1 ++ evs2). now rewrite H2, app_assoc.
Qed.

(** In a loop that succeeds, every round succeeded, and what it wrote is
    part of the trace. *)
Lemma foldM_Ok_elem {A S} (f : S -> A -> M S) (l : list A) (a : A)
    (s s' : S) (tr tr' : Trace) :
  (forall s a tr, exists evs, (f s a tr).2 = tr ++ evs) ->
  foldM f l s tr = (Ok s', tr') ->
  a ∈ l ->
  exists s1 s2 pre evs post,
    f s1 a (tr ++ pre) = (Ok s2, (tr ++ pre) ++ evs)
    /\ tr' = ((tr ++ pre) ++ evs) ++ post.
Proof.
  intros Hext. revert s tr. induction l as [|a0 l IH]; intros s tr Hfold Hin.
  - inversion Hin.
  - cbn [foldM] in Hfold.
    apply bind_Ok_inv in Hfold as (s1 & tr1 & Hstep & Hfold).
    destruct (Hext s a0 tr) as (evs0 & H0). rewrite Hstep in H0.
    cbn [snd] in H0. subst tr1.
    apply elem_of_cons in Hin as [->|Hin].
    + destruct (foldM_extends f l s1 (tr ++ evs0) Hext) as (post & Hpost).
      rewrite Hfold in Hpost. cbn [snd] in Hpost.
      exists s, s1, [], evs0, post. rewrite app_nil_r. now split.
    + destruct (IH s1 (tr ++ evs0) Hfold Hin)
        as (s2 & s3 & pre & evs & post & Hf & Htr').
      exists s2, s3, (evs0 ++ pre), evs, post. rewrite !app_assoc. now split.
Qed.

End GitHistory.

Lemma withoutMetadata_warnings_delete_nothing (entries : list (string * list ptr)) :
  deletedImages (withoutMetadata_warnings entries) = [].
Proof.
  unfold withoutMetadata_warnings.
  induction entries as [|[n [|q l]] rest IH]; cbn [flat_map snd];
    [reflexivity|exact IH|].
  rewrite deletedImages_app. now rewrite IH.
Qed.

Lemma historyScan_step_extends (m : imagesCleanupManager) (gitRepository : string)
    (referencesToScan : list string)
    (bySignature : gmap string (gmap string (list ptr)))
    (existing : gmap string (gmap string (list Hash)))
    (res : gmap string (list ptr)) (entry : string * list ptr) (tr : Trace) :
  exists evs,
    (historyScan_step env m gitRepository referencesToScan bySignature existing
       res entry tr).2 = tr ++ evs.
Proof.
  destruct (dw_historyScan_step_grows m (fun _ => True) gitRepository
              referencesToScan bySignature existing res entry
              (Forall_true _ _ (fun _ => I)) tr) as (evs & Htr & _).
  eauto.
Qed.

(** C4: in a git history based cleanup that succeeds, take an image to
    clean up that has no related image metadata (under the image names
    it is listed for): none of the content signatures stored per commit
    is its content signature label.  With the v1.2 flag off the image is
    kept: it is in the result under its image name, no deletion names
    it, and the run warns that tags without metadata are saved.  With
    the v1.2 flag on it is left among the images to clean up and the run
    asks to delete it. *)
Theorem images_without_metadata (m : imagesCleanupManager)
    (repoImagesToCleanup result : gmap string (list ptr)) (tr tr' : Trace)
    (imageName : string) (images : list ptr) (p : ptr) :
  repoImagesGitHistoryBasedCleanup heap env m repoImagesToCleanup tr
    = (Ok result, tr') ->
  repoImagesToCleanup !! imageName = Some images ->
  p ∈ images ->
  (forall n l, repoImagesToCleanup !! n = Some l -> p ∈ l ->
               withoutRelatedMetadata heap m n p) ->
  exists evs,
    tr' = tr ++ evs
    /\ if GitHistoryBasedCleanupV12 m
       then p ∈ deletedImages evs
       else (p ∈ default [] (result !! imageName))
            /\ (p ∉ deletedImages evs)
            /\ Forall (fun warning => warning ∈ evs) warnTagsWithoutMetadata.
Proof.
  intros Hrun Himages Hp Hwithout.
  unfold repoImagesGitHistoryBasedCleanup in Hrun.
  apply bind_Ok_inv in Hrun as (gitRepository & tr1 & Hgit & Hrun).
  apply lift_Ok_inv in Hgit as [_ ->].
  apply bind_Ok_inv in Hrun as (referencesToScan & tr1 & Hrefs & Hrun).
  apply lift_Ok_inv in Hrefs as [_ ->].
  apply bind_Ok_inv in Hrun as (existing & tr1 & Hexisting & Hrun).
  apply lift_Ok_inv in Hexisting as [_ ->].
  apply bind_Ok_inv in Hrun as (st & tr2 & Hphase2 & Hrun).
  apply bind_Ok_inv in Hrun as (res & tr3 & Hphase3 & Hrun).
  apply bind_Ok_inv in Hrun as ([] & tr4 & Hphase4 & Hret).
  unfold ret in Hret. injection Hret as -> <-.
  destruct (dw_deleteUnusedImagesMetadata (fun _ => False) m result tr3)
    as (evs4 & Htr4 & Hdel4 & _).
  rewrite Hphase4 in Htr4. cbn [snd] in Htr4. subst tr4.
  assert (Hnone4 : deletedImages evs4 = []).
  { destruct (deletedImages evs4) as [|q l]; [reflexivity|].
    apply Forall_cons in Hdel4 as [[] _]. }
  destruct (GitHistoryBasedCleanupV12 m) eqn:Hv12.
  - rewrite (withoutMetadata_loop_v12 m _ _ _ Hv12) in Hphase2.
    injection Hphase2 as <- <-. cbn [fst snd] in Hphase3.
    assert (Hentry : (imageName, images) ∈ map_to_list repoImagesToCleanup)
      by now apply elem_of_map_to_list.
    destruct (foldM_Ok_elem _ _ _ _ _ _ _
                (historyScan_step_extends m gitRepository referencesToScan _ existing)
                Hphase3 Hentry)
      as (s1 & s2 & pre & evs & post & Hstep & ->).
    destruct (historyScan_step_deleted m _ _ _ _ _ _ _ _ _ _ p Hstep Hp)
      as (evs' & Hevs' & Hin).
    { pose proof (signatures_exclude m repoImagesToCleanup p Hwithout) as Hsig.
      now apply MapMapAll_default. }
    apply app_inv_head in Hevs' as ->.
    exists (((pre ++ evs') ++ post) ++ evs4). split.
    + now rewrite !app_assoc.
    + rewrite !deletedImages_app, !elem_of_app. tauto.
  - rewrite (withoutMetadata_loop_saved m _ _ _ Hv12) in Hphase2.
    injection Hphase2 as <- <-. cbn [fst snd] in Hphase3.
    set (without := getImageRepoImageListWithoutRelatedImageMetadata
                      repoImagesToCleanup
                      (getImageContentSignatureRepoImageListToCleanup heap m
                         repoImagesToCleanup)) in *.
    destruct (saved_result_holds m repoImagesToCleanup p Hwithout imageName images
                Himages Hp) as (Hsaved & w & q & Hwarn).
    fold without in Hsaved, Hwarn.
    (* the scan deletes none but images still to clean up, and keeps the result *)
    assert (Hscan :
              deletesWithin (fun q => q <> p)
                (foldM
                   (historyScan_step env m gitRepository referencesToScan
                      (getImageContentSignatureRepoImageListToCleanup heap m
                         repoImagesToCleanup) existing)
                   (map_to_list (foldl withoutMetadata_saved (∅, repoImagesToCleanup)
                                   (map_to_list without)).2)
                   (foldl withoutMetadata_saved (∅, repoImagesToCleanup)
                      (map_to_list without)).1)
                (fun res => p ∈ default [] (res !! imageName))).
    { apply dw_foldM; [exact Hsaved|].
      intros res0 entry Hin Hres0.
      eapply dw_weaken.
      - apply dw_historyScan_step_grows.
        exact (MapAll_entry _ _ _ (saved_candidates_exclude m repoImagesToCleanup p
                                     Hwithout) Hin).
      - intros res1 Hgrow. now apply Hgrow. }
    destruct (Hscan (tr ++ withoutMetadata_warnings (map_to_list without)))
      as (evs3 & Htr3 & Hdel3 & Hres3).
    rewrite Hphase3 in Htr3, Hres3. cbn [fst snd] in Htr3, Hres3. subst tr3.
    exists ((withoutMetadata_warnings (map_to_list without) ++ evs3) ++ evs4).
    split; [now rewrite !app_assoc|]. split; [now apply Hres3|]. split.
    + rewrite !deletedImages_app, Hnone4, app_nil_r.
      rewrite withoutMetadata_warnings_delete_nothing, app_nil_l.
      rewrite Forall_forall in Hdel3.
      intros Hin. now apply (Hdel3 p Hin).
    + apply Forall_forall. intros warning Hwarning.
      apply elem_of_app. left. apply elem_of_app. left.
      unfold withoutMetadata_warnings. apply list_elem_of_In, in_flat_map.
      exists (imageName, q :: w). split; [now apply list_elem_of_In|].
      now apply list_elem_of_In.
Qed.


(** ** Batch deletes *)

Lemma foldM_app {A S} (f : S -> A -> M S) (l1 l2 : list A) (s : S) (tr : Trace) :
  foldM f (l1 ++ l2) s tr = bind (foldM f l1 s) (foldM f l2) tr.
Proof.
  revert s tr. induction l1 as [|a l1 IH]; intros s tr; [reflexivity|].
  simpl. unfold bind. destruct (f s a tr) as [[s'|e|p] tr1]; [|reflexivity..].
  exact (IH s' tr1).
Qed.

Lemma rmImageCommitCalls_app (evs1 evs2 : list Event) :
  rmImageCommitCalls (evs1 ++ evs2)
  = rmImageCommitCalls evs1 ++ rmImageCommitCalls evs2.
Proof. apply omap_app. Qed.

(** A failed removal of a metadata record is warned about and
    swallowed. *)
Lemma rmImageCommit_step_failure (m : imagesCleanupManager)
    (imageName : string) (commitHash : Hash) (tr : Trace) (e : string) :
  DryRun m = false ->
  StagesStorage_RmImageCommit env tr imageName commitHash = Some e ->
  rmImageCommit_step env m imageName tt commitHash tr
  = (Ok tt,
     tr ++ [EvRmImageCommit imageName commitHash;
            EvWarn ("WARNING: Metadata image deletion (image " +:+ imageName
                    +:+ ", commit: " +:+ commitHash +:+ ") failed: " +:+ e)]).
Proof.
  intros Hdry Hfail. unfold rmImageCommit_step, bind, tryCall, emit.
  rewrite Hdry, Hfail. now rewrite <- app_assoc.
Qed.

Lemma rmImageCommit_step_total (m : imagesCleanupManager)
    (imageName : string) (commitHash : Hash) (tr : Trace) :
  exists evs,
    rmImageCommit_step env m imageName tt commitHash tr = (Ok tt, tr ++ evs)
    /\ rmImageCommitCalls evs
       = if DryRun m then [] else [(imageName, commitHash)].
Proof.
  unfold rmImageCommit_step, bind, tryCall, emit, ret.
  destruct (DryRun m).
  - eexists. split; reflexivity.
  - destruct (StagesStorage_RmImageCommit env tr imageName commitHash).
    + eexists. split; [now rewrite <- app_assoc|reflexivity].
    + eexists. split; reflexivity.
Qed.

Lemma rmImageCommit_loop_total (m : imagesCleanupManager)
    (imageName : string) (commitHashes : list Hash) (tr : Trace) :
  exists evs,
    foldM (rmImageCommit_step env m imageName) commitHashes tt tr
    = (Ok tt, tr ++ evs)
    /\ rmImageCommitCalls evs
       = if DryRun m then [] else map (pair imageName) commitHashes.
Proof.
  revert tr. induction commitHashes as [|h hs IH]; intros tr.
  - exists []. split; [simpl; unfold ret; now rewrite app_nil_r|].
    now destruct (DryRun m).
  - destruct (rmImageCommit_step_total m imageName h tr) as (evs1 & Hstep & Hcalls1).
    destruct (IH (tr ++ evs1)) as (evs2 & Hloop & Hcalls2).
    exists (evs1 ++ evs2). split.
    + simpl. unfold bind. rewrite Hstep, Hloop. now rewrite <- app_assoc.
    + rewrite rmImageCommitCalls_app, Hcalls1, Hcalls2.
      now destruct (DryRun m).
Qed.

Lemma rmImageCommit_map_total (m : imagesCleanupManager)
    (unused : list (string * list Hash)) (tr : Trace) :
  exists evs,
    foldM (fun _ entry => foldM (rmImageCommit_step env m entry.1) entry.2 tt)
          unused tt tr
    = (Ok tt, tr ++ evs)
    /\ rmImageCommitCalls evs
       = if DryRun m then []
         else flat_map (fun entry => map (pair entry.1) entry.2) unused.
Proof.
  revert tr. induction unused as [|[n hs] rest IH]; intros tr.
  - exists []. split; [simpl; unfold ret; now rewrite app_nil_r|].
    now destruct (DryRun m).
  - destruct (rmImageCommit_loop_total m n hs tr) as (evs1 & Hstep & Hcalls1).
    destruct (IH (tr ++ evs1)) as (evs2 & Hloop & Hcalls2).
    exists (evs1 ++ evs2). split.
    + simpl. unfold bind. simpl in Hstep. rewrite Hstep, Hloop.
      now rewrite <- app_assoc.
    + rewrite rmImageCommitCalls_app, Hcalls1, Hcalls2.
      now destruct (DryRun m).
Qed.

(** The purge loop over managed images that are all removed. *)
Lemma rmManagedImage_loop_ok (pm : stagesPurgeManager)
    (managedImages : list string) (tr : Trace) :
  PurgeDryRun pm = false ->
  (forall tr' managedImage,
      managedImage ∈ managedImages ->
      StagesStorage_RmManagedImage env tr' managedImage = None) ->
  foldM (rmManagedImage_step env pm) managedImages tt tr
  = (Ok tt, tr ++ flat_map managedImageRemoved managedImages).
Proof.
  intros Hdry. revert tr. induction managedImages as [|x xs IH]; intros tr Hok.
  - simpl. unfold ret. now rewrite app_nil_r.
  - simpl foldM. unfold bind at 1.
    assert (Hx : rmManagedImage_step env pm tt x tr
                 = (Ok tt, tr ++ managedImageRemoved x)).
    { unfold rmManagedImage_step. rewrite Hdry.
      unfold bind, call, bind, tryCall, emit, ret, lift.
      rewrite (Hok tr x) by (left). now rewrite <- app_assoc. }
    rewrite Hx, IH.
    + simpl flat_map. now rewrite <- app_assoc.
    + intros tr' y Hy. apply Hok. now right.
Qed.

(** C7 (amended): the two batch deletes differ.  In cleanup, the phase
    that deletes unused per-commit metadata never fails: outside dry-run
    it asks the stages storage to remove every unused record, whatever
    the earlier removals answered (in dry-run it asks for none), a failed
    removal is logged as a warning, and the phase returns success.  In
    purge, the loop over managed-image records stops at the first record
    whose removal fails: the run returns that error and the records after
    it are not processed. *)
Theorem batch_delete_failure_handling :
  (forall (m : imagesCleanupManager) (resultRepoImages : gmap string (list ptr))
          (tr : Trace),
      exists evs,
        deleteUnusedImagesMetadata heap env m resultRepoImages tr = (Ok tt, tr ++ evs)
        /\ rmImageCommitCalls evs
           = if DryRun m then []
             else flat_map (fun entry => map (pair entry.1) entry.2)
                    (map_to_list (getImageUnusedCommitHashes heap m resultRepoImages)))
  /\ (forall (m : imagesCleanupManager) (imageName : string) (commitHash : Hash)
             (tr : Trace) (e : string),
        DryRun m = false ->
        StagesStorage_RmImageCommit env tr imageName commitHash = Some e ->
        rmImageCommit_step env m imageName tt commitHash tr
        = (Ok tt,
           tr ++ [EvRmImageCommit imageName commitHash;
                  EvWarn ("WARNING: Metadata image deletion (image " +:+ imageName
                          +:+ ", commit: " +:+ commitHash +:+ ") failed: " +:+ e)]))
  /\ (forall (pm : stagesPurgeManager) (tr : Trace) (stages : list StageID)
             (removed : list string) (failed : string) (rest : list string)
             (e : string),
        let lockName := "stages-purge." +:+ PurgeProjectName pm in
        PurgeDryRun pm = false ->
        acquireHostLock env tr lockName = None ->
        StagesManager_GetAllStages env = Ok stages ->
        deleteStageInStagesStorage env (tr ++ [EvHostLockAcquire lockName]) false stages
          = None ->
        StagesStorage_GetManagedImages env = Ok (removed ++ failed :: rest) ->
        (forall tr' managedImage,
            managedImage ∈ removed ->
            StagesStorage_RmManagedImage env tr' managedImage = None) ->
        (forall tr', StagesStorage_RmManagedImage env tr' failed = Some e) ->
        stagesPurge_run env pm tr
        = (Err e,
           tr ++ [EvHostLockAcquire lockName; EvDeleteStages false stages]
              ++ flat_map managedImageRemoved removed
              ++ [EvRmManagedImage failed; EvHostLockRelease lockName])).
Proof.
  split; [|split].
  - intros m resultRepoImages tr. apply rmImageCommit_map_total.
  - apply rmImageCommit_step_failure.
  - intros pm tr stages removed failed rest e lockName
      Hdry Hlock Hstages Hdel Hmanaged Hok Hfail.
    unfold stagesPurge_run, WithHostLock. fold lockName. rewrite Hlock.
    unfold bind at 1. unfold lift at 1. rewrite Hstages.
    unfold bind at 1. unfold call at 1. unfold bind at 1. unfold tryCall at 1.
    rewrite Hdry, Hdel. unfold ret at 1.
    unfold bind at 1. unfold lift at 1. rewrite Hmanaged.
    rewrite foldM_app. unfold bind at 1.
    rewrite (rmManagedImage_loop_ok pm removed _ Hdry Hok).
    simpl foldM. unfold bind at 1.
    assert (Hx : forall tr0, rmManagedImage_step env pm tt failed tr0
                 = (Err e, tr0 ++ [EvRmManagedImage failed])).
    { intros tr0. unfold rmManagedImage_step. rewrite Hdry.
      unfold bind, call, bind, tryCall, lift. now rewrite Hfail. }
    rewrite Hx. f_equal. rewrite <- !app_assoc. reflexivity.
Qed.

End WithEnv.

Lemma run_without_local_git_witness :
  imagesCleanup_run demoHeap demoEnv (demoManager None false noPolicies) []
  = (Ok (setImageRepoImageList (demoManager None false noPolicies)
           {[ "app" := [1; 2; 3; 4; 5]%nat ]}),
     [EvHostLockAcquire "images-cleanup.repo"; EvLog skippedWithoutGit;
      EvHostLockRelease "images-cleanup.repo"]).
Proof.
  exact (proj2 (run_without_local_git demoHeap demoEnv
                  (demoManager None false noPolicies) [] eq_refl)
           _ eq_refl eq_refl).
Defined.

(** C7, as the specification states it, fails on both batch deletes.  In
    purge, with the managed images [backend] and [frontend] and a storage
    that fails to remove [backend], the run stops with that error and
    [frontend] is never processed.  In cleanup, the failed removal of a
    metadata record is warned about, and the phase reports success. *)
Lemma batch_delete_counterexample :
  StagesStorage_GetManagedImages failingEnv = Ok ["backend"; "frontend"]
  /\ stagesPurge_run failingEnv (mkPurgeManager "project" false false) []
     = (Err "registry unavailable",
        [EvHostLockAcquire "stages-purge.project"; EvDeleteStages false [];
         EvRmManagedImage "backend"; EvHostLockRelease "stages-purge.project"])
  /\ deleteUnusedImagesMetadata demoHeap failingEnv orphanMetadataManager ∅ []
     = (Ok tt,
        [EvRmImageCommit "app" "c0ffee";
         EvWarn "WARNING: Metadata image deletion (image app, commit: c0ffee) failed: registry unavailable"]).
Proof. repeat split; vm_compute; reflexivity. Qed.

Lemma batch_delete_failure_handling_witness :
  stagesPurge_run failingEnv (mkPurgeManager "project" false false) []
  = (Err "registry unavailable",
     [] ++ [EvHostLockAcquire "stages-purge.project"; EvDeleteStages false []]
        ++ flat_map managedImageRemoved []
        ++ [EvRmManagedImage "backend"; EvHostLockRelease "stages-purge.project"]).
Proof.
  refine (proj2 (proj2 (batch_delete_failure_handling demoHeap failingEnv))
            (mkPurgeManager "project" false false) [] [] [] "backend" ["frontend"]
            "registry unavailable" eq_refl eq_refl eq_refl eq_refl eq_refl _ _).
  - intros tr' managedImage H. inversion H.
  - intros tr'. reflexivity.
Defined.


(** The oldest image is deployed: with a limit of three on the four
    others, the run deletes the second image and leaves the deployed one
    in the result. *)
Example deployed_image_kept_under_limit :
  imagesCleanup_run demoHeap demoEnv (kubeManager limit3Policies) []
  = (Ok (setImageRepoImageList (kubeManager limit3Policies)
           {[ "app" := [3; 4; 5; 1]%nat ]}),
     [EvHostLockAcquire "images-cleanup.repo";
      EvDeleteRepoImages false [2]%nat;
      EvHostLockRelease "images-cleanup.repo"]).
Proof. vm_compute. reflexivity. Qed.

Lemma deployed_images_survive_witness :
  exists evs,
    (imagesCleanup_run demoHeap demoEnv (kubeManager limit3Policies) []).2 = [] ++ evs
    /\ forall p, p ∈ deletedImages evs ->
                 dockerImageName demoHeap p ∉ ["repo/app:c1"].
Proof.
  exact (proj1 (deployed_images_survive demoHeap demoEnv (kubeManager limit3Policies)
                  [] ["repo/app:c1"] eq_refl eq_refl)).
Defined.

(** Two images without related metadata: saved with a warning when the
    v1.2 flag is off, deleted when it is on. *)
Example without_metadata_saved :
  repoImagesGitHistoryBasedCleanup demoHeap demoEnv (historyManager false)
    {[ "app" := [1; 2]%nat ]} []
  = (Ok {[ "app" := [1; 2]%nat ]},
     warnTagsWithoutMetadata
       ++ [EvDeleteRepoImages false []; EvRmImageCommit "app" "c0ffee"]).
Proof. vm_compute. reflexivity. Qed.

Example without_metadata_deleted :
  repoImagesGitHistoryBasedCleanup demoHeap demoEnv (historyManager true)
    {[ "app" := [1; 2]%nat ]} []
  = (Ok {[ "app" := [] ]},
     [EvDeleteRepoImages false [1; 2]%nat; EvRmImageCommit "app" "c0ffee"]).
Proof. vm_compute. reflexivity. Qed.

Lemma images_without_metadata_witness :
  exists evs,
    warnTagsWithoutMetadata
      ++ [EvDeleteRepoImages false []; EvRmImageCommit "app" "c0ffee"] = [] ++ evs
    /\ (1%nat ∈ default [] (({[ "app" := [1; 2]%nat ]} : gmap string (list ptr)) !! "app"))
    /\ (1%nat ∉ deletedImages evs)
    /\ Forall (fun warning => warning ∈ evs) warnTagsWithoutMetadata.
Proof.
  refine (images_without_metadata demoHeap demoEnv (historyManager false)
            {[ "app" := [1; 2]%nat ]} {[ "app" := [1; 2]%nat ]} []
            (warnTagsWithoutMetadata
               ++ [EvDeleteRepoImages false []; EvRmImageCommit "app" "c0ffee"])
            "app" [1; 2]%nat 1%nat _ _ _ _).
  - vm_compute. reflexivity.
  - reflexivity.
  - apply list_elem_of_here.
  - intros n l Hn _ commitHash imageMetadata Hmd.
    destruct (decide (n = "app")) as [->|Hne].
    + unfold metadataOf in Hmd. cbn [imageCommitHashImageMetadata historyManager] in Hmd.
      rewrite lookup_singleton_eq in Hmd. cbn [default from_option id] in Hmd.
      apply lookup_singleton_Some in Hmd as [_ <-]. vm_compute. discriminate.
    + rewrite lookup_singleton_ne in Hn by congruence. discriminate.
Defined.

End CleaningFacts.


(** * Further properties of the stages storage *)

Module StorageExtra.
Import GoStrings Image Storage GoStringsFacts StorageFacts.

Lemma HasPrefix_true_app (s p : string) :
  HasPrefix s p = true -> exists rest, s = p ++ rest.
Proof.
  revert s. induction p as [|c p IH]; intros s.
  - intros _. now exists s.
  - destruct s as [|d s]; cbn -[Ascii.eqb]; [discriminate|].
    destruct (Ascii.eqb_spec c d) as [->|]; [|discriminate].
    intros H. destruct (IH s H) as (rest & ->). now exists rest.
Qed.

Local Arguments HasPrefix : simpl never.

(** A numeral does not start with a letter. *)
Lemma ParseInt_letter (c : ascii) (s : string) :
  (c = "i" \/ c = "m")%char -> ParseInt (String c s) = Err "invalid syntax".
Proof.
  intros [-> | ->]; unfold ParseInt; cbn;
    now destruct (NilEmpty.uint_of_string s).
Qed.

Lemma reserved_prefix_not_decoded (tag : string) :
  HasPrefix tag RepoManagedImageRecord_ImageTagPrefix = true
  \/ HasPrefix tag RepoImageMetadataByCommitRecord_ImageTagPrefix = true
  \/ HasPrefix tag RepoClientIDRecrod_ImageTagPrefix = true ->
  exists err, getSignatureAndUniqueIDFromRepoStageImageTag tag = Err err.
Proof.
  intros [H|[H|H]];
    apply HasPrefix_true_app in H as (rest & ->);
    rewrite getSignatureAndUniqueID_unfold.
  - change (Cut (RepoManagedImageRecord_ImageTagPrefix ++ rest) "-"%char)
      with (Some ("managed", String "i" ("mage-" ++ rest))).
    cbv iota beta. rewrite ParseInt_letter by auto. eauto.
  - change (Cut (RepoImageMetadataByCommitRecord_ImageTagPrefix ++ rest) "-"%char)
      with (Some ("image", String "m" ("etadata-by-commit-" ++ rest))).
    cbv iota beta. rewrite ParseInt_letter by auto. eauto.
  - change (Cut (RepoClientIDRecrod_ImageTagPrefix ++ rest) "-"%char)
      with (Some ("client", String "i" ("d-" ++ rest))).
    cbv iota beta. rewrite ParseInt_letter by auto. eauto.
Qed.

(** X1: the record tags are never taken for stage tags.  A tag that starts
    with [managed-image-], [image-metadata-by-commit-] or [client-id-] is
    not decoded as a stage: the decoder answers an unexpected-tag-format
    error.  This holds in particular for the tag of a managed image record,
    of a per-commit metadata record (shrunk or not) and of a client id
    record, whatever the image name, commit, client id and timestamp. *)
Theorem reserved_tags_are_not_stages :
  (forall tag,
      HasPrefix tag RepoManagedImageRecord_ImageTagPrefix = true
      \/ HasPrefix tag RepoImageMetadataByCommitRecord_ImageTagPrefix = true
      \/ HasPrefix tag RepoClientIDRecrod_ImageTagPrefix = true ->
      exists err,
        getSignatureAndUniqueIDFromRepoStageImageTag tag = Err err
        /\ isUnexpectedTagFormatError err = true)
  /\ (forall imageName, exists err,
        getSignatureAndUniqueIDFromRepoStageImageTag (managedImageRecordTag imageName)
        = Err err)
  /\ (forall LimitedSlug imageName commit, exists err,
        getSignatureAndUniqueIDFromRepoStageImageTag
          (slugRepoImageMetadataByCommitImageRecordTag LimitedSlug imageName commit)
        = Err err)
  /\ (forall clientID timestampMillisec, exists err,
        getSignatureAndUniqueIDFromRepoStageImageTag
          (clientIDRecordTag clientID timestampMillisec)
        = Err err).
Proof.
  split; [|split; [|split]].
  - intros tag H. destruct (reserved_prefix_not_decoded tag H) as (err & Herr).
    exists err. split; [exact Herr|]. exact (getSignatureAndUniqueID_error _ _ Herr).
  - intros imageName. apply reserved_prefix_not_decoded. left.
    unfold managedImageRecordTag. apply HasPrefix_app.
  - intros LimitedSlug imageName commit. apply reserved_prefix_not_decoded.
    right; left.
    unfold slugRepoImageMetadataByCommitImageRecordTag,
      slugImageMetadataByCommitImageRecordTag, RepoImageMetadataByCommitRecord_TagFormat.
    destruct (len _ <=? 128); apply HasPrefix_app.
  - intros clientID timestampMillisec. apply reserved_prefix_not_decoded.
    right; right. unfold clientIDRecordTag. apply HasPrefix_app.
Qed.

Lemma reserved_tags_are_not_stages_witness :
  exists err,
    getSignatureAndUniqueIDFromRepoStageImageTag "client-id-abc-1700000000000" = Err err
    /\ isUnexpectedTagFormatError err = true.
Proof.
  exact (proj1 reserved_tags_are_not_stages "client-id-abc-1700000000000"
           (or_intror (or_intror eq_refl))).
Defined.

Lemma ParseInt_int64 (s : string) (z : Z) : ParseInt s = Ok z -> is_int64 z = true.
Proof.
  unfold ParseInt.
  destruct (match s with
            | String "+"%char r => (false, r)
            | String "-"%char r => (true, r)
            | _ => (false, s)
            end) as [neg digits].
  destruct (NilZero.uint_of_string digits) as [d|]; [|discriminate].
  cbv zeta. destruct (is_int64 _) eqn:E; [|discriminate].
  now intros [= <-].
Qed.

(** X2: what the stage tag decoder returns is canonical.  When a tag decodes
    to (signature, unique id), the signature holds no hyphen, the unique id
    is an int64, the tag is the signature, a hyphen and a numeral of the
    unique id, and encoding the pair again gives a tag that decodes to the
    same pair. *)
Theorem decoded_stage_is_canonical (tag signature : string) (uniqueID : Z) :
  getSignatureAndUniqueIDFromRepoStageImageTag tag = Ok (signature, uniqueID) ->
  ContainsByte signature "-"%char = false
  /\ is_int64 uniqueID = true
  /\ (exists suffix, tag = signature ++ "-" ++ suffix /\ ParseInt suffix = Ok uniqueID)
  /\ getSignatureAndUniqueIDFromRepoStageImageTag (stageImageTag signature uniqueID)
     = Ok (signature, uniqueID).
Proof.
  rewrite getSignatureAndUniqueID_unfold.
  destruct (Cut tag "-"%char) as [[a b]|] eqn:Hcut; [|discriminate].
  destruct (ParseInt b) as [z| |] eqn:Hparse; try discriminate.
  intros [= -> ->]. destruct (Cut_Some _ _ _ _ Hcut) as [-> Hsig].
  pose proof (ParseInt_int64 _ _ Hparse) as Hrange.
  split; [exact Hsig|]. split; [exact Hrange|]. split; [eauto|].
  rewrite getSignatureAndUniqueID_unfold. unfold stageImageTag.
  change ("-" ++ FormatInt uniqueID) with (String "-"%char (FormatInt uniqueID)).
  now rewrite (Cut_first _ _ _ Hsig), (ParseInt_FormatInt _ Hrange).
Qed.

Lemma decoded_stage_is_canonical_witness :
  getSignatureAndUniqueIDFromRepoStageImageTag (stageImageTag "abc" 7) = Ok ("abc", 7).
Proof.
  exact (proj2 (proj2 (proj2 (decoded_stage_is_canonical "abc-007" "abc" 7 eq_refl)))).
Defined.

Lemma decoded_not_reserved (tag : string) (p : string * Z) :
  getSignatureAndUniqueIDFromRepoStageImageTag tag = Ok p ->
  HasPrefix tag RepoManagedImageRecord_ImageTagPrefix
  || HasPrefix tag RepoImageMetadataByCommitRecord_ImageTagPrefix = false.
Proof.
  intros Hdec.
  destruct (HasPrefix tag RepoManagedImageRecord_ImageTagPrefix) eqn:E1.
  - destruct (reserved_prefix_not_decoded tag (or_introl E1)) as (err & Herr).
    congruence.
  - destruct (HasPrefix tag RepoImageMetadataByCommitRecord_ImageTagPrefix) eqn:E2;
      [|reflexivity].
    destruct (reserved_prefix_not_decoded tag (or_intror (or_introl E2))) as (err & Herr).
    congruence.
Qed.

Lemma HasPrefix_app_l (a b : string) : HasPrefix (a ++ b) a = true.
Proof. apply HasPrefix_app. Qed.

(** X3: the two listings of stages agree.  When the registry lists its
    tags, [GetAllStages] and [GetStagesBySignature] both succeed; every stage
    that [GetAllStages] reports under a signature is among the stages
    [GetStagesBySignature] returns for that signature; and whatever
    [GetStagesBySignature] returns carries the signature asked for and the
    unique id of a stage that [GetAllStages] reports. *)
Theorem stages_by_signature_agree_with_all_stages
    (storage : RepoStagesStorage) (projectName : string) (tags : list string) :
  Tags (Registry storage) (RepoAddress storage) = Ok tags ->
  exists allStages,
    GetAllStages storage projectName = Ok allStages
    /\ forall signature, exists bySignature,
         GetStagesBySignature storage projectName signature = Ok bySignature
         /\ (forall stage,
               stage ∈ allStages -> Signature stage = signature ->
               stage ∈ bySignature)
         /\ (forall stage,
               stage ∈ bySignature ->
               Signature stage = signature
               /\ exists listed,
                    listed ∈ allStages /\ UniqueID listed = UniqueID stage).
Proof.
  intros Htags. unfold GetAllStages, GetStagesBySignature. rewrite Htags.
  rewrite GetAllStages_loop_omap. eexists. split; [reflexivity|].
  intros signature. rewrite GetStagesBySignature_loop_omap.
  eexists. split; [reflexivity|]. cbn [app]. split.
  - intros stage Hin Hsig. apply list_elem_of_omap in Hin as (tag & Htag & Hdec).
    apply list_elem_of_omap. exists tag. split; [exact Htag|].
    unfold decodableStage in Hdec. unfold stageByBarePrefix.
    destruct (HasPrefix tag RepoManagedImageRecord_ImageTagPrefix
              || HasPrefix tag RepoImageMetadataByCommitRecord_ImageTagPrefix);
      [discriminate|].
    destruct (Cut tag "-"%char) as [[a b]|] eqn:Hcut; [|discriminate].
    destruct (ParseInt b) as [z| |]; try discriminate.
    injection Hdec as <-. cbn in Hsig. subst a.
    destruct (Cut_Some _ _ _ _ Hcut) as [-> _].
    now rewrite HasPrefix_app_l.
  - intros stage Hin. apply list_elem_of_omap in Hin as (tag & Htag & Hdec).
    unfold stageByBarePrefix in Hdec.
    destruct (HasPrefix tag signature); [|discriminate].
    destruct (Cut tag "-"%char) as [[a b]|] eqn:Hcut; [|discriminate].
    destruct (ParseInt b) as [z| |] eqn:Hparse; try discriminate.
    injection Hdec as <-. split; [reflexivity|].
    exists (mkStageID a z). split; [|reflexivity].
    apply list_elem_of_omap. exists tag. split; [exact Htag|].
    unfold decodableStage.
    rewrite (decoded_not_reserved tag (a, z)).
    + now rewrite Hcut, Hparse.
    + rewrite getSignatureAndUniqueID_unfold. now rewrite Hcut, Hparse.
Qed.

Lemma stages_by_signature_agree_with_all_stages_witness :
  exists allStages,
    GetAllStages
      (mkRepoStagesStorage "repo"
         (registryWithTags ["abc123-1700000000000"; "managed-image-myapp"; "abcdef-5"]))
      "project" = Ok allStages
    /\ forall signature, exists bySignature,
         GetStagesBySignature
           (mkRepoStagesStorage "repo"
              (registryWithTags ["abc123-1700000000000"; "managed-image-myapp"; "abcdef-5"]))
           "project" signature = Ok bySignature
         /\ (forall stage,
               stage ∈ allStages -> Signature stage = signature ->
               stage ∈ bySignature)
         /\ (forall stage,
               stage ∈ bySignature ->
               Signature stage = signature
               /\ exists listed,
                    listed ∈ allStages /\ UniqueID listed = UniqueID stage).
Proof.
  exact (stages_by_signature_agree_with_all_stages
           (mkRepoStagesStorage "repo"
              (registryWithTags ["abc123-1700000000000"; "managed-image-myapp"; "abcdef-5"]))
           "project" _ eq_refl).
Defined.

Lemma ContainsByte_app (a b : string) (c : ascii) :
  ContainsByte (a ++ b) c = ContainsByte a c || ContainsByte b c.
Proof.
  induction a as [|d a IH]; [reflexivity|]. cbn -[Ascii.eqb].
  destruct (Ascii.eqb d c); [reflexivity|exact IH].
Qed.

Lemma ContainsByte_ReplaceAll (s new : string) (old c : ascii) :
  ContainsByte new c = false ->
  ContainsByte (ReplaceAll s old new) c
  = if Ascii.eqb c old then false else ContainsByte s c.
Proof.
  intros Hnew. induction s as [|d s IH].
  - cbn. now destruct (Ascii.eqb c old).
  - cbn -[Ascii.eqb]. destruct (Ascii.eqb_spec d old) as [->|Hd].
    + rewrite ContainsByte_app, Hnew, IH. cbn -[Ascii.eqb].
      destruct (Ascii.eqb_spec c old) as [->|Hc]; [reflexivity|].
      destruct (Ascii.eqb_spec old c) as [->|]; [contradiction|reflexivity].
    + cbn -[Ascii.eqb]. rewrite IH.
      destruct (Ascii.eqb_spec c old) as [->|Hc].
      * destruct (Ascii.eqb_spec d old); [contradiction|reflexivity].
      * reflexivity.
Qed.

Lemma ReplaceAll_absent (s new : string) (old : ascii) :
  ContainsByte s old = false -> ReplaceAll s old new = s.
Proof.
  induction s as [|d s IH]; [reflexivity|]. cbn -[Ascii.eqb].
  destruct (Ascii.eqb d old); [discriminate|]. intros H. now rewrite IH.
Qed.

Lemma ReplaceAll_nonempty (s new : string) (old : ascii) :
  s <> "" -> new <> "" -> ReplaceAll s old new <> "".
Proof.
  destruct s as [|d s]; [congruence|]. intros _ Hnew. cbn -[Ascii.eqb].
  destruct (Ascii.eqb d old); [|discriminate].
  destruct new; [congruence|discriminate].
Qed.

(** X4: the slug of an image name is fit for a tag.  For a non-empty image
    name, [slugImageNameAsDockerImageTag] returns a non-empty string that
    holds no [/] and no [+], and a name that holds neither character is
    returned unchanged; the empty image name gives the nameless image
    record tag. *)
Theorem slugImageNameAsDockerImageTag_shape (imageName : string) :
  (imageName = "" -> slugImageNameAsDockerImageTag imageName = NamelessImageRecordTag)
  /\ (imageName <> "" ->
      slugImageNameAsDockerImageTag imageName <> ""
      /\ ContainsByte (slugImageNameAsDockerImageTag imageName) "/"%char = false
      /\ ContainsByte (slugImageNameAsDockerImageTag imageName) "+"%char = false
      /\ (ContainsByte imageName "/"%char = false ->
          ContainsByte imageName "+"%char = false ->
          slugImageNameAsDockerImageTag imageName = imageName)).
Proof.
  unfold slugImageNameAsDockerImageTag.
  destruct (String.eqb_spec imageName "") as [->|Hne].
  - split; [reflexivity|]. intros H. now destruct H.
  - split; [contradiction|]. intros _. split; [|split; [|split]].
    + apply ReplaceAll_nonempty; [|discriminate].
      apply ReplaceAll_nonempty; [exact Hne|discriminate].
    + rewrite ContainsByte_ReplaceAll by reflexivity.
      change (Ascii.eqb "/" "+") with false. cbv iota.
      rewrite ContainsByte_ReplaceAll by reflexivity.
      now rewrite Ascii.eqb_refl.
    + rewrite ContainsByte_ReplaceAll by reflexivity.
      now rewrite Ascii.eqb_refl.
    + intros Hslash Hplus.
      rewrite (ReplaceAll_absent imageName _ _ Hslash).
      exact (ReplaceAll_absent imageName _ _ Hplus).
Qed.

Lemma slugImageNameAsDockerImageTag_shape_witness :
  ContainsByte (slugImageNameAsDockerImageTag "group/backend+debug") "/"%char = false
  /\ slugImageNameAsDockerImageTag "backend" = "backend".
Proof.
  split.
  - exact (proj1 (proj2 (proj2 (slugImageNameAsDockerImageTag_shape
                                  "group/backend+debug")
                           ltac:(discriminate)))).
  - exact (proj2 (proj2 (proj2 (proj2 (slugImageNameAsDockerImageTag_shape "backend")
                                  ltac:(discriminate))))
             eq_refl eq_refl).
Defined.

Lemma TrimPrefix_app (p s : string) : TrimPrefix (p ++ s) p = s.
Proof.
  unfold TrimPrefix.
  assert (H : TrimPrefix_aux (p ++ s) p = Some s).
  { induction p as [|c p IH]; [reflexivity|]. cbn -[Ascii.eqb].
    now rewrite Ascii.eqb_refl. }
  now rewrite H.
Qed.

Lemma Split_no_sep (s : string) (sep : ascii) :
  ContainsByte s sep = false -> Split s sep = [s].
Proof.
  induction s as [|d s IH]; [reflexivity|]. cbn -[Ascii.eqb].
  destruct (Ascii.eqb d sep); [discriminate|]. intros H. now rewrite IH.
Qed.

Lemma Split_last_no_sep (s : string) (sep : ascii) :
  ContainsByte (List.last (Split s sep) "") sep = false.
Proof.
  induction s as [|d s IH]; [reflexivity|]. cbn -[Ascii.eqb List.last].
  destruct (Ascii.eqb_spec d sep) as [->|Hd].
  - destruct (Split s sep) as [|piece pieces] eqn:E; [reflexivity|exact IH].
  - destruct (Split s sep) as [|piece pieces] eqn:E.
    + cbn -[Ascii.eqb]. now destruct (Ascii.eqb_spec d sep).
    + destruct pieces as [|piece' pieces]; [|exact IH].
      cbn -[Ascii.eqb] in IH |- *. now destruct (Ascii.eqb_spec d sep).
Qed.

Lemma Split_app_last (a c : string) (sep : ascii) :
  ContainsByte c sep = false ->
  List.last (Split (a ++ String sep c) sep) "" = c
  /\ (2 <= length (Split (a ++ String sep c) sep))%nat.
Proof.
  intros Hc. induction a as [|d a [IHlast IHlen]].
  - cbn -[Ascii.eqb]. rewrite Ascii.eqb_refl, (Split_no_sep _ _ Hc).
    split; [reflexivity|cbn; lia].
  - cbn -[Ascii.eqb List.last length].
    destruct (Split (a ++ String sep c) sep) as [|piece [|piece' pieces]] eqn:E;
      try (cbn in IHlen; lia).
    destruct (Ascii.eqb d sep); (split; [exact IHlast|cbn; lia]).
Qed.

Lemma metadata_tag_shape (LimitedSlug : string -> Z -> string)
    (imageName commit : string) :
  exists name,
    slugRepoImageMetadataByCommitImageRecordTag LimitedSlug imageName commit
    = RepoImageMetadataByCommitRecord_ImageTagPrefix ++ name ++ String "-" commit.
Proof.
  unfold slugRepoImageMetadataByCommitImageRecordTag,
    slugImageMetadataByCommitImageRecordTag, RepoImageMetadataByCommitRecord_TagFormat.
  destruct (len _ <=? 128); eexists; reflexivity.
Qed.

Lemma GetImageCommits_loop_sound (LimitedSlug : string -> Z -> string)
    (imageName : string) (tags : list string) (res : list string) (commit : string) :
  commit ∈ GetImageCommits_loop LimitedSlug imageName tags res ->
  commit ∈ res
  \/ (ContainsByte commit "-"%char = false
      /\ slugRepoImageMetadataByCommitImageRecordTag LimitedSlug imageName commit ∈ tags).
Proof.
  revert res. induction tags as [|tag tags IH]; intros res; [now left|].
  cbn -[HasPrefix TrimPrefix Split List.last String.eqb Nat.ltb length].
  assert (Hskip : commit ∈ GetImageCommits_loop LimitedSlug imageName tags res ->
                  commit ∈ res
                  \/ (ContainsByte commit "-"%char = false
                      /\ slugRepoImageMetadataByCommitImageRecordTag
                           LimitedSlug imageName commit ∈ tag :: tags)).
  { intros H. destruct (IH _ H) as [?|[? ?]]; [now left|].
    right. split; [assumption|now apply list_elem_of_further]. }
  destruct (negb _); [exact Hskip|].
  destruct (Nat.ltb _ 2); [exact Hskip|].
  destruct (String.eqb_spec
              (slugRepoImageMetadataByCommitImageRecordTag LimitedSlug imageName
                 (List.last (Split (TrimPrefix tag
                    RepoImageMetadataByCommitRecord_ImageTagPrefix) "-"%char) ""))
              tag) as [Heq|_]; [|exact Hskip].
  intros H. destruct (IH _ H) as [Hin|[? ?]].
  - apply elem_of_app in Hin as [Hin|Hin]; [now left|].
    apply list_elem_of_singleton in Hin. subst commit. right.
    split; [apply Split_last_no_sep|]. rewrite Heq. apply list_elem_of_here.
  - right. split; [assumption|now apply list_elem_of_further].
Qed.

Lemma GetImageCommits_loop_keeps (LimitedSlug : string -> Z -> string)
    (imageName : string) (tags : list string) (res : list string) (commit : string) :
  commit ∈ res -> commit ∈ GetImageCommits_loop LimitedSlug imageName tags res.
Proof.
  revert res. induction tags as [|tag tags IH]; intros res Hin; [exact Hin|].
  cbn -[HasPrefix TrimPrefix Split List.last String.eqb Nat.ltb length].
  destruct (negb _); [now apply IH|].
  destruct (Nat.ltb _ 2); [now apply IH|].
  destruct (String.eqb _ tag); apply IH; [|exact Hin].
  apply elem_of_app. now left.
Qed.

Lemma GetImageCommits_loop_complete (LimitedSlug : string -> Z -> string)
    (imageName : string) (tags : list string) (res : list string) (commit : string) :
  ContainsByte commit "-"%char = false ->
  slugRepoImageMetadataByCommitImageRecordTag LimitedSlug imageName commit ∈ tags ->
  commit ∈ GetImageCommits_loop LimitedSlug imageName tags res.
Proof.
  intros Hc. revert res. induction tags as [|tag tags IH]; intros res Hin.
  - now apply elem_of_nil in Hin.
  - apply elem_of_cons in Hin as [Heq|Hin].
    + subst tag.
      cbn -[HasPrefix TrimPrefix Split List.last String.eqb Nat.ltb length].
      destruct (metadata_tag_shape LimitedSlug imageName commit) as (name & Hshape).
      rewrite Hshape, HasPrefix_app, TrimPrefix_app.
      cbn [negb].
      destruct (Split_app_last name commit "-"%char Hc) as [Hlast Hlen].
      apply Nat.ltb_ge in Hlen. rewrite Hlen, Hlast, Hshape, String.eqb_refl.
      apply GetImageCommits_loop_keeps, elem_of_app. right. apply list_elem_of_here.
    + cbn -[HasPrefix TrimPrefix Split List.last String.eqb Nat.ltb length].
      destruct (negb _); [now apply IH|].
      destruct (Nat.ltb _ 2); [now apply IH|].
      destruct (String.eqb _ tag); now apply IH.
Qed.

(** X5: [GetImageCommits] reads back the commits recorded for an image.
    When the registry lists its tags, the call succeeds; every commit it
    returns holds no hyphen and its metadata record tag for the image is
    among the listed tags; and every hyphen-free commit whose metadata
    record tag for the image is listed is returned. *)
Theorem GetImageCommits_recorded_commits (LimitedSlug : string -> Z -> string)
    (storage : RepoStagesStorage) (projectName imageName : string)
    (tags : list string) :
  Tags (Registry storage) (RepoAddress storage) = Ok tags ->
  exists commits,
    GetImageCommits LimitedSlug storage projectName imageName = Ok commits
    /\ (forall commit,
          commit ∈ commits ->
          ContainsByte commit "-"%char = false
          /\ slugRepoImageMetadataByCommitImageRecordTag LimitedSlug imageName commit
             ∈ tags)
    /\ (forall commit,
          ContainsByte commit "-"%char = false ->
          slugRepoImageMetadataByCommitImageRecordTag LimitedSlug imageName commit
          ∈ tags ->
          commit ∈ commits).
Proof.
  intros Htags. unfold GetImageCommits. rewrite Htags.
  eexists. split; [reflexivity|]. split.
  - intros commit Hin.
    destruct (GetImageCommits_loop_sound _ _ _ _ _ Hin) as [Hnil|H]; [|exact H].
    now apply elem_of_nil in Hnil.
  - intros commit Hc Hin. now apply GetImageCommits_loop_complete.
Qed.

Lemma GetImageCommits_recorded_commits_witness :
  exists commits,
    GetImageCommits truncatingSlug
      (mkRepoStagesStorage "repo"
         (registryWithTags ["abc123-1700000000000";
                            "image-metadata-by-commit-app-c0ffee";
                            "image-metadata-by-commit-api-decade"]))
      "project" "app" = Ok commits
    /\ "c0ffee" ∈ commits.
Proof.
  destruct (GetImageCommits_recorded_commits truncatingSlug
              (mkRepoStagesStorage "repo"
                 (registryWithTags ["abc123-1700000000000";
                                    "image-metadata-by-commit-app-c0ffee";
                                    "image-metadata-by-commit-api-decade"]))
              "project" "app" _ eq_refl) as (commits & Hrun & _ & Hall).
  exists commits. split; [exact Hrun|].
  apply Hall; [reflexivity|]. apply list_elem_of_further, list_elem_of_here.
Defined.

End StorageExtra.


(** * Further properties of the cleanup engine *)

Module CleaningExtra.
Import GoStrings Image Storage Cleaning CleaningFacts.

Local Open Scope list_scope.
Local Open Scope go_scope.

(** ** The Kubernetes probe *)

Lemma containerImages_Ok (listed : result (list (list string))) (kind : string)
    (images : list string) :
  containerImages listed kind = Ok images <->
  exists items, listed = Ok items /\ images = concat items.
Proof.
  unfold containerImages. destruct listed as [items|e|p]; split.
  - intros [= <-]. eauto.
  - intros (items' & [= <-] & ->). reflexivity.
  - discriminate.
  - intros (? & ? & _). discriminate.
  - discriminate.
  - intros (? & ? & _). discriminate.
Qed.









(** ** Reads that fail *)

(** X7: a read that fails aborts the cleanup run before any deletion.  Once
    the host lock is held, when the images repository cannot list the repo
    images, when the image metadata cannot be fetched (git history mode),
    or when the Kubernetes probe is enabled and fails, the run returns that
    error, and all it has done is to take and release the lock. *)
Theorem failed_read_aborts_cleanup (heap : ptr -> Info) (env : Env)
    (m : imagesCleanupManager) (tr : Trace) (e : string) :
  let lockName := "images-cleanup." +:+ ImagesRepoString m in
  acquireHostLock env tr lockName = None ->
  selectRepoImagesFromImagesRepo env (ImageNameList m) = Err e
  \/ (GitHistoryBasedCleanup m || GitHistoryBasedCleanupV12 m = true
      /\ (exists repoImages,
             selectRepoImagesFromImagesRepo env (ImageNameList m) = Ok repoImages)
      /\ initImageCommitHashImageMetadata_loop env (ImageNameList m) ∅ = Err e)
  \/ (LocalGit m <> None /\ WithoutKube m = false
      /\ (exists m1,
             initRepoImagesData env m (tr ++ [EvHostLockAcquire lockName])
             = (Ok m1, tr ++ [EvHostLockAcquire lockName]))
      /\ getDeployedDockerImagesNames (KubernetesContextsClients m) = Err e) ->
  imagesCleanup_run heap env m tr
  = (Err e, tr ++ [EvHostLockAcquire lockName; EvHostLockRelease lockName]).
Proof.
  intros lockName Hlock Hfail.
  unfold imagesCleanup_run, WithHostLock. fold lockName. rewrite Hlock.
  unfold bind at 1.
  destruct Hfail as [Hsel|[(Hmode & (repoImages & Hsel) & Hmeta)
                          |(Hgit & Hkube & (m1 & Hinit) & Hprobe)]].
  - unfold initRepoImagesData, bind, lift. rewrite Hsel.
    now rewrite <- app_assoc.
  - unfold initRepoImagesData, bind, lift. rewrite Hsel.
    cbn [GitHistoryBasedCleanup GitHistoryBasedCleanupV12 setImageRepoImageList
         ImageNameList].
    rewrite Hmode, Hmeta. now rewrite <- app_assoc.
  - destruct (initRepoImagesData_fetch env m (tr ++ [EvHostLockAcquire lockName]))
      as (r & Hr & Hfacts).
    rewrite Hinit in Hr. injection Hr as <-.
    destruct (Hfacts m1 eq_refl) as (_ & Hgit1 & Hkube1 & Hclients).
    rewrite Hinit. destruct (LocalGit m1) as [git|] eqn:E; [|congruence].
    rewrite Hkube1, Hkube, Hclients. cbn [negb].
    unfold exceptRepoImagesByWhitelist, bind, lift. rewrite Hprobe.
    now rewrite <- app_assoc.
Qed.

Lemma failed_read_aborts_cleanup_witness :
  imagesCleanup_run demoHeap demoEnv
    (mkManager ∅ ∅ "project" ["app"] (Some demoGit)
       {[ "production" :=
            mkKubeClient (Ok [["repo/app:c1"]]) (Ok []) (Err "forbidden") (Ok [])
              (Ok []) (Ok []) (Ok []) (Ok []) ]}
       false limit3Policies false false [] false "repo") []
  = (Err "cannot get deployed imagesRepoImageList: cannot get Deployments images: forbidden",
     [EvHostLockAcquire "images-cleanup.repo"; EvHostLockRelease "images-cleanup.repo"]).
Proof.
  apply (failed_read_aborts_cleanup demoHeap demoEnv
           (mkManager ∅ ∅ "project" ["app"] (Some demoGit)
              {[ "production" :=
                   mkKubeClient (Ok [["repo/app:c1"]]) (Ok []) (Err "forbidden") (Ok [])
                     (Ok []) (Ok []) (Ok []) (Ok []) ]}
              false limit3Policies false false [] false "repo") []).
  - reflexivity.
  - right; right. split; [discriminate|]. split; [reflexivity|].
    split; [eexists; reflexivity|reflexivity].
Defined.

(** ** The dry-run flag *)

Section EmitsOnly.

Variable E : Event -> Prop.

Lemma eo_ret {A} (a : A) : emitsOnly E (ret a).
Proof. intros tr. exists []. cbn. now rewrite app_nil_r. Qed.

Lemma eo_lift {A} (r : result A) : emitsOnly E (lift r).
Proof. intros tr. exists []. cbn. now rewrite app_nil_r. Qed.

Lemma eo_reads {A} (c : M A) :
  (forall tr, (c tr).2 = tr) -> emitsOnly E c.
Proof. intros H tr. exists []. rewrite H. now rewrite app_nil_r. Qed.

Lemma eo_emit (ev : Event) : E ev -> emitsOnly E (emit ev).
Proof. intros H tr. exists [ev]. cbn. split; [reflexivity|now constructor]. Qed.

Lemma eo_tryCall (ev : Event) (answer : Trace -> option string) :
  E ev -> emitsOnly E (tryCall ev answer).
Proof. intros H tr. exists [ev]. cbn. split; [reflexivity|now constructor]. Qed.

Lemma eo_bind {A B} (c : M A) (f : A -> M B) :
  emitsOnly E c -> (forall a, emitsOnly E (f a)) -> emitsOnly E (bind c f).
Proof.
  intros Hc Hf tr. unfold bind. destruct (Hc tr) as (evs1 & H1 & HE1).
  destruct (c tr) as [[a|e|p] tr1]; cbn [snd] in H1; subst tr1; [|eauto..].
  destruct (Hf a (tr ++ evs1)) as (evs2 & H2 & HE2).
  exists (evs1 ++ evs2). rewrite H2, app_assoc. split; [reflexivity|].
  now apply Forall_app.
Qed.

(** A computation that only reads, and whose value is known to satisfy
    [Q]. *)
Lemma eo_bind_reads {A B} (Q : A -> Prop) (c : M A) (f : A -> M B) :
  (forall tr, exists r, c tr = (r, tr) /\ forall a, r = Ok a -> Q a) ->
  (forall a, Q a -> emitsOnly E (f a)) ->
  emitsOnly E (bind c f).
Proof.
  intros Hc Hf tr. unfold bind. destruct (Hc tr) as (r & -> & HQ).
  destruct r as [a|e|p].
  - apply Hf. now apply HQ.
  - exists []. cbn. now rewrite app_nil_r.
  - exists []. cbn. now rewrite app_nil_r.
Qed.

Lemma eo_call (ev : Event) (answer : Trace -> option string) :
  E ev -> emitsOnly E (call ev answer).
Proof.
  intros H. unfold call. apply eo_bind; [now apply eo_tryCall|].
  intros [e|]; [apply eo_lift|apply eo_ret].
Qed.

Lemma eo_foldM {A S} (f : S -> A -> M S) (l : list A) (s : S) :
  (forall s a, emitsOnly E (f s a)) -> emitsOnly E (foldM f l s).
Proof.
  intros Hf. revert s. induction l as [|a l IH]; intros s; cbn [foldM].
  - apply eo_ret.
  - apply eo_bind; [apply Hf|exact IH].
Qed.

Lemma eo_WithHostLock {A} (env : Env) (name : string) (c : M A) :
  E (EvHostLockAcquire name) -> E (EvHostLockRelease name) ->
  emitsOnly E c -> emitsOnly E (WithHostLock env name c).
Proof.
  intros Ha Hr Hc tr. unfold WithHostLock.
  destruct (acquireHostLock env tr name).
  - exists []. cbn. now rewrite app_nil_r.
  - destruct (Hc (tr ++ [EvHostLockAcquire name])) as (evs & Htr & HE).
    destruct (c (tr ++ [EvHostLockAcquire name])) as [r tr1]. cbn in *. subst tr1.
    exists ([EvHostLockAcquire name] ++ evs ++ [EvHostLockRelease name]).
    split; [now rewrite <- !app_assoc|].
    apply Forall_app. split; [now constructor|].
    apply Forall_app. split; [exact HE|now constructor].
Qed.

End EmitsOnly.

Section DryRun.

Variable heap : ptr -> Info.
Variable env : Env.
Variable m : imagesCleanupManager.

Lemma eo_deleteRepoImages (images : list ptr) :
  emitsOnly (cleanupEventUnder (DryRun m)) (deleteRepoImages env (DryRun m) images).
Proof. unfold deleteRepoImages. now apply eo_call. Qed.

Lemma eo_deleteAndExcept (repoImages images : list ptr) :
  emitsOnly (cleanupEventUnder (DryRun m)) (deleteAndExcept env (DryRun m) repoImages images).
Proof.
  unfold deleteAndExcept. destruct images; [apply eo_ret|].
  apply eo_bind; [apply eo_deleteRepoImages|]. intros _. apply eo_ret.
Qed.

Lemma eo_repoImagesCleanupByNonexistentGitPrimitive (repoImages : list ptr) :
  emitsOnly (cleanupEventUnder (DryRun m)) (repoImagesCleanupByNonexistentGitPrimitive heap env m repoImages).
Proof.
  unfold repoImagesCleanupByNonexistentGitPrimitive.
  apply eo_bind; [apply eo_lift|]. intros lists.
  apply eo_bind; [apply eo_lift|]. intros found.
  apply eo_bind; [apply eo_deleteAndExcept|]. intros r1.
  apply eo_bind; [apply eo_deleteAndExcept|]. intros r2.
  apply eo_deleteAndExcept.
Qed.

Lemma eo_repoImagesCleanupByPolicy (options : repoImagesCleanupByPolicyOptions)
    (repoImages repoImagesWithScheme : list ptr) :
  emitsOnly (cleanupEventUnder (DryRun m))
    (repoImagesCleanupByPolicy heap env m repoImages repoImagesWithScheme options).
Proof.
  unfold repoImagesCleanupByPolicy.
  apply eo_bind.
  { destruct (hasExpiryPeriod options); [|apply eo_ret].
    apply eo_bind; [now apply eo_reads|]. intros t. apply eo_ret. }
  intros expiryTime.
  destruct (splitExpired heap (hasExpiryPeriod options) expiryTime
              (sortByCreatedAt heap repoImagesWithScheme) [] [])
    as [notExpired expired].
  apply eo_bind; [apply eo_deleteAndExcept|]. intros r1.
  destruct (hasLimit options && (limit options <? Z.of_nat (length notExpired)));
    [|apply eo_ret].
  apply eo_bind; [apply eo_lift|]. intros excess.
  apply eo_bind; [apply eo_deleteRepoImages|]. intros _. apply eo_ret.
Qed.

Lemma eo_repoImagesCleanupByPolicies (repoImages : list ptr) :
  emitsOnly (cleanupEventUnder (DryRun m)) (repoImagesCleanupByPolicies heap env m repoImages).
Proof.
  unfold repoImagesCleanupByPolicies.
  destruct (splitByScheme heap repoImages ([], [], [])) as [[a b] c].
  apply eo_bind; [apply eo_repoImagesCleanupByPolicy|]. intros r1.
  apply eo_bind; [apply eo_repoImagesCleanupByPolicy|]. intros r2.
  apply eo_repoImagesCleanupByPolicy.
Qed.

Lemma eo_repoImagesCleanup (repoImagesToCleanup : gmap string (list ptr)) :
  emitsOnly (cleanupEventUnder (DryRun m)) (repoImagesCleanup heap env m repoImagesToCleanup).
Proof.
  unfold repoImagesCleanup. apply eo_foldM. intros res [imageName l].
  unfold repoImagesCleanup_step.
  apply eo_bind; [apply eo_repoImagesCleanupByNonexistentGitPrimitive|]. intros l1.
  apply eo_bind; [apply eo_repoImagesCleanupByPolicies|]. intros l2. apply eo_ret.
Qed.

Lemma eo_repoImagesGitHistoryBasedCleanup
    (repoImagesToCleanup : gmap string (list ptr)) :
  emitsOnly (cleanupEventUnder (DryRun m)) (repoImagesGitHistoryBasedCleanup heap env m repoImagesToCleanup).
Proof.
  unfold repoImagesGitHistoryBasedCleanup.
  apply eo_bind; [apply eo_lift|]. intros gitRepository.
  apply eo_bind; [apply eo_lift|]. intros referencesToScan.
  apply eo_bind; [apply eo_lift|]. intros hashes.
  apply eo_bind.
  { apply eo_foldM. intros acc [imageName l]. unfold withoutMetadata_step.
    destruct (GitHistoryBasedCleanupV12 m); [apply eo_ret|].
    apply eo_bind; [|intros ?; apply eo_ret].
    destruct l; [apply eo_ret|].
    unfold warnTagsWithoutMetadata. cbn [foldM].
    apply eo_bind; [now apply eo_emit|]. intros ?.
    apply eo_bind; [now apply eo_emit|]. intros ?. apply eo_ret. }
  intros st.
  apply eo_bind.
  { apply eo_foldM. intros res [imageName l]. unfold historyScan_step.
    apply eo_bind.
    - destruct (bool_decide _).
      + apply eo_bind; [apply eo_lift|]. intros reached.
        apply eo_bind; [apply eo_lift|]. intros keep. apply eo_ret.
      + apply eo_bind; [now apply eo_emit|]. intros _. apply eo_ret.
    - intros scanned.
      apply eo_bind; [apply eo_deleteRepoImages|]. intros _. apply eo_ret. }
  intros res.
  apply eo_bind; [|intros ?; apply eo_ret].
  unfold deleteUnusedImagesMetadata. apply eo_foldM. intros ? [imageName commits].
  apply eo_foldM. intros ? commitHash. unfold rmImageCommit_step.
  destruct (DryRun m) eqn:Hdry; [now apply eo_emit|].
  apply eo_bind; [now apply eo_tryCall|].
  intros [e|]; [now apply eo_emit|apply eo_ret].
Qed.

End DryRun.

Lemma initRepoImagesData_keeps_flags (env : Env) (m : imagesCleanupManager)
    (tr : Trace) :
  exists r,
    initRepoImagesData env m tr = (r, tr)
    /\ forall m1, r = Ok m1 -> DryRun m1 = DryRun m.
Proof.
  unfold initRepoImagesData, bind, lift, ret.
  destruct (selectRepoImagesFromImagesRepo env (ImageNameList m)) as [ri|e|p];
    [|eexists; split; [reflexivity|discriminate]..].
  cbn [GitHistoryBasedCleanup GitHistoryBasedCleanupV12 setImageRepoImageList
       ImageNameList].
  destruct (GitHistoryBasedCleanup m || GitHistoryBasedCleanupV12 m).
  - destruct (initImageCommitHashImageMetadata_loop env (ImageNameList m) ∅);
      eexists; (split; [reflexivity|]); try discriminate.
    intros m1 [= <-]. reflexivity.
  - eexists. split; [reflexivity|]. intros m1 [= <-]. reflexivity.
Qed.

Lemma eo_imagesCleanup_run (heap : ptr -> Info) (env : Env)
    (m : imagesCleanupManager) :
  emitsOnly (cleanupEventUnder (DryRun m)) (imagesCleanup_run heap env m).
Proof.
  unfold imagesCleanup_run. apply eo_WithHostLock; [exact I..|].
  apply eo_bind_reads with (Q := fun m1 => DryRun m1 = DryRun m);
    [apply initRepoImagesData_keeps_flags|].
  intros m1 Hdry. destruct (LocalGit m1).
  - apply eo_bind.
    { destruct (negb (WithoutKube m1)); [|apply eo_ret].
      unfold exceptRepoImagesByWhitelist.
      apply eo_bind; [apply eo_lift|]. intros ?. apply eo_ret. }
    intros split. apply eo_bind; [|intros ?; apply eo_ret].
    rewrite <- Hdry.
    destruct (GitHistoryBasedCleanup m1 || GitHistoryBasedCleanupV12 m1).
    + apply eo_repoImagesGitHistoryBasedCleanup.
    + apply eo_repoImagesCleanup.
  - apply eo_bind; [now apply eo_emit|]. intros ?. apply eo_ret.
Qed.

(** X8: the cleanup run passes its dry-run flag on.  Whatever the
    collaborators answer and in both cleanup modes, every deletion of repo
    images that the run asks for carries the dry-run flag of the manager, a
    removal of a metadata record is asked for only with the flag off, and
    the run never asks to delete a stage or a managed image record. *)
Theorem cleanup_passes_dry_run_on (heap : ptr -> Info) (env : Env)
    (m : imagesCleanupManager) (tr : Trace) :
  exists evs,
    (imagesCleanup_run heap env m tr).2 = tr ++ evs
    /\ Forall (cleanupEventUnder (DryRun m)) evs
    /\ (DryRun m = true ->
        forall ev, ev ∈ evs ->
          match ev with
          | EvDeleteRepoImages dryRun _ => dryRun = true
          | EvRmImageCommit _ _ | EvDeleteStages _ _ | EvRmManagedImage _ => False
          | _ => True
          end).
Proof.
  destruct (eo_imagesCleanup_run heap env m tr) as (evs & Htr & HE).
  exists evs. split; [exact Htr|]. split; [exact HE|].
  intros Hdry ev Hev. rewrite Forall_forall in HE. specialize (HE ev Hev).
  rewrite Hdry in HE. destruct ev; cbn in HE; auto; discriminate.
Qed.

Lemma cleanup_passes_dry_run_on_witness :
  exists evs,
    (imagesCleanup_run demoHeap demoEnv
       (mkManager ∅ ∅ "project" ["app"] (Some demoGit) ∅ true limit3Policies
          false false [] true "repo") []).2 = [] ++ evs
    /\ Forall (cleanupEventUnder true) evs.
Proof.
  destruct (cleanup_passes_dry_run_on demoHeap demoEnv
              (mkManager ∅ ∅ "project" ["app"] (Some demoGit) ∅ true limit3Policies
                 false false [] true "repo") [])
    as (evs & Htr & HE & _).
  exists evs. split; [exact Htr|exact HE].
Defined.

(** ** The stages purge *)

Lemma eo_stagesPurge_run (env : Env) (pm : stagesPurgeManager) :
  emitsOnly (purgeEventUnder (PurgeDryRun pm)) (stagesPurge_run env pm).
Proof.
  unfold stagesPurge_run. apply eo_WithHostLock; [exact I..|].
  apply eo_bind; [apply eo_lift|]. intros stages.
  apply eo_bind; [now apply eo_call|]. intros ?.
  apply eo_bind; [apply eo_lift|]. intros managedImages.
  apply eo_foldM. intros ? managedImage. unfold rmManagedImage_step.
  apply eo_bind; [|intros ?; now apply eo_emit].
  destruct (PurgeDryRun pm) eqn:Hdry; [apply eo_ret|now apply eo_call].
Qed.

(** X9: the stages purge passes its dry-run flag on.  Whatever the
    collaborators answer, the deletion of stages that the purge asks for
    carries the dry-run flag of the manager, a removal of a managed image
    record is asked for only with the flag off, and the purge never asks to
    delete a repo image or a metadata record. *)
Theorem purge_passes_dry_run_on (env : Env) (pm : stagesPurgeManager) (tr : Trace) :
  exists evs,
    (stagesPurge_run env pm tr).2 = tr ++ evs
    /\ Forall (purgeEventUnder (PurgeDryRun pm)) evs
    /\ (PurgeDryRun pm = true ->
        forall ev, ev ∈ evs ->
          match ev with
          | EvDeleteStages dryRun _ => dryRun = true
          | EvRmManagedImage _ | EvDeleteRepoImages _ _ | EvRmImageCommit _ _ => False
          | _ => True
          end).
Proof.
  destruct (eo_stagesPurge_run env pm tr) as (evs & Htr & HE).
  exists evs. split; [exact Htr|]. split; [exact HE|].
  intros Hdry ev Hev. rewrite Forall_forall in HE. specialize (HE ev Hev).
  rewrite Hdry in HE. destruct ev; cbn in HE; auto; discriminate.
Qed.

Lemma purge_passes_dry_run_on_witness :
  exists evs,
    (stagesPurge_run demoEnv (mkPurgeManager "project" false true) []).2 = [] ++ evs
    /\ Forall (purgeEventUnder true) evs.
Proof.
  destruct (purge_passes_dry_run_on demoEnv (mkPurgeManager "project" false true) [])
    as (evs & Htr & HE & _).
  exists evs. split; [exact Htr|exact HE].
Defined.

Lemma rmManagedImage_loop_dry_run (env : Env) (pm : stagesPurgeManager)
    (managedImages : list string) (tr : Trace) :
  PurgeDryRun pm = true ->
  foldM (rmManagedImage_step env pm) managedImages tt tr
  = (Ok tt, tr ++ flat_map (fun managedImage => drop 1 (managedImageRemoved managedImage))
                    managedImages).
Proof.
  intros Hdry. revert tr. induction managedImages as [|x xs IH]; intros tr.
  - cbn. unfold ret. now rewrite app_nil_r.
  - cbn [foldM]. unfold bind at 1.
    assert (Hx : rmManagedImage_step env pm tt x tr
                 = (Ok tt, tr ++ drop 1 (managedImageRemoved x))).
    { unfold rmManagedImage_step. rewrite Hdry. reflexivity. }
    rewrite Hx, IH. cbn [flat_map]. now rewrite <- app_assoc.
Qed.

(** X10: a purge that meets no error removes every managed image record,
    once and in the order listed.  When the lock is acquired, the stages
    and the managed images are listed, and the deletion of the stages and
    (outside dry-run) every removal succeed, the run returns success; its
    events are: the lock, one deletion of all the stages with the dry-run
    flag, for every managed image in order its removal (left out in
    dry-run) and its log line, the lock release. *)
Theorem purge_removes_every_managed_image (env : Env) (pm : stagesPurgeManager)
    (tr : Trace) (stages : list StageID) (managedImages : list string) :
  let lockName := "stages-purge." +:+ PurgeProjectName pm in
  acquireHostLock env tr lockName = None ->
  StagesManager_GetAllStages env = Ok stages ->
  deleteStageInStagesStorage env (tr ++ [EvHostLockAcquire lockName])
    (PurgeDryRun pm) stages = None ->
  StagesStorage_GetManagedImages env = Ok managedImages ->
  (PurgeDryRun pm = false ->
   forall tr' managedImage,
     managedImage ∈ managedImages ->
     StagesStorage_RmManagedImage env tr' managedImage = None) ->
  stagesPurge_run env pm tr
  = (Ok tt,
     tr ++ [EvHostLockAcquire lockName; EvDeleteStages (PurgeDryRun pm) stages]
        ++ flat_map (fun managedImage =>
                       if PurgeDryRun pm
                       then drop 1 (managedImageRemoved managedImage)
                       else managedImageRemoved managedImage) managedImages
        ++ [EvHostLockRelease lockName]).
Proof.
  intros lockName Hlock Hstages Hdel Hmanaged Hok.
  unfold stagesPurge_run, WithHostLock. fold lockName. rewrite Hlock.
  unfold bind at 1. unfold lift at 1. rewrite Hstages.
  unfold bind at 1. unfold call at 1. unfold bind at 1. unfold tryCall at 1.
  rewrite Hdel. unfold ret at 1.
  unfold bind at 1. unfold lift at 1. rewrite Hmanaged.
  destruct (PurgeDryRun pm) eqn:Hdry.
  - rewrite (rmManagedImage_loop_dry_run env pm managedImages _ Hdry).
    f_equal. now rewrite <- !app_assoc.
  - rewrite (rmManagedImage_loop_ok env pm managedImages _ Hdry (Hok eq_refl)).
    f_equal. now rewrite <- !app_assoc.
Qed.

Lemma purge_removes_every_managed_image_witness :
  stagesPurge_run demoEnv (mkPurgeManager "project" false false) []
  = (Ok tt,
     [EvHostLockAcquire "stages-purge.project"; EvDeleteStages false [];
      EvRmManagedImage "backend"; EvLog "  tag: backend";
      EvRmManagedImage "frontend"; EvLog "  tag: frontend";
      EvHostLockRelease "stages-purge.project"]).
Proof.
  exact (purge_removes_every_managed_image demoEnv
           (mkPurgeManager "project" false false) [] [] ["backend"; "frontend"]
           eq_refl eq_refl eq_refl eq_refl (fun _ _ _ _ => eq_refl)).
Defined.

(** ** Cleanup by nonexistent git primitive *)

Lemma dw_deleteAndExcept_any (env : Env) (P : ptr -> Prop) (dryRun : bool)
    (repoImages images : list ptr) :
  Forall P images ->
  deletesWithin P (deleteAndExcept env dryRun repoImages images) (fun _ => True).
Proof.
  intros Hi. unfold deleteAndExcept. destruct images as [|q l].
  - now apply dw_ret.
  - eapply dw_bind; [apply dw_deleteRepoImages; exact Hi|].
    intros ? _. now apply dw_ret.
Qed.

(** A deletion of a list that succeeds: the list is what the trace asks to
    delete, and the images returned are the others. *)
Lemma deleteAndExcept_Ok_inv (env : Env) (dryRun : bool)
    (repoImages images res : list ptr) (tr tr' : Trace) :
  deleteAndExcept env dryRun repoImages images tr = (Ok res, tr') ->
  res = exceptRepoImageList repoImages images
  /\ exists evs, tr' = tr ++ evs /\ deletedImages evs = images.
Proof.
  unfold deleteAndExcept. destruct images as [|q l].
  - unfold ret. intros [= <- <-]. split; [now rewrite exceptRepoImageList_nil|].
    exists []. now rewrite app_nil_r.
  - intros H. apply bind_Ok_inv in H as ([] & tr1 & Hdel & Hret).
    unfold ret in Hret. injection Hret as <- <-. split; [reflexivity|].
    pose proof (deleteRepoImages_trace env dryRun (q :: l) tr) as Htr.
    rewrite Hdel in Htr. cbn [snd] in Htr. subst tr1.
    eexists. split; [reflexivity|]. cbn. now rewrite app_nil_r.
Qed.

Section NonexistentGitPrimitive.

Variable heap : ptr -> Info.
Variable env : Env.
Variable localGit : option GitRepo.
Variables gitTags gitBranches : list string.

(** The tag that names the git primitive of an image. *)
Let metaTag (p : ptr) : string :=
  match label (heap p) WerfImageTagLabel with
  | Some t => t
  | None => Tag (heap p)
  end.

(** The answer of the check of the commit of an image, as the loop takes
    it. *)
Let commitFound (p : ptr) : result bool :=
  match localGit with
  | None => Ok false
  | Some git =>
      match IsCommitExists git (metaTag p) with
      | Ok b => Ok b
      | Err e => if HasPrefix e "bad commit hash" then Ok false else Err e
      | Panic msg => Panic msg
      end
  end.

Let goneTag (p : ptr) : Prop :=
  label (heap p) WerfTagStrategyLabel = Some GitTag
  /\ repoImageMetaTagMatch env (metaTag p) gitTags = false.

Let goneBranch (p : ptr) : Prop :=
  label (heap p) WerfTagStrategyLabel = Some GitBranch
  /\ repoImageMetaTagMatch env (metaTag p) gitBranches = false.

Let goneCommit (p : ptr) : Prop :=
  label (heap p) WerfTagStrategyLabel = Some GitCommit
  /\ commitFound p = Ok false.

Ltac split_cases :=
  intros;
  repeat match goal with
         | H : _ /\ _ |- _ => destruct H
         | H : _ \/ _ |- _ => destruct H
         end;
  subst; try congruence;
  try (unfold GitTag, GitBranch, GitCommit, StagesSignature in *; congruence);
  auto 6.

Lemma nonexistentGitPrimitive_loop_elem_of (repoImages : list ptr)
    (acc found : list ptr * list ptr * list ptr) :
  nonexistentGitPrimitive_loop heap env localGit gitTags gitBranches repoImages acc
    = Ok found ->
  forall p,
    (p ∈ found.1.1 <-> p ∈ acc.1.1 \/ (p ∈ repoImages /\ goneTag p))
    /\ (p ∈ found.1.2 <-> p ∈ acc.1.2 \/ (p ∈ repoImages /\ goneBranch p))
    /\ (p ∈ found.2 <-> p ∈ acc.2 \/ (p ∈ repoImages /\ goneCommit p)).
Proof.
  revert acc. induction repoImages as [|q l IH]; intros [[a b] c].
  - cbn. intros [= <-] p. cbn. rewrite !elem_of_nil. tauto.
  - cbn [nonexistentGitPrimitive_loop]. fold (metaTag q).
    intros Hloop p.
    destruct (label (heap q) WerfTagStrategyLabel) as [strategy|] eqn:Hlabel.
    2:{ destruct (IH _ Hloop p) as (H1 & H2 & H3). rewrite H1, H2, H3.
        unfold goneTag, goneBranch, goneCommit. cbn [fst snd].
        rewrite !elem_of_cons. repeat split; split_cases. }
    destruct (String.eqb_spec strategy GitTag) as [->|Hn1].
    { destruct (repoImageMetaTagMatch env (metaTag q) gitTags) eqn:Hm;
        destruct (IH _ Hloop p) as (H1 & H2 & H3); rewrite H1, H2, H3;
        unfold goneTag, goneBranch, goneCommit; cbn [fst snd];
        rewrite ?elem_of_app, ?list_elem_of_singleton, !elem_of_cons;
        repeat split; split_cases. }
    destruct (String.eqb_spec strategy GitBranch) as [->|Hn2].
    { destruct (repoImageMetaTagMatch env (metaTag q) gitBranches) eqn:Hm;
        destruct (IH _ Hloop p) as (H1 & H2 & H3); rewrite H1, H2, H3;
        unfold goneTag, goneBranch, goneCommit; cbn [fst snd];
        rewrite ?elem_of_app, ?list_elem_of_singleton, !elem_of_cons;
        repeat split; split_cases. }
    destruct (String.eqb_spec strategy GitCommit) as [->|Hn3].
    { fold (commitFound q) in Hloop.
      destruct (commitFound q) as [[|]| |] eqn:Hm; try discriminate;
        destruct (IH _ Hloop p) as (H1 & H2 & H3); rewrite H1, H2, H3;
        unfold goneTag, goneBranch, goneCommit; cbn [fst snd];
        rewrite ?elem_of_app, ?list_elem_of_singleton, !elem_of_cons;
        repeat split; split_cases. }
    destruct (IH _ Hloop p) as (H1 & H2 & H3). rewrite H1, H2, H3.
    unfold goneTag, goneBranch, goneCommit. cbn [fst snd].
    rewrite !elem_of_cons. repeat split; split_cases.
Qed.

End NonexistentGitPrimitive.

(** X11: what the cleanup by nonexistent git primitive deletes.  With the
    tags and the remote branches of the local git repository listed, an
    image is gone when it is tagged by git tag and no git tag matches its
    meta tag, or tagged by git branch and no remote branch matches, or
    tagged by git commit and the commit does not exist (or its hash is
    bad).  Whatever the images repository answers, the phase asks to
    delete only images of its list that are gone; when it succeeds it has
    asked to delete every one of them, and it returns exactly the images
    of its list that are not gone. *)
Theorem nonexistent_git_primitive_cleanup (heap : ptr -> Info) (env : Env)
    (m : imagesCleanupManager) (git : GitRepo) (gitTags gitBranches : list string)
    (repoImages : list ptr) (tr : Trace) :
  LocalGit m = Some git ->
  TagsList git = Ok gitTags ->
  RemoteBranchesList git = Ok gitBranches ->
  let metaTag := fun p =>
    match label (heap p) WerfImageTagLabel with
    | Some t => t
    | None => Tag (heap p)
    end in
  let gone := fun p =>
    (label (heap p) WerfTagStrategyLabel = Some GitTag
     /\ repoImageMetaTagMatch env (metaTag p) gitTags = false)
    \/ (label (heap p) WerfTagStrategyLabel = Some GitBranch
        /\ repoImageMetaTagMatch env (metaTag p) gitBranches = false)
    \/ (label (heap p) WerfTagStrategyLabel = Some GitCommit
        /\ (IsCommitExists git (metaTag p) = Ok false
            \/ exists e, IsCommitExists git (metaTag p) = Err e
                         /\ HasPrefix e "bad commit hash" = true)) in
  exists evs,
    (repoImagesCleanupByNonexistentGitPrimitive heap env m repoImages tr).2 = tr ++ evs
    /\ (forall p, p ∈ deletedImages evs -> p ∈ repoImages /\ gone p)
    /\ (forall res,
          (repoImagesCleanupByNonexistentGitPrimitive heap env m repoImages tr).1
          = Ok res ->
          forall p,
            (p ∈ res <-> p ∈ repoImages /\ ~ gone p)
            /\ (p ∈ repoImages -> gone p -> p ∈ deletedImages evs)).
Proof.
  intros Hgit Htags Hbranches metaTag gone.
  assert (Hrun :
            repoImagesCleanupByNonexistentGitPrimitive heap env m repoImages tr
            = match nonexistentGitPrimitive_loop heap env (Some git) gitTags
                      gitBranches repoImages ([], [], []) with
              | Ok found =>
                  (r1 <- deleteAndExcept env (DryRun m) repoImages found.1.1 ;;
                   r2 <- deleteAndExcept env (DryRun m) r1 found.1.2 ;;
                   deleteAndExcept env (DryRun m) r2 found.2) tr
              | Err e => (Err e, tr)
              | Panic e => (Panic e, tr)
              end).
  { unfold repoImagesCleanupByNonexistentGitPrimitive.
    rewrite Hgit, Htags, Hbranches. cbn [wrapErr].
    unfold bind at 1. unfold lift at 1. cbn [fst snd].
    unfold bind at 1. unfold lift at 1.
    now destruct (nonexistentGitPrimitive_loop heap env (Some git) gitTags
                    gitBranches repoImages ([], [], [])). }
  rewrite Hrun. clear Hrun.
  destruct (nonexistentGitPrimitive_loop heap env (Some git) gitTags gitBranches
              repoImages ([], [], [])) as [[[A B] C]|e|e] eqn:Hloop.
  2,3: exists []; cbn [fst snd]; rewrite app_nil_r;
       (split; [reflexivity|]); split;
       [intros p Hp; cbn in Hp; inversion Hp|intros res; discriminate].
  pose proof (nonexistentGitPrimitive_loop_elem_of heap env (Some git) gitTags
                gitBranches repoImages _ _ Hloop) as Hfound.
  cbn [fst snd] in Hfound |- *.
  assert (Hsub : forall p, p ∈ A \/ p ∈ B \/ p ∈ C -> p ∈ repoImages).
  { intros p Hp. destruct (Hfound p) as (HA & HB & HC).
    rewrite HA, HB, HC, !elem_of_nil in Hp. tauto. }
  assert (Hgone : forall p,
             p ∈ repoImages ->
             (gone p <-> p ∈ A \/ p ∈ B \/ p ∈ C)).
  { intros p Hp. destruct (Hfound p) as (HA & HB & HC).
    rewrite HA, HB, HC, !elem_of_nil. unfold gone. fold (metaTag p).
    assert (Hcommit :
              match IsCommitExists git (metaTag p) with
              | Ok b => Ok b
              | Err e => if HasPrefix e "bad commit hash" then Ok false else Err e
              | Panic msg => Panic msg
              end = Ok false
              <-> (IsCommitExists git (metaTag p) = Ok false
                   \/ exists e, IsCommitExists git (metaTag p) = Err e
                                /\ HasPrefix e "bad commit hash" = true)).
    { destruct (IsCommitExists git (metaTag p)) as [[|]|e|e].
      - split; [discriminate|]. intros [?|(? & ? & _)]; discriminate.
      - split; [now left|reflexivity].
      - destruct (HasPrefix e "bad commit hash") eqn:Hp'.
        + split; [|reflexivity]. intros _. right. eauto.
        + split; [discriminate|].
          intros [?|(e' & [= <-] & ?)]; [discriminate|congruence].
      - split; [discriminate|]. intros [?|(? & ? & _)]; discriminate. }
    rewrite <- Hcommit. tauto. }
  assert (Hall : forall X, (forall p, p ∈ X -> p ∈ A \/ p ∈ B \/ p ∈ C) ->
                           Forall (fun p => p ∈ repoImages /\ gone p) X).
  { intros X HX. apply Forall_forall. intros p Hp.
    split; [apply Hsub; auto|]. apply Hgone; auto. }
  set (c := (r1 <- deleteAndExcept env (DryRun m) repoImages A ;;
             r2 <- deleteAndExcept env (DryRun m) r1 B ;;
             deleteAndExcept env (DryRun m) r2 C)).
  assert (Hdw : deletesWithin (fun p => p ∈ repoImages /\ gone p) c (fun _ => True)).
  { unfold c.
    eapply dw_bind; [apply dw_deleteAndExcept_any; apply Hall; tauto|].
    intros r1 _.
    eapply dw_bind; [apply dw_deleteAndExcept_any; apply Hall; tauto|].
    intros r2 _. apply dw_deleteAndExcept_any; apply Hall; tauto. }
  destruct (Hdw tr) as (evs & Htr & Hdel & _).
  exists evs. split; [exact Htr|]. split.
  { intros p Hp. rewrite Forall_forall in Hdel. now apply Hdel. }
  intros res Hres. destruct (c tr) as [r tr'] eqn:Hc. cbn [fst snd] in Htr, Hres.
  subst r tr'. unfold c in Hc.
  apply bind_Ok_inv in Hc as (r1 & tr1 & H1 & Hc).
  apply bind_Ok_inv in Hc as (r2 & tr2 & H2 & H3).
  apply deleteAndExcept_Ok_inv in H1 as (-> & e1 & -> & HdA).
  apply deleteAndExcept_Ok_inv in H2 as (-> & e2 & -> & HdB).
  apply deleteAndExcept_Ok_inv in H3 as (-> & e3 & Hevs & HdC).
  rewrite <- !app_assoc in Hevs. apply app_inv_head in Hevs. subst evs.
  rewrite !deletedImages_app, HdA, HdB, HdC.
  intros p. rewrite !(exceptRepoImageList_elem_of heap), !elem_of_app. split.
  - split.
    + intros [[[Hp HnA] HnB] HnC]. split; [exact Hp|].
      rewrite (Hgone p Hp). tauto.
    + intros [Hp Hn]. rewrite (Hgone p Hp) in Hn. tauto.
  - intros Hp Hg. now apply (Hgone p Hp).
Qed.

Lemma nonexistent_git_primitive_cleanup_witness :
  exists evs,
    (repoImagesCleanupByNonexistentGitPrimitive demoHeap demoEnv
       (demoManager (Some (mkGitRepo (Ok ".") (fun commit => Ok (String.eqb commit "c5"))
                             (Ok []) (Ok [])))
          true noPolicies)
       [4; 5]%nat []).2 = [] ++ evs
    /\ forall p, p ∈ deletedImages evs -> p ∈ [4; 5]%nat.
Proof.
  destruct (nonexistent_git_primitive_cleanup demoHeap demoEnv
              (demoManager (Some (mkGitRepo (Ok ".")
                                    (fun commit => Ok (String.eqb commit "c5"))
                                    (Ok []) (Ok [])))
                 true noPolicies)
              _ [] [] [4; 5]%nat [] eq_refl eq_refl eq_refl)
    as (evs & Htr & Hdel & _).
  exists evs. split; [exact Htr|]. intros p Hp. exact (proj1 (Hdel p Hp)).
Defined.

(** ** The cleanup without git history as a whole *)

Section Accounts.

Variable heap : ptr -> Info.
Variable env : Env.

Lemma af_ret (l : list ptr) : accountsFor l (ret l).
Proof.
  intros tr res tr'. unfold ret. intros [= <- <-]. exists [].
  rewrite app_nil_r. auto.
Qed.

Lemma af_bind (l : list ptr) (c : M (list ptr)) (f : list ptr -> M (list ptr)) :
  accountsFor l c -> (forall l', accountsFor l' (f l')) ->
  accountsFor l (bind c f).
Proof.
  intros Hc Hf tr res tr' H. apply bind_Ok_inv in H as (l1 & tr1 & H1 & H2).
  destruct (Hc _ _ _ H1) as (evs1 & -> & Hsub1 & Hall1).
  destruct (Hf l1 _ _ _ H2) as (evs2 & -> & Hsub2 & Hall2).
  exists (evs1 ++ evs2). rewrite app_assoc. split; [reflexivity|].
  split; [auto|]. intros p Hp. rewrite deletedImages_app, elem_of_app.
  destruct (Hall1 p Hp) as [Hp1|Hp1]; [|auto].
  destruct (Hall2 p Hp1); auto.
Qed.

Lemma af_bind_reads {A} (l : list ptr) (c : M A) (f : A -> M (list ptr)) :
  (forall tr a tr', c tr = (Ok a, tr') -> tr' = tr) ->
  (forall a, accountsFor l (f a)) ->
  accountsFor l (bind c f).
Proof.
  intros Hc Hf tr res tr' H. apply bind_Ok_inv in H as (a & tr1 & H1 & H2).
  apply Hc in H1 as ->. exact (Hf a _ _ _ H2).
Qed.

Lemma af_deleteAndExcept (dryRun : bool) (l images : list ptr) :
  accountsFor l (deleteAndExcept env dryRun l images).
Proof.
  intros tr res tr' H.
  apply deleteAndExcept_Ok_inv in H as (-> & evs & -> & Hdel).
  exists evs. split; [reflexivity|]. rewrite Hdel. split.
  - intros p Hp. now apply (exceptRepoImageList_elem_of heap) in Hp.
  - intros p Hp. rewrite (exceptRepoImageList_elem_of heap).
    destruct (decide (p ∈ images)); auto.
Qed.

Lemma af_deleteRepoImages_except (dryRun : bool) (l images : list ptr) :
  accountsFor l (deleteRepoImages env dryRun images ;;
                 ret (exceptRepoImageList l images)).
Proof.
  intros tr res tr' H. apply bind_Ok_inv in H as ([] & tr1 & Hdel & Hret).
  unfold ret in Hret. injection Hret as <- <-.
  pose proof (deleteRepoImages_trace env dryRun images tr) as Htr.
  rewrite Hdel in Htr. cbn [snd] in Htr. subst tr1.
  eexists. split; [reflexivity|]. cbn. rewrite app_nil_r. split.
  - intros p Hp. now apply (exceptRepoImageList_elem_of heap) in Hp.
  - intros p Hp. rewrite (exceptRepoImageList_elem_of heap).
    destruct (decide (p ∈ images)); auto.
Qed.

Lemma af_repoImagesCleanupByNonexistentGitPrimitive (m : imagesCleanupManager)
    (l : list ptr) :
  accountsFor l (repoImagesCleanupByNonexistentGitPrimitive heap env m l).
Proof.
  unfold repoImagesCleanupByNonexistentGitPrimitive.
  apply af_bind_reads; [intros tr a tr' H; now apply lift_Ok_inv in H|].
  intros lists.
  apply af_bind_reads; [intros tr a tr' H; now apply lift_Ok_inv in H|].
  intros found.
  apply af_bind; [apply af_deleteAndExcept|]. intros l1.
  apply af_bind; [apply af_deleteAndExcept|]. intros l2.
  apply af_deleteAndExcept.
Qed.

Lemma af_repoImagesCleanupByPolicy (m : imagesCleanupManager)
    (options : repoImagesCleanupByPolicyOptions) (l repoImagesWithScheme : list ptr) :
  accountsFor l (repoImagesCleanupByPolicy heap env m l repoImagesWithScheme options).
Proof.
  unfold repoImagesCleanupByPolicy.
  apply af_bind_reads.
  { intros tr a tr'. destruct (hasExpiryPeriod options).
    - unfold bind, now, ret. now intros [= _ <-].
    - unfold ret. now intros [= _ <-]. }
  intros expiryTime.
  destruct (splitExpired heap (hasExpiryPeriod options) expiryTime
              (sortByCreatedAt heap repoImagesWithScheme) [] [])
    as [notExpired expired].
  apply af_bind; [apply af_deleteAndExcept|]. intros l1.
  destruct (hasLimit options && (limit options <? Z.of_nat (length notExpired)));
    [|apply af_ret].
  apply af_bind_reads; [intros tr a tr' H; now apply lift_Ok_inv in H|].
  intros excess. apply af_deleteRepoImages_except.
Qed.

Lemma af_repoImagesCleanupByPolicies (m : imagesCleanupManager) (l : list ptr) :
  accountsFor l (repoImagesCleanupByPolicies heap env m l).
Proof.
  unfold repoImagesCleanupByPolicies.
  destruct (splitByScheme heap l ([], [], [])) as [[a b] c].
  apply af_bind; [apply af_repoImagesCleanupByPolicy|]. intros l1.
  apply af_bind; [apply af_repoImagesCleanupByPolicy|]. intros l2.
  apply af_repoImagesCleanupByPolicy.
Qed.

End Accounts.

(** A loop over entries of distinct keys, each round of which stores a
    value at the key of its entry: when the loop succeeds, every round
    did, the value of each entry is the one its round computed, and the
    other keys are left as they were. *)
Lemma foldM_keyed {V X} (step : gmap string V -> string * X -> M (gmap string V))
    (Good : string -> X -> V -> list Event -> Prop) (entries : list (string * X)) :
  NoDup entries.*1 ->
  (forall acc k x tr acc' tr',
      step acc (k, x) tr = (Ok acc', tr') ->
      exists v evs, acc' = <[k := v]> acc /\ tr' = tr ++ evs /\ Good k x v evs) ->
  forall s tr s' tr',
    foldM step entries s tr = (Ok s', tr') ->
    exists evs,
      tr' = tr ++ evs
      /\ (forall k, k ∉ entries.*1 -> s' !! k = s !! k)
      /\ forall k x, (k, x) ∈ entries ->
           exists v pre mid post,
             s' !! k = Some v /\ evs = pre ++ mid ++ post /\ Good k x v mid.
Proof.
  intros Hnodup Hstep. induction entries as [|[k0 x0] entries IH];
    intros s tr s' tr' Hfold.
  - cbn in Hfold. unfold ret in Hfold. injection Hfold as <- <-.
    exists []. rewrite app_nil_r. split; [reflexivity|]. split; [auto|].
    intros k x Hin. inversion Hin.
  - cbn [foldM] in Hfold. apply bind_Ok_inv in Hfold as (s1 & tr1 & H1 & H2).
    apply Hstep in H1 as (v0 & evs0 & -> & -> & Hgood).
    cbn [fmap list_fmap fst] in Hnodup. apply NoDup_cons in Hnodup as [Hk0 Hnodup].
    destruct (IH Hnodup _ _ _ _ H2) as (evs & -> & Hother & Hentries).
    exists (evs0 ++ evs). rewrite app_assoc. split; [reflexivity|]. split.
    + intros k Hk. cbn [fmap list_fmap fst] in Hk. apply not_elem_of_cons in Hk as [Hne Hk].
      rewrite (Hother k Hk). now apply lookup_insert_ne.
    + intros k x Hin. apply elem_of_cons in Hin as [[= -> ->]|Hin].
      * exists v0, [], evs0, evs. rewrite (Hother k0 Hk0), lookup_insert_eq.
        repeat split; auto.
      * destruct (Hentries k x Hin) as (v & pre & mid & post & Hv & -> & Hg).
        exists v, (evs0 ++ pre), mid, post. rewrite <- app_assoc. auto.
Qed.

Section PolicyMode.

Variable heap : ptr -> Info.
Variable env : Env.
Variable m : imagesCleanupManager.

Lemma repoImagesCleanup_accounts (repoImagesToCleanup result : gmap string (list ptr))
    (tr tr' : Trace) :
  repoImagesCleanup heap env m repoImagesToCleanup tr = (Ok result, tr') ->
  exists evs,
    tr' = tr ++ evs
    /\ (forall imageName,
          repoImagesToCleanup !! imageName = None -> result !! imageName = None)
    /\ forall imageName l,
         repoImagesToCleanup !! imageName = Some l ->
         exists res,
           result !! imageName = Some res
           /\ (forall p, p ∈ res -> p ∈ l)
           /\ (forall p, p ∈ l -> p ∈ res \/ p ∈ deletedImages evs).
Proof.
  unfold repoImagesCleanup. intros Hrun.
  apply (foldM_keyed (repoImagesCleanup_step heap env m)
           (fun _ l res evs =>
              (forall p, p ∈ res -> p ∈ l)
              /\ (forall p, p ∈ l -> p ∈ res \/ p ∈ deletedImages evs)))
    in Hrun as (evs & -> & Hother & Hentries).
  - exists evs. split; [reflexivity|]. split.
    + intros imageName Hnone. rewrite Hother, lookup_empty; [reflexivity|].
      intros Hin. apply list_elem_of_fmap in Hin as ([k l] & -> & Hin).
      apply elem_of_map_to_list in Hin. cbn in Hnone. congruence.
    + intros imageName l Hl. apply elem_of_map_to_list in Hl.
      destruct (Hentries _ _ Hl) as (res & pre & mid & post & Hres & -> & Hsub & Hall).
      exists res. split; [exact Hres|]. split; [exact Hsub|].
      intros p Hp. rewrite !deletedImages_app, !elem_of_app.
      destruct (Hall p Hp); auto.
  - apply NoDup_fst_map_to_list.
  - intros acc k l tr0 acc' tr0' Hstep. unfold repoImagesCleanup_step in Hstep.
    apply bind_Ok_inv in Hstep as (l1 & tr1 & H1 & Hstep).
    apply bind_Ok_inv in Hstep as (l2 & tr2 & H2 & Hret).
    unfold ret in Hret. injection Hret as <- <-.
    destruct (af_bind l _ _
                (af_repoImagesCleanupByNonexistentGitPrimitive heap env m l)
                (af_repoImagesCleanupByPolicies heap env m) tr0 l2 tr2)
      as (evs & -> & Hsub & Hall).
    { unfold bind. now rewrite H1. }
    exists l2, evs. auto.
Qed.

Lemma nonexistentGitPrimitive_loop_managed (localGit : option GitRepo)
    (gitTags gitBranches : list string) (repoImages : list ptr)
    (found : list ptr * list ptr * list ptr) :
  nonexistentGitPrimitive_loop heap env localGit gitTags gitBranches repoImages
    ([], [], []) = Ok found ->
  Forall (hasManagedStrategy heap) found.1.1
  /\ Forall (hasManagedStrategy heap) found.1.2
  /\ Forall (hasManagedStrategy heap) found.2.
Proof.
  intros Hloop.
  pose proof (nonexistentGitPrimitive_loop_elem_of heap env localGit gitTags
                gitBranches repoImages _ _ Hloop) as Hfound.
  cbn [fst snd] in Hfound.
  repeat split; apply Forall_forall; intros p Hp;
    destruct (Hfound p) as (HA & HB & HC).
  - apply HA in Hp as [Hp|[_ [Hlabel _]]]; [inversion Hp|].
    eexists. split; [exact Hlabel|]. repeat constructor.
  - apply HB in Hp as [Hp|[_ [Hlabel _]]]; [inversion Hp|].
    eexists. split; [exact Hlabel|]. repeat constructor.
  - apply HC in Hp as [Hp|[_ [Hlabel _]]]; [inversion Hp|].
    eexists. split; [exact Hlabel|]. repeat constructor.
Qed.

Lemma dw_nonexistentGitPrimitive_managed (repoImages : list ptr) :
  deletesWithin (hasManagedStrategy heap)
    (repoImagesCleanupByNonexistentGitPrimitive heap env m repoImages)
    (fun _ => True).
Proof.
  unfold repoImagesCleanupByNonexistentGitPrimitive.
  eapply dw_bind; [apply dw_lift with (Q := fun _ => True); auto|].
  intros lists _.
  eapply dw_bind.
  { apply dw_lift with
      (Q := fun found : list ptr * list ptr * list ptr =>
              Forall (hasManagedStrategy heap) found.1.1
              /\ Forall (hasManagedStrategy heap) found.1.2
              /\ Forall (hasManagedStrategy heap) found.2).
    intros found. apply nonexistentGitPrimitive_loop_managed. }
  intros found (Ha & Hb & Hc).
  eapply dw_bind; [apply dw_deleteAndExcept_any; assumption|].
  intros r1 _.
  eapply dw_bind; [apply dw_deleteAndExcept_any; assumption|].
  intros r2 _. apply dw_deleteAndExcept_any; assumption.
Qed.

Lemma dw_repoImagesCleanupByPolicy_any (P : ptr -> Prop)
    (options : repoImagesCleanupByPolicyOptions)
    (repoImages repoImagesWithScheme : list ptr) :
  Forall P repoImagesWithScheme ->
  deletesWithin P
    (repoImagesCleanupByPolicy heap env m repoImages repoImagesWithScheme options)
    (fun _ => True).
Proof.
  intros Hw. unfold repoImagesCleanupByPolicy.
  eapply dw_bind with (Q := fun _ => True).
  { destruct (hasExpiryPeriod options); [|now apply dw_ret].
    eapply dw_bind; [apply dw_now|]. intros t _. now apply dw_ret. }
  intros expiryTime _.
  assert (Hs : Forall P (sortByCreatedAt heap repoImagesWithScheme)).
  { rewrite sortByCreatedAt_perm. exact Hw. }
  destruct (splitExpired_Forall heap P (hasExpiryPeriod options) expiryTime
              (sortByCreatedAt heap repoImagesWithScheme) [] [] Hs
              (Forall_nil_2 P) (Forall_nil_2 P)) as [Hne He].
  destruct (splitExpired heap (hasExpiryPeriod options) expiryTime
              (sortByCreatedAt heap repoImagesWithScheme) [] [])
    as [notExpired expired].
  cbn [fst snd] in Hne, He.
  eapply dw_bind; [apply dw_deleteAndExcept_any; assumption|].
  intros r1 _.
  destruct (hasLimit options && (limit options <? Z.of_nat (length notExpired)));
    [|now apply dw_ret].
  eapply dw_bind.
  { apply dw_lift with (Q := Forall P). intros excess.
    now apply sliceTo_Forall. }
  intros excess Hex.
  eapply dw_bind; [apply dw_deleteRepoImages; exact Hex|].
  intros ? _. now apply dw_ret.
Qed.

Lemma withStrategy_managed (strategy : string) (l : list ptr) :
  strategy ∈ [GitTag; GitBranch; GitCommit; StagesSignature] ->
  Forall (hasManagedStrategy heap) (withStrategy heap strategy l).
Proof.
  intros Hs. apply Forall_forall. intros p Hp.
  apply list_elem_of_filter in Hp as [Hlabel _]. now exists strategy.
Qed.

Lemma dw_repoImagesCleanupByPolicies_managed (repoImages : list ptr) :
  deletesWithin (hasManagedStrategy heap)
    (repoImagesCleanupByPolicies heap env m repoImages) (fun _ => True).
Proof.
  unfold repoImagesCleanupByPolicies.
  rewrite splitByScheme_withStrategy. cbn [app].
  eapply dw_bind;
    [apply dw_repoImagesCleanupByPolicy_any, withStrategy_managed;
     repeat constructor|].
  intros r1 _.
  eapply dw_bind;
    [apply dw_repoImagesCleanupByPolicy_any, withStrategy_managed;
     repeat constructor|].
  intros r2 _.
  apply dw_repoImagesCleanupByPolicy_any, withStrategy_managed; repeat constructor.
Qed.

Lemma dw_repoImagesCleanup_managed (repoImagesToCleanup : gmap string (list ptr)) :
  deletesWithin (hasManagedStrategy heap)
    (repoImagesCleanup heap env m repoImagesToCleanup) (fun _ => True).
Proof.
  unfold repoImagesCleanup. apply dw_foldM with (Inv := fun _ => True); [exact I|].
  intros res [imageName l] _ _. unfold repoImagesCleanup_step.
  eapply dw_bind; [apply dw_nonexistentGitPrimitive_managed|]. intros l1 _.
  eapply dw_bind; [apply dw_repoImagesCleanupByPolicies_managed|]. intros l2 _.
  now apply dw_ret.
Qed.

End PolicyMode.

(** X12: the cleanup without git history touches managed tag strategies
    only.  Whatever the collaborators answer, every image that the cleanup
    by nonexistent git primitive and by policies asks to delete is one of
    the images to clean up and carries the tag strategy label [git-tag],
    [git-branch], [git-commit] or [stages-signature].  So an image without
    the label, or with another strategy (as [custom]), is never deleted,
    and when the cleanup succeeds it is still in the list of its image
    name. *)
Theorem policy_cleanup_deletes_managed_strategies_only (heap : ptr -> Info)
    (env : Env) (m : imagesCleanupManager)
    (repoImagesToCleanup : gmap string (list ptr)) (tr : Trace) :
  exists evs,
    (repoImagesCleanup heap env m repoImagesToCleanup tr).2 = tr ++ evs
    /\ (forall p,
          p ∈ deletedImages evs ->
          hasManagedStrategy heap p
          /\ exists imageName l,
               repoImagesToCleanup !! imageName = Some l /\ p ∈ l)
    /\ (forall result imageName l p,
          (repoImagesCleanup heap env m repoImagesToCleanup tr).1 = Ok result ->
          repoImagesToCleanup !! imageName = Some l ->
          p ∈ l ->
          ~ hasManagedStrategy heap p ->
          exists res, result !! imageName = Some res /\ p ∈ res).
Proof.
  destruct (dw_repoImagesCleanup_managed heap env m repoImagesToCleanup tr)
    as (evs & Htr & Hmanaged & _).
  exists evs. split; [exact Htr|]. rewrite Forall_forall in Hmanaged. split.
  - intros p Hp. split; [now apply Hmanaged|].
    assert (Hcand : MapAll (fun q => exists imageName l,
                               repoImagesToCleanup !! imageName = Some l /\ q ∈ l)
                      repoImagesToCleanup).
    { intros imageName l Hl. apply Forall_forall. eauto. }
    destruct (dw_repoImagesCleanup heap env _ m repoImagesToCleanup Hcand tr)
      as (evs' & Htr' & Hdel & _).
    rewrite Htr in Htr'. apply app_inv_head in Htr'. subst evs'.
    rewrite Forall_forall in Hdel. now apply Hdel.
  - intros result imageName l p Hok Hl Hp Hnot.
    destruct (repoImagesCleanup heap env m repoImagesToCleanup tr) as [r tr'] eqn:Hrun.
    cbn [fst snd] in Htr, Hok. subst r tr'.
    apply repoImagesCleanup_accounts in Hrun as (evs' & Hevs & _ & Hall).
    apply app_inv_head in Hevs. subst evs'.
    destruct (Hall imageName l Hl) as (res & Hres & _ & Hacc).
    exists res. split; [exact Hres|].
    destruct (Hacc p Hp) as [Hin|Hin]; [exact Hin|].
    exfalso. apply Hnot. now apply Hmanaged.
Qed.

Lemma policy_cleanup_deletes_managed_strategies_only_witness :
  exists res,
    ({[ "app" := [3; 4; 5; 7]%nat ]} : gmap string (list ptr)) !! "app" = Some res
    /\ 7%nat ∈ res.
Proof.
  destruct (policy_cleanup_deletes_managed_strategies_only demoHeap demoEnv
              (demoManager (Some demoGit) true limit3Policies)
              {[ "app" := [1; 2; 3; 4; 5; 7]%nat ]} [])
    as (evs & _ & _ & Hkept).
  refine (Hkept {[ "app" := [3; 4; 5; 7]%nat ]} "app" [1; 2; 3; 4; 5; 7]%nat 7%nat
            _ _ _ _).
  - vm_compute. reflexivity.
  - reflexivity.
  - repeat constructor.
  - intros (strategy & Hlabel & _). discriminate.
Defined.

(** X13: the cleanup without git history accounts for every image.  When
    it succeeds, its result has a list for exactly the image names it was
    given; the list of an image name holds images of the given list only;
    and every image of the given list is in the resulting list or in a
    deletion the cleanup asked for. *)
Theorem policy_cleanup_accounts_for_every_image (heap : ptr -> Info) (env : Env)
    (m : imagesCleanupManager) (repoImagesToCleanup result : gmap string (list ptr))
    (tr tr' : Trace) :
  repoImagesCleanup heap env m repoImagesToCleanup tr = (Ok result, tr') ->
  exists evs,
    tr' = tr ++ evs
    /\ (forall imageName,
          repoImagesToCleanup !! imageName = None -> result !! imageName = None)
    /\ forall imageName l,
         repoImagesToCleanup !! imageName = Some l ->
         exists res,
           result !! imageName = Some res
           /\ (forall p, p ∈ res -> p ∈ l)
           /\ (forall p, p ∈ l -> p ∈ res \/ p ∈ deletedImages evs).
Proof. apply repoImagesCleanup_accounts. Qed.

Lemma policy_cleanup_accounts_for_every_image_witness :
  exists evs,
    [EvDeleteRepoImages false [1; 2]%nat] = [] ++ evs
    /\ (forall imageName,
          ({[ "app" := [1; 2; 3; 4; 5]%nat ]} : gmap string (list ptr)) !! imageName
          = None ->
          ({[ "app" := [3; 4; 5]%nat ]} : gmap string (list ptr)) !! imageName = None)
    /\ forall imageName l,
         ({[ "app" := [1; 2; 3; 4; 5]%nat ]} : gmap string (list ptr)) !! imageName
         = Some l ->
         exists res,
           ({[ "app" := [3; 4; 5]%nat ]} : gmap string (list ptr)) !! imageName
           = Some res
           /\ (forall p, p ∈ res -> p ∈ l)
           /\ (forall p, p ∈ l -> p ∈ res \/ p ∈ deletedImages evs).
Proof.
  apply (policy_cleanup_accounts_for_every_image demoHeap demoEnv
           (demoManager (Some demoGit) true limit3Policies)
           {[ "app" := [1; 2; 3; 4; 5]%nat ]}).
  vm_compute. reflexivity.
Defined.

(** ** Unused image metadata *)

Section UnusedMetadata.

Variable heap : ptr -> Info.
Variable env : Env.
Variable m : imagesCleanupManager.

Lemma unusedCommitHashes_elem_of (repoImageList : list ptr)
    (commits : list (Hash * ImageMetadata)) (acc : list Hash) (commitHash : Hash) :
  commitHash
    ∈ foldl (fun unusedCommitHashes (commit : Hash * ImageMetadata) =>
               if bool_decide
                    (Exists (fun p => contentSignatureOf heap p
                                      = ContentSignature commit.2)
                            repoImageList)
               then unusedCommitHashes
               else unusedCommitHashes ++ [commit.1])
            acc commits
  <-> commitHash ∈ acc
      \/ exists imageMetadata,
           (commitHash, imageMetadata) ∈ commits
           /\ forall p, p ∈ repoImageList ->
                        contentSignatureOf heap p <> ContentSignature imageMetadata.
Proof.
  revert acc. induction commits as [|[c imd] commits IH]; intros acc.
  - cbn. split; [now left|]. intros [H|(imd & H & _)]; [exact H|inversion H].
  - cbn [foldl fst snd]. rewrite IH. clear IH. case_bool_decide as Hex.
    + split.
      * intros [H|(imd' & Hin & Hno)]; [now left|].
        right. exists imd'. split; [now right|exact Hno].
      * intros [H|(imd' & Hin & Hno)]; [now left|].
        apply elem_of_cons in Hin as [[= -> ->]|Hin]; [|right; eauto].
        exfalso. apply Exists_exists in Hex as (p & Hp & Heq).
        exact (Hno p Hp Heq).
    + rewrite elem_of_app, list_elem_of_singleton. split.
      * intros [[H| ->]|(imd' & Hin & Hno)]; [now left| |].
        -- right. exists imd. split; [now left|].
           intros p Hp Heq. apply Hex. apply Exists_exists. eauto.
        -- right. exists imd'. split; [now right|exact Hno].
      * intros [H|(imd' & Hin & Hno)]; [now left; left|].
        apply elem_of_cons in Hin as [[= -> ->]|Hin]; [now left; right|].
        right. eauto.
Qed.

Lemma getImageUnusedCommitHashes_lookup (resultRepoImages : gmap string (list ptr))
    (imageName : string) :
  getImageUnusedCommitHashes heap m resultRepoImages !! imageName
  = match imageCommitHashImageMetadata m !! imageName with
    | Some metadata =>
        Some (foldl (fun unusedCommitHashes (commit : Hash * ImageMetadata) =>
                       if bool_decide
                            (Exists (fun p => contentSignatureOf heap p
                                              = ContentSignature commit.2)
                                    (default [] (resultRepoImages !! imageName)))
                       then unusedCommitHashes
                       else unusedCommitHashes ++ [commit.1])
                    [] (map_to_list metadata))
    | None => None
    end.
Proof.
  unfold getImageUnusedCommitHashes.
  rewrite (foldl_map_to_list
             (fun s : gmap string (list Hash) => fun k => s !! k)
             _
             (fun k (metadata : gmap Hash ImageMetadata) _ =>
                Some (foldl (fun unusedCommitHashes (commit : Hash * ImageMetadata) =>
                               if bool_decide
                                    (Exists (fun p => contentSignatureOf heap p
                                                      = ContentSignature commit.2)
                                            (default [] (resultRepoImages !! k)))
                               then unusedCommitHashes
                               else unusedCommitHashes ++ [commit.1])
                            [] (map_to_list metadata)))).
  - rewrite lookup_empty. reflexivity.
  - intros acc k v. cbn [fst snd]. apply lookup_insert_eq.
  - intros acc k v k' Hne. cbn [fst snd]. now apply lookup_insert_ne.
Qed.

Lemma unused_calls_elem_of (unused : gmap string (list Hash))
    (imageName : string) (commitHash : Hash) :
  (imageName, commitHash)
    ∈ flat_map (fun entry : string * list Hash => map (pair entry.1) entry.2)
               (map_to_list unused)
  <-> exists commitHashes,
        unused !! imageName = Some commitHashes /\ commitHash ∈ commitHashes.
Proof.
  rewrite list_elem_of_In, in_flat_map. split.
  - intros ([n cs] & Hentry & Hin). cbn [fst snd] in Hin.
    apply in_map_iff in Hin as (c & [= <- <-] & Hc).
    exists cs. split; [|now apply list_elem_of_In].
    apply elem_of_map_to_list. now apply list_elem_of_In.
  - intros (cs & Hcs & Hc). exists (imageName, cs). split.
    + apply list_elem_of_In. now apply elem_of_map_to_list.
    + cbn [fst snd]. apply in_map. now apply list_elem_of_In.
Qed.

End UnusedMetadata.

(** X14: which metadata records the cleanup removes.  The phase that
    deletes unused images metadata always succeeds.  Outside dry-run, it
    asks the stages storage to remove the record of a commit of an image
    name exactly when the manager holds image metadata for that commit
    and no image left under that image name in the result carries the
    content signature of the metadata; in dry-run it asks for no
    removal. *)
Theorem unused_metadata_is_removed (heap : ptr -> Info) (env : Env)
    (m : imagesCleanupManager) (resultRepoImages : gmap string (list ptr))
    (tr : Trace) :
  exists evs,
    deleteUnusedImagesMetadata heap env m resultRepoImages tr = (Ok tt, tr ++ evs)
    /\ (DryRun m = true -> rmImageCommitCalls evs = [])
    /\ (DryRun m = false ->
        forall imageName commitHash,
          (imageName, commitHash) ∈ rmImageCommitCalls evs
          <-> exists metadata imageMetadata,
                imageCommitHashImageMetadata m !! imageName = Some metadata
                /\ metadata !! commitHash = Some imageMetadata
                /\ forall p,
                     p ∈ default [] (resultRepoImages !! imageName) ->
                     contentSignatureOf heap p <> ContentSignature imageMetadata).
Proof.
  destruct (rmImageCommit_map_total env m
              (map_to_list (getImageUnusedCommitHashes heap m resultRepoImages)) tr)
    as (evs & Hrun & Hcalls).
  exists evs. split; [exact Hrun|]. split.
  - intros Hdry. now rewrite Hcalls, Hdry.
  - intros Hdry imageName commitHash. rewrite Hcalls, Hdry.
    rewrite unused_calls_elem_of, getImageUnusedCommitHashes_lookup. split.
    + intros (commitHashes & Hlookup & Hin).
      destruct (imageCommitHashImageMetadata m !! imageName) as [metadata|];
        [|discriminate].
      injection Hlookup as <-.
      apply unusedCommitHashes_elem_of in Hin as [Hin|(imd & Hin & Hno)];
        [inversion Hin|].
      exists metadata, imd. split; [reflexivity|].
      split; [now apply elem_of_map_to_list|exact Hno].
    + intros (metadata & imd & -> & Hmd & Hno). eexists. split; [reflexivity|].
      apply unusedCommitHashes_elem_of. right. exists imd.
      split; [now apply elem_of_map_to_list|exact Hno].
Qed.

Lemma unused_metadata_is_removed_witness :
  exists evs,
    deleteUnusedImagesMetadata demoHeap demoEnv orphanMetadataManager ∅ []
    = (Ok tt, [] ++ evs)
    /\ ("app", "c0ffee") ∈ rmImageCommitCalls evs.
Proof.
  destruct (unused_metadata_is_removed demoHeap demoEnv orphanMetadataManager ∅ [])
    as (evs & Hrun & _ & Hcalls).
  exists evs. split; [exact Hrun|].
  apply (Hcalls eq_refl "app" "c0ffee").
  exists {[ "c0ffee" := mkImageMetadata "sig-gone" ]}, (mkImageMetadata "sig-gone").
  split; [reflexivity|]. split; [reflexivity|].
  intros p Hp. inversion Hp.
Defined.

(** ** The git history based cleanup as a whole *)

(** A loop over entries of distinct keys, each round of which changes the
    value at the key of its entry only: when the loop succeeds, what a
    round did to its key is what the loop did to it. *)
Lemma foldM_keyed_rel {V X} (step : gmap string V -> string * X -> M (gmap string V))
    (Good : string -> X -> option V -> option V -> list Event -> Prop)
    (entries : list (string * X)) :
  NoDup entries.*1 ->
  (forall acc k x tr acc' tr',
      step acc (k, x) tr = (Ok acc', tr') ->
      exists evs,
        tr' = tr ++ evs
        /\ (forall k', k' <> k -> acc' !! k' = acc !! k')
        /\ Good k x (acc !! k) (acc' !! k) evs) ->
  forall s tr s' tr',
    foldM step entries s tr = (Ok s', tr') ->
    exists evs,
      tr' = tr ++ evs
      /\ (forall k, k ∉ entries.*1 -> s' !! k = s !! k)
      /\ forall k x, (k, x) ∈ entries ->
           exists pre mid post,
             evs = pre ++ mid ++ post /\ Good k x (s !! k) (s' !! k) mid.
Proof.
  intros Hnodup Hstep. induction entries as [|[k0 x0] entries IH];
    intros s tr s' tr' Hfold.
  - cbn in Hfold. unfold ret in Hfold. injection Hfold as <- <-.
    exists []. rewrite app_nil_r. split; [reflexivity|]. split; [auto|].
    intros k x Hin. inversion Hin.
  - cbn [foldM] in Hfold. apply bind_Ok_inv in Hfold as (s1 & tr1 & H1 & H2).
    apply Hstep in H1 as (evs0 & -> & Hsame & Hgood).
    cbn [fmap list_fmap fst] in Hnodup. apply NoDup_cons in Hnodup as [Hk0 Hnodup].
    destruct (IH Hnodup _ _ _ _ H2) as (evs & -> & Hother & Hentries).
    exists (evs0 ++ evs). rewrite app_assoc. split; [reflexivity|]. split.
    + intros k Hk. cbn [fmap list_fmap fst] in Hk.
      apply not_elem_of_cons in Hk as [Hne Hk].
      rewrite (Hother k Hk). now apply Hsame.
    + intros k x Hin. apply elem_of_cons in Hin as [[= -> ->]|Hin].
      * exists [], evs0, evs. rewrite (Hother k0 Hk0). split; [reflexivity|exact Hgood].
      * destruct (Hentries k x Hin) as (pre & mid & post & -> & Hg).
        exists (evs0 ++ pre), mid, post. rewrite <- app_assoc. split; [reflexivity|].
        rewrite <- (Hsame k); [exact Hg|].
        intros ->. apply Hk0. apply list_elem_of_fmap. now exists (k0, x).
Qed.

Section HistoryMode.

Variable heap : ptr -> Info.
Variable env : Env.
Variable m : imagesCleanupManager.

(** What a round of the history scan that succeeds does to the result of
    its image name: it keeps what the result held, every image of its
    entry is added to the result or deleted, and what it adds comes from
    the images grouped by signature. *)
Lemma historyScan_step_accounts (C : string -> ptr -> Prop)
    (gitRepository : string) (referencesToScan : list string)
    (bySignature : gmap string (gmap string (list ptr)))
    (existing : gmap string (gmap string (list Hash)))
    (res res' : gmap string (list ptr)) (imageName : string) (l : list ptr)
    (tr tr' : Trace) :
  (forall n, MapAll (C n) (default ∅ (bySignature !! n))) ->
  historyScan_step env m gitRepository referencesToScan bySignature existing
    res (imageName, l) tr = (Ok res', tr') ->
  exists evs,
    tr' = tr ++ evs
    /\ (forall k, k <> imageName -> res' !! k = res !! k)
    /\ (forall q, q ∈ default [] (res !! imageName) ->
                  q ∈ default [] (res' !! imageName))
    /\ (forall p, p ∈ l ->
                  p ∈ default [] (res' !! imageName) \/ p ∈ deletedImages evs)
    /\ (forall q, q ∈ default [] (res' !! imageName) ->
                  q ∈ default [] (res !! imageName) \/ C imageName q).
Proof.
  intros HC Hstep. unfold historyScan_step in Hstep.
  apply bind_Ok_inv in Hstep as (scanned & trA & Hscan & Hstep).
  apply bind_Ok_inv in Hstep as ([] & trB & Hdel & Hret).
  unfold ret in Hret. injection Hret as <- <-.
  pose proof (deleteRepoImages_trace env (DryRun m) scanned.2 trA) as HtrB.
  rewrite Hdel in HtrB. cbn [snd] in HtrB. subst trB.
  destruct (bool_decide _).
  - apply bind_Ok_inv in Hscan as (reached & tr1 & Hreached & Hscan).
    apply lift_Ok_inv in Hreached as [_ ->].
    apply bind_Ok_inv in Hscan as (keep & tr2 & Hkeep & Hscan).
    apply lift_Ok_inv in Hkeep as [Hkeep ->].
    unfold ret in Hscan. injection Hscan as <- <-. cbn [fst snd] in *.
    exists [EvDeleteRepoImages (DryRun m) (exceptRepoImageList l keep)].
    split; [reflexivity|]. split; [intros k Hk; now apply lookup_insert_ne|].
    rewrite lookup_insert_eq. cbn [default from_option id].
    split; [intros q Hq; apply elem_of_app; now left|]. split.
    + intros p Hp.
      assert (Hd : deletedImages
                     [EvDeleteRepoImages (DryRun m) (exceptRepoImageList l keep)]
                   = exceptRepoImageList l keep) by (cbn; apply app_nil_r).
      rewrite Hd, elem_of_app, (exceptRepoImageList_elem_of heap).
      destruct (decide (p ∈ keep)); auto.
    + intros q Hq. apply elem_of_app in Hq as [Hq|Hq]; [now left|]. right.
      pose proof (reachedRepoImages_Forall (C imageName) _ _ _ _ (HC imageName)
                    (Forall_nil_2 _) Hkeep) as Hall.
      rewrite Forall_forall in Hall. now apply Hall.
  - unfold bind, emit, ret in Hscan. injection Hscan as <- <-. cbn [fst snd] in *.
    exists [EvLog "Scanning stopped due to nothing to seek";
            EvDeleteRepoImages (DryRun m) l].
    split; [now rewrite <- app_assoc|]. split; [reflexivity|].
    split; [auto|]. split; [|auto].
    intros p Hp. right. cbn. now rewrite app_nil_r.
Qed.

Lemma repoImagesGitHistoryBasedCleanup_accounts
    (repoImagesToCleanup result : gmap string (list ptr)) (tr tr' : Trace) :
  repoImagesGitHistoryBasedCleanup heap env m repoImagesToCleanup tr
    = (Ok result, tr') ->
  exists evs,
    tr' = tr ++ evs
    /\ forall imageName,
         (forall p, p ∈ default [] (result !! imageName) ->
                    p ∈ default [] (repoImagesToCleanup !! imageName))
         /\ (forall p, p ∈ default [] (repoImagesToCleanup !! imageName) ->
                       p ∈ default [] (result !! imageName)
                       \/ p ∈ deletedImages evs).
Proof.
  intros Hrun. unfold repoImagesGitHistoryBasedCleanup in Hrun.
  apply bind_Ok_inv in Hrun as (gitRepository & tr1 & H1 & Hrun).
  apply lift_Ok_inv in H1 as [_ ->].
  apply bind_Ok_inv in Hrun as (referencesToScan & tr1 & H1 & Hrun).
  apply lift_Ok_inv in H1 as [_ ->].
  apply bind_Ok_inv in Hrun as (existing & tr1 & H1 & Hrun).
  apply lift_Ok_inv in H1 as [_ ->].
  apply bind_Ok_inv in Hrun as (st & tr1 & Hst & Hrun).
  apply bind_Ok_inv in Hrun as (res & tr2 & Hscan & Hrun).
  apply bind_Ok_inv in Hrun as ([] & tr3 & Hmeta & Hret).
  unfold ret in Hret. injection Hret as <- <-.
  set (bySignature :=
         getImageContentSignatureRepoImageListToCleanup heap m repoImagesToCleanup)
    in *.
  set (without :=
         getImageRepoImageListWithoutRelatedImageMetadata repoImagesToCleanup
           bySignature) in *.
  set (C := fun (n : string) (q : ptr) =>
              q ∈ default [] (repoImagesToCleanup !! n)).
  assert (HC : forall n, MapAll (C n) (default ∅ (bySignature !! n))).
  { intros n sig lst Hlst.
    pose proof (signatures_related heap m repoImagesToCleanup n sig lst Hlst) as Hall.
    eapply Forall_impl; [exact Hall|]. now intros q [Hq _]. }
  apply (foldM_keyed_rel _
           (fun n l old new evs =>
              (forall q, q ∈ default [] old -> q ∈ default [] new)
              /\ (forall p, p ∈ l -> p ∈ default [] new \/ p ∈ deletedImages evs)
              /\ (forall q, q ∈ default [] new -> q ∈ default [] old \/ C n q)))
    in Hscan as (evs2 & -> & Hother & Hentries).
  2: apply NoDup_fst_map_to_list.
  2:{ intros acc k x tr0 acc' tr0' Hstep.
      destruct (historyScan_step_accounts C _ _ _ _ _ _ _ _ _ _ HC Hstep)
        as (evs & -> & Hsame & Hkeep & Hall & Hfrom).
      exists evs. auto. }
  destruct (rmImageCommit_map_total env m
              (map_to_list (getImageUnusedCommitHashes heap m res)) (tr1 ++ evs2))
    as (evs3 & Hmeta' & _).
  unfold deleteUnusedImagesMetadata in Hmeta. rewrite Hmeta' in Hmeta.
  injection Hmeta as <-.
  assert (Hwithout : forall n,
             without !! n
             = (fun l => foldl (fun unused f => exceptRepoImageList unused f.2) l
                           (map_to_list (default ∅ (bySignature !! n))))
               <$> repoImagesToCleanup !! n).
  { intros n. apply withoutRelated_lookup. }
  assert (Hsub : forall n w q,
             without !! n = Some w -> q ∈ w ->
             q ∈ default [] (repoImagesToCleanup !! n)).
  { intros n w q Hw Hq. rewrite Hwithout in Hw.
    destruct (repoImagesToCleanup !! n) as [l|]; [|discriminate].
    injection Hw as <-. now apply foldl_except_elem_of in Hq as [Hq _]. }
  destruct (GitHistoryBasedCleanupV12 m) eqn:Hv12.
  - rewrite (withoutMetadata_loop_v12 m _ _ _ Hv12) in Hst.
    injection Hst as <- <-. cbn [fst snd] in *.
    exists (evs2 ++ evs3). rewrite app_assoc. split; [reflexivity|].
    intros imageName.
    destruct (repoImagesToCleanup !! imageName) as [l|] eqn:El.
    + assert (Hin : (imageName, l) ∈ map_to_list repoImagesToCleanup)
        by (now apply elem_of_map_to_list).
      destruct (Hentries _ _ Hin) as (pre & mid & post & -> & Hkeep & Hall & Hfrom).
      rewrite lookup_empty in Hfrom. cbn [default from_option id] in Hfrom |- *.
      split.
      * intros p Hp. destruct (Hfrom p Hp) as [Hnil|Hc]; [inversion Hnil|].
        unfold C in Hc. now rewrite El in Hc.
      * intros p Hp. rewrite !deletedImages_app, !elem_of_app.
        destruct (Hall p Hp); auto.
    + rewrite Hother, lookup_empty.
      * cbn. split; [auto|]. intros p Hp. inversion Hp.
      * intros Hin. apply list_elem_of_fmap in Hin as ([k l] & -> & Hin).
        apply elem_of_map_to_list in Hin. cbn in El. congruence.
  - rewrite (withoutMetadata_loop_saved m _ _ _ Hv12) in Hst.
    injection Hst as <- <-.
    exists (withoutMetadata_warnings (map_to_list without) ++ evs2 ++ evs3).
    rewrite !app_assoc. split; [reflexivity|].
    intros imageName.
    pose proof (saved_result_lookup without repoImagesToCleanup imageName) as Hst1.
    pose proof (saved_candidates_lookup without repoImagesToCleanup imageName) as Hst2.
    pose proof (Hwithout imageName) as Hw.
    destruct (repoImagesToCleanup !! imageName) as [l|] eqn:El.
    + cbn [fmap option_fmap option_map] in Hw. rewrite Hw in Hst1, Hst2.
      cbn [default from_option id] in Hst2.
      apply elem_of_map_to_list in Hst2.
      destruct (Hentries _ _ Hst2) as (pre & mid & post & -> & Hkeep & Hall & Hfrom).
      rewrite Hst1 in Hkeep, Hfrom. cbn [default from_option id] in Hkeep, Hfrom |- *.
      split.
      * intros p Hp. destruct (Hfrom p Hp) as [Hin|Hc].
        -- now apply foldl_except_elem_of in Hin as [Hin _].
        -- unfold C in Hc. now rewrite El in Hc.
      * intros p Hp. rewrite !deletedImages_app, !elem_of_app.
        set (w := foldl (fun unused f => exceptRepoImageList unused f.2) l
                    (map_to_list (default ∅ (bySignature !! imageName)))) in *.
        destruct (decide (p ∈ w)) as [Hpw|Hpw]; [left; now apply Hkeep|].
        destruct (Hall p) as [?|?]; auto 8.
        apply (exceptRepoImageList_elem_of heap). now split.
    + cbn [fmap option_fmap option_map] in Hw. rewrite Hw in Hst1, Hst2.
      rewrite Hother, Hst1.
      * cbn. split; [auto|]. intros p Hp. inversion Hp.
      * intros Hin. apply list_elem_of_fmap in Hin as ([k l] & -> & Hin).
        apply elem_of_map_to_list in Hin. cbn in Hst2. congruence.
Qed.

End HistoryMode.

(** X15: the git history based cleanup accounts for every image.  When it
    succeeds, under every image name, its result holds images of the given
    list only, and every image of the given list is in the result or in a
    deletion the cleanup asked for: with or without related image
    metadata, reached by the history scan or not, no image is dropped
    from the result without a deletion. *)
Theorem history_cleanup_accounts_for_every_image (heap : ptr -> Info) (env : Env)
    (m : imagesCleanupManager) (repoImagesToCleanup result : gmap string (list ptr))
    (tr tr' : Trace) :
  repoImagesGitHistoryBasedCleanup heap env m repoImagesToCleanup tr
    = (Ok result, tr') ->
  exists evs,
    tr' = tr ++ evs
    /\ forall imageName,
         (forall p, p ∈ default [] (result !! imageName) ->
                    p ∈ default [] (repoImagesToCleanup !! imageName))
         /\ (forall p, p ∈ default [] (repoImagesToCleanup !! imageName) ->
                       p ∈ default [] (result !! imageName)
                       \/ p ∈ deletedImages evs).
Proof. apply repoImagesGitHistoryBasedCleanup_accounts. Qed.

Lemma history_cleanup_accounts_for_every_image_witness :
  exists evs,
    [EvDeleteRepoImages false [1; 2]%nat; EvRmImageCommit "app" "c0ffee"] = [] ++ evs
    /\ forall imageName,
         (forall p,
             p ∈ default [] (({[ "app" := [] ]} : gmap string (list ptr)) !! imageName) ->
             p ∈ default []
                   (({[ "app" := [1; 2]%nat ]} : gmap string (list ptr)) !! imageName))
         /\ (forall p,
               p ∈ default []
                     (({[ "app" := [1; 2]%nat ]} : gmap string (list ptr)) !! imageName) ->
               p ∈ default [] (({[ "app" := [] ]} : gmap string (list ptr)) !! imageName)
               \/ p ∈ deletedImages evs).
Proof.
  apply (history_cleanup_accounts_for_every_image demoHeap demoEnv
           (historyManager true) {[ "app" := [1; 2]%nat ]}).
  vm_compute. reflexivity.
Defined.

(** ** The cleanup run as a whole *)

Section WholeRun.

Variable heap : ptr -> Info.
Variable env : Env.

Lemma exceptByWhitelist_excepted_lookup (deployed : list string)
    (repoImages : gmap string (list ptr)) (imageName : string) :
  (foldl (exceptByWhitelist_step heap deployed) (repoImages, ∅)
         (map_to_list repoImages)).2 !! imageName
  = match repoImages !! imageName with
    | Some l =>
        match filter (fun p => dockerImageName heap p ∈ deployed) l with
        | [] => None
        | used => Some used
        end
    | None => None
    end.
Proof.
  rewrite (foldl_map_to_list
             (fun s : gmap string (list ptr) * gmap string (list ptr) => fun k => s.2 !! k)
             (exceptByWhitelist_step heap deployed)
             (fun _ l x => match filter (fun p => dockerImageName heap p ∈ deployed) l with
                           | [] => x
                           | used => Some (default [] x ++ used)
                           end)).
  - cbn [snd]. rewrite lookup_empty. cbn [default from_option id app].
    reflexivity.
  - intros [ri ex] k v. unfold exceptByWhitelist_step.
    rewrite exceptByWhitelist_loop_filter. cbn [snd].
    destruct (filter _ v); [reflexivity|apply lookup_insert_eq].
  - intros [ri ex] k v k' Hne. unfold exceptByWhitelist_step.
    rewrite exceptByWhitelist_loop_filter. cbn [snd].
    destruct (filter _ v); [reflexivity|now apply lookup_insert_ne].
Qed.

(** The exclusion by the Kubernetes usage splits the images of every image
    name in two. *)
Lemma exceptRepoImagesByWhitelist_splits (repoImages : gmap string (list ptr))
    (clients : gmap string KubeClient)
    (split : gmap string (list ptr) * gmap string (list ptr)) (tr tr' : Trace) :
  exceptRepoImagesByWhitelist heap repoImages clients tr = (Ok split, tr') ->
  tr' = tr
  /\ forall imageName p,
       (p ∈ default [] (split.1 !! imageName)
        \/ p ∈ default [] (split.2 !! imageName))
       <-> p ∈ default [] (repoImages !! imageName).
Proof.
  unfold exceptRepoImagesByWhitelist. intros H.
  apply bind_Ok_inv in H as (deployed & tr1 & Hd & Hret).
  apply lift_Ok_inv in Hd as [_ ->]. unfold ret in Hret. injection Hret as <- <-.
  split; [reflexivity|]. intros imageName p.
  rewrite exceptByWhitelist_candidates, exceptByWhitelist_excepted_lookup.
  destruct (repoImages !! imageName) as [l|]; cbn [fmap option_fmap option_map default
                                                   from_option id].
  - assert (Hused : p ∈ default []
                          match filter (fun p => dockerImageName heap p ∈ deployed) l with
                          | [] => None
                          | used => Some used
                          end
                    <-> p ∈ filter (fun p => dockerImageName heap p ∈ deployed) l).
    { now destruct (filter _ l). }
    rewrite Hused, !list_elem_of_filter.
    destruct (decide (dockerImageName heap p ∈ deployed)); tauto.
  - split; [intros [H|H]; inversion H|intros H; inversion H].
Qed.

Lemma cleanup_mode_accounts (m : imagesCleanupManager)
    (repoImagesToCleanup result : gmap string (list ptr)) (tr tr' : Trace) :
  (if GitHistoryBasedCleanup m || GitHistoryBasedCleanupV12 m
   then repoImagesGitHistoryBasedCleanup heap env m repoImagesToCleanup
   else repoImagesCleanup heap env m repoImagesToCleanup) tr = (Ok result, tr') ->
  exists evs,
    tr' = tr ++ evs
    /\ forall imageName,
         (forall p, p ∈ default [] (result !! imageName) ->
                    p ∈ default [] (repoImagesToCleanup !! imageName))
         /\ (forall p, p ∈ default [] (repoImagesToCleanup !! imageName) ->
                       p ∈ default [] (result !! imageName)
                       \/ p ∈ deletedImages evs).
Proof.
  destruct (GitHistoryBasedCleanup m || GitHistoryBasedCleanupV12 m).
  - apply repoImagesGitHistoryBasedCleanup_accounts.
  - intros Hrun.
    apply repoImagesCleanup_accounts in Hrun as (evs & -> & Hnone & Hsome).
    exists evs. split; [reflexivity|]. intros imageName.
    destruct (repoImagesToCleanup !! imageName) as [l|] eqn:El.
    + destruct (Hsome imageName l El) as (res & -> & Hsub & Hall). cbn. auto.
    + rewrite (Hnone imageName El). cbn. split; [auto|]. intros p Hp. inversion Hp.
Qed.

End WholeRun.

(** X16: the cleanup run accounts for every image it fetched.  When the
    run succeeds, under every image name the image list it leaves in the
    manager holds fetched images only, and every fetched image is in that
    list or in a deletion the run asked for, in both cleanup modes, with
    or without the Kubernetes probe, with or without a local git
    repository. *)
Theorem cleanup_run_accounts_for_every_image (heap : ptr -> Info) (env : Env)
    (m m' : imagesCleanupManager) (fetched : gmap string (list ptr))
    (tr tr' : Trace) :
  imagesCleanup_run heap env m tr = (Ok m', tr') ->
  selectRepoImagesFromImagesRepo env (ImageNameList m) = Ok fetched ->
  exists evs,
    tr' = tr ++ evs
    /\ forall imageName,
         (forall p, p ∈ default [] (imageRepoImageList m' !! imageName) ->
                    p ∈ default [] (fetched !! imageName))
         /\ (forall p, p ∈ default [] (fetched !! imageName) ->
                       p ∈ default [] (imageRepoImageList m' !! imageName)
                       \/ p ∈ deletedImages evs).
Proof.
  intros Hrun Hsel. unfold imagesCleanup_run, WithHostLock in Hrun.
  destruct (acquireHostLock env tr _); [discriminate|].
  set (lockName := "images-cleanup." +:+ ImagesRepoString m) in *.
  set (tr1 := tr ++ [EvHostLockAcquire lockName]) in *.
  match type of Hrun with
  | context [bind ?c ?f tr1] => destruct (bind c f tr1) as [r trB] eqn:Hbody
  end.
  injection Hrun as -> <-.
  apply bind_Ok_inv in Hbody as (m1 & trA & Hinit & Hbody).
  destruct (initRepoImagesData_fetch env m tr1) as (r & Hr & Hfacts).
  rewrite Hinit in Hr. injection Hr as <- ->.
  destruct (Hfacts m1 eq_refl) as (Hsel1 & _ & _ & _).
  rewrite Hsel in Hsel1. injection Hsel1 as ->.
  destruct (LocalGit m1) as [git|].
  - apply bind_Ok_inv in Hbody as (split & trS & Hsplit & Hbody).
    apply bind_Ok_inv in Hbody as (res & trR & Hmode & Hret).
    unfold ret in Hret. injection Hret as <- <-.
    apply cleanup_mode_accounts in Hmode as (evs & -> & Hacc).
    assert (Hparts : trS = tr1
                     /\ forall imageName p,
                          (p ∈ default [] (split.1 !! imageName)
                           \/ p ∈ default [] (split.2 !! imageName))
                          <-> p ∈ default [] (imageRepoImageList m1 !! imageName)).
    { destruct (negb (WithoutKube m1)).
      - now apply exceptRepoImagesByWhitelist_splits in Hsplit.
      - unfold ret in Hsplit. injection Hsplit as <- <-. split; [reflexivity|].
        intros imageName p. cbn [fst snd]. rewrite lookup_empty. cbn.
        split; [intros [H|H]; [exact H|inversion H]|now left]. }
    destruct Hparts as [-> Hparts].
    exists ([EvHostLockAcquire lockName] ++ evs ++ [EvHostLockRelease lockName]).
    split; [unfold tr1; now rewrite <- !app_assoc|].
    assert (Hdel : deletedImages
                     ([EvHostLockAcquire lockName] ++ evs ++ [EvHostLockRelease lockName])
                   = deletedImages evs).
    { rewrite !deletedImages_app. cbn. now rewrite app_nil_r. }
    rewrite Hdel. intros imageName.
    cbn [imageRepoImageList setImageRepoImageList].
    rewrite mergeExcepted_lookup.
    destruct (Hacc imageName) as [Hsub Hall].
    assert (Hfinal : forall p,
               p ∈ default []
                     match split.2 !! imageName with
                     | Some l => Some (default [] (res !! imageName) ++ l)
                     | None => res !! imageName
                     end
               <-> p ∈ default [] (res !! imageName)
                   \/ p ∈ default [] (split.2 !! imageName)).
    { intros p. destruct (split.2 !! imageName) as [l|]; cbn [default from_option id].
      - apply elem_of_app.
      - split; [now left|]. intros [H|H]; [exact H|inversion H]. }
    split.
    + intros p Hp. apply Hfinal in Hp as [Hp|Hp]; apply Hparts; auto.
    + intros p Hp. rewrite Hfinal. apply Hparts in Hp as [Hp|Hp]; [|auto].
      destruct (Hall p Hp); auto.
  - unfold bind, emit, ret in Hbody. injection Hbody as <- <-.
    eexists. split; [unfold tr1; rewrite <- !app_assoc; reflexivity|].
    intros imageName. split; [auto|]. intros p Hp. now left.
Qed.

Lemma cleanup_run_accounts_for_every_image_witness :
  exists evs,
    [EvHostLockAcquire "images-cleanup.repo"; EvDeleteRepoImages false [1; 2]%nat;
     EvHostLockRelease "images-cleanup.repo"] = [] ++ evs
    /\ forall imageName,
         (forall p,
             p ∈ default []
                   (({[ "app" := [3; 4; 5]%nat ]} : gmap string (list ptr)) !! imageName) ->
             p ∈ default []
                   (({[ "app" := [1; 2; 3; 4; 5]%nat ]} : gmap string (list ptr))
                      !! imageName))
         /\ (forall p,
               p ∈ default []
                     (({[ "app" := [1; 2; 3; 4; 5]%nat ]} : gmap string (list ptr))
                        !! imageName) ->
               p ∈ default []
                     (({[ "app" := [3; 4; 5]%nat ]} : gmap string (list ptr)) !! imageName)
               \/ p ∈ deletedImages evs).
Proof.
  refine (cleanup_run_accounts_for_every_image demoHeap demoEnv
            (demoManager (Some demoGit) true limit3Policies)
            (setImageRepoImageList (demoManager (Some demoGit) true limit3Policies)
               {[ "app" := [3; 4; 5]%nat ]})
            {[ "app" := [1; 2; 3; 4; 5]%nat ]} []
            [EvHostLockAcquire "images-cleanup.repo";
             EvDeleteRepoImages false [1; 2]%nat;
             EvHostLockRelease "images-cleanup.repo"] _ _).
  - vm_compute. reflexivity.
  - reflexivity.
Defined.

(** ** The data of a run *)

Section RunData.

Variable env : Env.

Lemma commitImageMetadata_loop_lookup (imageName : string) (commits : list string)
    (acc metadata : gmap Hash ImageMetadata) :
  commitImageMetadata_loop env imageName commits acc = Ok metadata ->
  (forall commitHash imageMetadata,
      metadata !! commitHash = Some imageMetadata ->
      acc !! commitHash = Some imageMetadata
      \/ exists commit,
           commit ∈ commits /\ NewHash env commit = commitHash
           /\ StagesStorage_GetImageMetadataByCommit env imageName commit
              = Ok (Some imageMetadata))
  /\ (forall commit imageMetadata,
        commit ∈ commits ->
        StagesStorage_GetImageMetadataByCommit env imageName commit
        = Ok (Some imageMetadata) ->
        exists stored, metadata !! NewHash env commit = Some stored)
  /\ (forall commitHash stored,
        acc !! commitHash = Some stored ->
        exists stored', metadata !! commitHash = Some stored').
Proof.
  revert acc. induction commits as [|commit commits IH]; intros acc.
  - cbn. intros [= <-]. split; [auto|]. split; [|eauto].
    intros commit imd Hin. inversion Hin.
  - cbn [commitImageMetadata_loop].
    destruct (StagesStorage_GetImageMetadataByCommit env imageName commit)
      as [[imd|]| |] eqn:Hget; try discriminate.
    + intros Hloop. destruct (IH _ Hloop) as (Hfrom & Hall & Hkeep). split; [|split].
      * intros h md Hh. destruct (Hfrom h md Hh) as [Hacc|(c & Hc & Hhash & Hmd)].
        -- destruct (decide (NewHash env commit = h)) as [<-|Hne].
           ++ rewrite lookup_insert_eq in Hacc. injection Hacc as <-.
              right. exists commit. split; [left|]. auto.
           ++ rewrite lookup_insert_ne in Hacc by exact Hne. now left.
        -- right. exists c. split; [now right|]. auto.
      * intros c md Hc Hmd. apply elem_of_cons in Hc as [->|Hc]; [|eauto].
        apply (Hkeep _ imd). apply lookup_insert_eq.
      * intros h stored Hacc. destruct (decide (NewHash env commit = h)) as [<-|Hne].
        -- apply (Hkeep _ imd). apply lookup_insert_eq.
        -- apply (Hkeep _ stored). now rewrite lookup_insert_ne.
    + intros Hloop. destruct (IH _ Hloop) as (Hfrom & Hall & Hkeep). split; [|split].
      * intros h md Hh. destruct (Hfrom h md Hh) as [Hacc|(c & Hc & Hhash & Hmd)];
          [now left|].
        right. exists c. split; [now right|]. auto.
      * intros c md Hc Hmd. apply elem_of_cons in Hc as [->|Hc]; [congruence|eauto].
      * exact Hkeep.
Qed.

Lemma initImageCommitHashImageMetadata_loop_lookup (imageNames : list string)
    (acc metadata : gmap string (gmap Hash ImageMetadata)) :
  initImageCommitHashImageMetadata_loop env imageNames acc = Ok metadata ->
  (forall imageName,
      imageName ∈ imageNames ->
      exists commits commitImageMetadata,
        StagesStorage_GetImageCommits env imageName = Ok commits
        /\ commitImageMetadata_loop env imageName commits ∅ = Ok commitImageMetadata
        /\ metadata !! imageName = Some commitImageMetadata)
  /\ (forall imageName, imageName ∉ imageNames -> metadata !! imageName = acc !! imageName).
Proof.
  revert acc. induction imageNames as [|n names IH]; intros acc.
  - cbn. intros [= <-]. split; [|auto]. intros n Hn. inversion Hn.
  - cbn [initImageCommitHashImageMetadata_loop].
    destruct (StagesStorage_GetImageCommits env n) as [commits| |] eqn:Hcommits;
      try discriminate.
    destruct (commitImageMetadata_loop env n commits ∅) as [md| |] eqn:Hmd;
      try discriminate.
    intros Hloop. destruct (IH _ Hloop) as [Hin Hout]. split.
    + intros k Hk. destruct (decide (k ∈ names)) as [Hr|Hr]; [now apply Hin|].
      apply elem_of_cons in Hk as [->|Hk]; [|contradiction].
      exists commits, md. rewrite (Hout n Hr), lookup_insert_eq. auto.
    + intros k Hk. apply not_elem_of_cons in Hk as [Hne Hk].
      rewrite (Hout k Hk). now apply lookup_insert_ne.
Qed.

End RunData.

(** X17: the image metadata of a run comes from the stages storage.  When
    fetching the repo images data succeeds, nothing has been written and
    the manager holds the repo images that the images repository selected;
    in git history mode, the manager holds image metadata for an image name
    and a commit hash only if the image name is one of the run, the stages
    storage lists a commit of that hash for it and returns that metadata
    for the commit; and every listed commit that has metadata has an
    entry.  Outside git history mode the metadata is left as it was. *)
Theorem fetched_metadata_comes_from_storage (env : Env) (m m1 : imagesCleanupManager)
    (tr tr' : Trace) :
  initRepoImagesData env m tr = (Ok m1, tr') ->
  tr' = tr
  /\ selectRepoImagesFromImagesRepo env (ImageNameList m) = Ok (imageRepoImageList m1)
  /\ (GitHistoryBasedCleanup m || GitHistoryBasedCleanupV12 m = false ->
      imageCommitHashImageMetadata m1 = imageCommitHashImageMetadata m)
  /\ (GitHistoryBasedCleanup m || GitHistoryBasedCleanupV12 m = true ->
      (forall imageName commitHash imageMetadata,
          metadataOf m1 imageName !! commitHash = Some imageMetadata ->
          imageName ∈ ImageNameList m
          /\ exists commits commit,
               StagesStorage_GetImageCommits env imageName = Ok commits
               /\ commit ∈ commits
               /\ NewHash env commit = commitHash
               /\ StagesStorage_GetImageMetadataByCommit env imageName commit
                  = Ok (Some imageMetadata))
      /\ (forall imageName commits commit imageMetadata,
            imageName ∈ ImageNameList m ->
            StagesStorage_GetImageCommits env imageName = Ok commits ->
            commit ∈ commits ->
            StagesStorage_GetImageMetadataByCommit env imageName commit
            = Ok (Some imageMetadata) ->
            exists stored, metadataOf m1 imageName !! NewHash env commit = Some stored)).
Proof.
  unfold initRepoImagesData. intros Hinit.
  apply bind_Ok_inv in Hinit as (repoImages & tr1 & Hsel & Hinit).
  apply lift_Ok_inv in Hsel as [Hsel ->].
  cbn [GitHistoryBasedCleanup GitHistoryBasedCleanupV12 setImageRepoImageList
       ImageNameList] in Hinit.
  destruct (GitHistoryBasedCleanup m || GitHistoryBasedCleanupV12 m).
  - apply bind_Ok_inv in Hinit as (metadata & tr2 & Hmeta & Hret).
    apply lift_Ok_inv in Hmeta as [Hmeta ->].
    unfold ret in Hret. injection Hret as <- <-.
    split; [reflexivity|]. split; [exact Hsel|]. split; [discriminate|].
    intros _.
    destruct (initImageCommitHashImageMetadata_loop_lookup env _ _ _ Hmeta)
      as [Hin Hout].
    unfold metadataOf. cbn [imageCommitHashImageMetadata setImageCommitImageMetadata].
    split.
    + intros imageName commitHash imd Hlookup.
      destruct (decide (imageName ∈ ImageNameList m)) as [Hn|Hn].
      * split; [exact Hn|].
        destruct (Hin imageName Hn) as (commits & md & Hcommits & Hloop & Hmd).
        rewrite Hmd in Hlookup. cbn [default from_option id] in Hlookup.
        destruct (commitImageMetadata_loop_lookup env _ _ _ _ Hloop) as (Hfrom & _ & _).
        destruct (Hfrom _ _ Hlookup) as [Hempty|(commit & Hc & Hhash & Hget)].
        -- rewrite lookup_empty in Hempty. discriminate.
        -- exists commits, commit. auto.
      * rewrite (Hout imageName Hn), lookup_empty in Hlookup.
        cbn in Hlookup. rewrite lookup_empty in Hlookup. discriminate.
    + intros imageName commits commit imd Hn Hcommits Hc Hget.
      destruct (Hin imageName Hn) as (commits' & md & Hcommits' & Hloop & Hmd).
      rewrite Hcommits in Hcommits'. injection Hcommits' as <-.
      rewrite Hmd. cbn [default from_option id].
      destruct (commitImageMetadata_loop_lookup env _ _ _ _ Hloop) as (_ & Hall & _).
      exact (Hall commit imd Hc Hget).
  - unfold ret in Hinit. injection Hinit as <- <-.
    split; [reflexivity|]. split; [exact Hsel|]. split; [reflexivity|discriminate].
Qed.

Lemma fetched_metadata_comes_from_storage_witness :
  selectRepoImagesFromImagesRepo demoEnv ["app"]
  = Ok (imageRepoImageList
          (setImageCommitImageMetadata
             (setImageRepoImageList (historyManager false)
                {[ "app" := [1; 2; 3; 4; 5]%nat ]})
             {[ "app" := ∅ ]})).
Proof.
  exact (proj1 (proj2 (fetched_metadata_comes_from_storage demoEnv
                         (historyManager false)
                         (setImageCommitImageMetadata
                            (setImageRepoImageList (historyManager false)
                               {[ "app" := [1; 2; 3; 4; 5]%nat ]})
                            {[ "app" := ∅ ]})
                         [] [] eq_refl))).
Defined.

(** ** The commits that exist in the git repository *)

Section ExistingCommits.

Variable m : imagesCleanupManager.
Variable git : GitRepo.

Lemma existingCommitHashes_loop_elem_of (entries : list (Hash * ImageMetadata))
    (acc hashes : gmap string (list Hash)) :
  existingCommitHashes_loop (Some git) entries acc = Ok hashes ->
  forall contentSignature commitHash,
    commitHash ∈ default [] (hashes !! contentSignature)
    <-> commitHash ∈ default [] (acc !! contentSignature)
        \/ exists imageMetadata,
             (commitHash, imageMetadata) ∈ entries
             /\ ContentSignature imageMetadata = contentSignature
             /\ IsCommitExists git commitHash = Ok true.
Proof.
  revert acc. induction entries as [|[h md] entries IH]; intros acc.
  - cbn. intros [= <-] sig c. split; [now left|].
    intros [H|(imd & H & _)]; [exact H|inversion H].
  - cbn [existingCommitHashes_loop].
    destruct (IsCommitExists git h) as [[|]| |] eqn:Hexists; try discriminate.
    + intros Hloop sig c. rewrite (IH _ Hloop sig c). clear IH Hloop.
      destruct (decide (ContentSignature md = sig)) as [<-|Hne].
      * rewrite lookup_insert_eq. cbn [default from_option id].
        rewrite elem_of_app, list_elem_of_singleton. split.
        -- intros [[H| ->]|(imd & Hin & Hsig & Hex)]; [now left| |].
           ++ right. exists md. split; [left|]. auto.
           ++ right. exists imd. split; [now right|]. auto.
        -- intros [H|(imd & Hin & Hsig & Hex)]; [now left; left|].
           apply elem_of_cons in Hin as [[= -> ->]|Hin]; [now left; right|].
           right. eauto.
      * rewrite lookup_insert_ne by exact Hne. split.
        -- intros [H|(imd & Hin & Hsig & Hex)]; [now left|].
           right. exists imd. split; [now right|]. auto.
        -- intros [H|(imd & Hin & Hsig & Hex)]; [now left|].
           apply elem_of_cons in Hin as [[= -> ->]|Hin]; [contradiction|].
           right. eauto.
    + intros Hloop sig c. rewrite (IH _ Hloop sig c). clear IH Hloop. split.
      * intros [H|(imd & Hin & Hsig & Hex)]; [now left|].
        right. exists imd. split; [now right|]. auto.
      * intros [H|(imd & Hin & Hsig & Hex)]; [now left|].
        apply elem_of_cons in Hin as [[= -> ->]|Hin]; [congruence|].
        right. eauto.
Qed.

Lemma getImageContentSignatureExistingCommitHashes_loop_lookup
    (imageNames : list string)
    (acc existing : gmap string (gmap string (list Hash))) :
  LocalGit m = Some git ->
  getImageContentSignatureExistingCommitHashes_loop m imageNames acc = Ok existing ->
  (forall imageName,
      imageName ∈ imageNames ->
      exists hashes,
        existingCommitHashes_loop (Some git) (map_to_list (metadataOf m imageName)) ∅
        = Ok hashes
        /\ existing !! imageName = Some hashes)
  /\ (forall imageName, imageName ∉ imageNames -> existing !! imageName = acc !! imageName).
Proof.
  intros Hgit. revert acc. induction imageNames as [|n names IH]; intros acc.
  - cbn. intros [= <-]. split; [|auto]. intros n Hn. inversion Hn.
  - cbn [getImageContentSignatureExistingCommitHashes_loop]. rewrite Hgit.
    destruct (existingCommitHashes_loop (Some git) (map_to_list (metadataOf m n)) ∅)
      as [hashes| |] eqn:Hhashes; try discriminate.
    intros Hloop. destruct (IH _ Hloop) as [Hin Hout]. split.
    + intros k Hk. destruct (decide (k ∈ names)) as [Hr|Hr]; [now apply Hin|].
      apply elem_of_cons in Hk as [->|Hk]; [|contradiction].
      exists hashes. rewrite (Hout n Hr), lookup_insert_eq. auto.
    + intros k Hk. apply not_elem_of_cons in Hk as [Hne Hk].
      rewrite (Hout k Hk). now apply lookup_insert_ne.
Qed.

End ExistingCommits.

(** X18: only commits that exist are handed to the history scan.  With a
    local git repository, when the commits of the image metadata are
    checked without error, a commit hash is listed under an image name and
    a content signature exactly when the image name is one of the run, the
    manager holds image metadata of that content signature for the commit,
    and the git repository has the commit. *)
Theorem existing_commit_hashes_exist_in_git (m : imagesCleanupManager)
    (git : GitRepo) (existing : gmap string (gmap string (list Hash))) :
  LocalGit m = Some git ->
  getImageContentSignatureExistingCommitHashes m = Ok existing ->
  forall imageName contentSignature commitHash,
    commitHash ∈ default [] (default ∅ (existing !! imageName) !! contentSignature)
    <-> imageName ∈ ImageNameList m
        /\ exists imageMetadata,
             metadataOf m imageName !! commitHash = Some imageMetadata
             /\ ContentSignature imageMetadata = contentSignature
             /\ IsCommitExists git commitHash = Ok true.
Proof.
  intros Hgit Hrun imageName sig c.
  unfold getImageContentSignatureExistingCommitHashes in Hrun.
  destruct (getImageContentSignatureExistingCommitHashes_loop_lookup m git _ _ _
              Hgit Hrun) as [Hin Hout].
  destruct (decide (imageName ∈ ImageNameList m)) as [Hn|Hn].
  - destruct (Hin imageName Hn) as (hashes & Hloop & ->).
    cbn [default from_option id].
    rewrite (existingCommitHashes_loop_elem_of git _ _ _ Hloop sig c).
    rewrite lookup_empty. cbn [default from_option id]. split.
    + intros [H|(imd & Hentry & Hsig & Hex)]; [inversion H|].
      split; [exact Hn|]. exists imd. split; [now apply elem_of_map_to_list|auto].
    + intros (_ & imd & Hmd & Hsig & Hex). right. exists imd.
      split; [now apply elem_of_map_to_list|auto].
  - rewrite (Hout imageName Hn), lookup_empty. cbn. rewrite lookup_empty. cbn.
    split; [intros H; inversion H|]. now intros [? _].
Qed.

Lemma existing_commit_hashes_exist_in_git_witness :
  "c0ffee" ∈ default []
               (default ∅
                  (({[ "app" := {[ "sig-a" := ["c0ffee"] ]} ]}
                    : gmap string (gmap string (list Hash))) !! "app") !! "sig-a").
Proof.
  refine (proj2 (existing_commit_hashes_exist_in_git (historyManager false) demoGit
                   {[ "app" := {[ "sig-a" := ["c0ffee"] ]} ]} eq_refl _
                   "app" "sig-a" "c0ffee") _).
  - vm_compute. reflexivity.
  - split; [repeat constructor|].
    exists (mkImageMetadata "sig-a"). repeat split.
Defined.

End CleaningExtra.


(** * Client id records *)

Module ClientIDExtra.
Import GoStrings Image Storage GoStringsFacts StorageFacts StorageExtra.

Lemma append_nil_r (s : string) : s ++ "" = s.
Proof. induction s as [|c s IH]; [reflexivity|]. cbn. now rewrite IH. Qed.

Lemma append_assoc (a b c : string) : (a ++ b) ++ c = a ++ (b ++ c).
Proof. induction a as [|x a IH]; [reflexivity|]. cbn. now rewrite IH. Qed.

Lemma Reverse_app (a b : string) : Reverse (a ++ b) = Reverse b ++ Reverse a.
Proof.
  induction a as [|x a IH]; cbn.
  - now rewrite append_nil_r.
  - now rewrite IH, append_assoc.
Qed.

Lemma Reverse_involutive (s : string) : Reverse (Reverse s) = s.
Proof.
  induction s as [|c s IH]; [reflexivity|]. cbn [Reverse].
  rewrite Reverse_app, IH. reflexivity.
Qed.

Lemma ContainsByte_Reverse (s : string) (c : ascii) :
  ContainsByte (Reverse s) c = ContainsByte s c.
Proof.
  induction s as [|d s IH]; [reflexivity|]. cbn [Reverse].
  rewrite ContainsByte_app, IH. cbn -[Ascii.eqb].
  destruct (Ascii.eqb d c); [apply orb_true_r|apply orb_false_r].
Qed.

Lemma ContainsByte_digits (d : Decimal.uint) :
  ContainsByte (NilEmpty.string_of_uint d) "-"%char = false.
Proof. induction d; cbn; auto. Qed.

Lemma ContainsByte_FormatInt (z : Z) :
  0 <= z -> ContainsByte (FormatInt z) "-"%char = false.
Proof.
  intros Hz. unfold FormatInt. destruct z as [|p|p]; [reflexivity| |lia].
  cbn [Z.to_int NilZero.string_of_int]. unfold NilZero.string_of_uint.
  destruct (Pos.to_uint p); try apply ContainsByte_digits. reflexivity.
Qed.

Lemma SplitN_two (s : string) (sep : ascii) :
  SplitN s sep 2
  = match Cut s sep with
    | Some (before, after) => [before; after]
    | None => [s]
    end.
Proof. cbn. now destruct (Cut s sep) as [[a b]|]. Qed.

Local Arguments HasPrefix : simpl never.
Local Arguments TrimPrefix : simpl never.
Local Arguments SplitN : simpl never.
Local Arguments Reverse : simpl never.

Lemma GetClientIDRecords_loop_keeps (tags : list string) (res : list ClientIDRecord)
    (rec : ClientIDRecord) :
  rec ∈ res -> rec ∈ GetClientIDRecords_loop tags res.
Proof.
  revert res. induction tags as [|tag tags IH]; intros res Hin; [exact Hin|].
  cbn [GetClientIDRecords_loop].
  destruct (negb _); [now apply IH|].
  destruct (SplitN _ _ 2) as [|a [|b [|? ?]]]; try now apply IH.
  destruct (ParseInt _); try now apply IH.
  apply IH, elem_of_app. now left.
Qed.

Lemma GetClientIDRecords_loop_complete (tags : list string)
    (res : list ClientIDRecord) (clientID : string) (timestampMillisec : Z) :
  0 <= timestampMillisec ->
  is_int64 timestampMillisec = true ->
  clientIDRecordTag clientID timestampMillisec ∈ tags ->
  mkClientIDRecord clientID timestampMillisec ∈ GetClientIDRecords_loop tags res.
Proof.
  intros Hpos Hrange. revert res. induction tags as [|tag tags IH]; intros res Hin.
  - now apply elem_of_nil in Hin.
  - apply elem_of_cons in Hin as [<-|Hin].
    + cbn [GetClientIDRecords_loop]. unfold clientIDRecordTag.
      rewrite HasPrefix_app, TrimPrefix_app. cbn [negb].
      change ("-" ++ FormatInt timestampMillisec)
        with (String "-"%char (FormatInt timestampMillisec)).
      change (String "-"%char (FormatInt timestampMillisec))
        with ("-" ++ FormatInt timestampMillisec).
      rewrite Reverse_app, Reverse_app.
      change (Reverse "-") with "-".
      rewrite append_assoc.
      change ("-" ++ Reverse clientID) with (String "-"%char (Reverse clientID)).
      rewrite SplitN_two, Cut_first
        by (rewrite ContainsByte_Reverse; now apply ContainsByte_FormatInt).
      rewrite !Reverse_involutive, (ParseInt_FormatInt _ Hrange).
      apply GetClientIDRecords_loop_keeps, elem_of_app. right. apply list_elem_of_here.
    + cbn [GetClientIDRecords_loop].
      destruct (negb _); [now apply IH|].
      destruct (SplitN _ _ 2) as [|a [|b [|? ?]]]; try now apply IH.
      destruct (ParseInt _); now apply IH.
Qed.

Lemma GetClientIDRecords_loop_sound (tags : list string) (res : list ClientIDRecord)
    (rec : ClientIDRecord) :
  rec ∈ GetClientIDRecords_loop tags res ->
  rec ∈ res
  \/ exists tag suffix,
       tag ∈ tags
       /\ tag = RepoClientIDRecrod_ImageTagPrefix ++ ClientID rec ++ "-" ++ suffix
       /\ ContainsByte suffix "-"%char = false
       /\ ParseInt suffix = Ok (TimestampMillisec rec).
Proof.
  revert res. induction tags as [|tag tags IH]; intros res; [now left|].
  cbn [GetClientIDRecords_loop].
  assert (Hskip : rec ∈ GetClientIDRecords_loop tags res ->
                  rec ∈ res
                  \/ exists tag' suffix,
                       tag' ∈ tag :: tags
                       /\ tag' = RepoClientIDRecrod_ImageTagPrefix ++ ClientID rec
                                 ++ "-" ++ suffix
                       /\ ContainsByte suffix "-"%char = false
                       /\ ParseInt suffix = Ok (TimestampMillisec rec)).
  { intros H. destruct (IH _ H) as [?|(t & sfx & Ht & Hrest)]; [now left|].
    right. exists t, sfx. split; [now right|exact Hrest]. }
  destruct (HasPrefix tag RepoClientIDRecrod_ImageTagPrefix) eqn:Hprefix;
    cbn [negb]; [|exact Hskip].
  rewrite SplitN_two.
  destruct (Cut (Reverse (TrimPrefix tag RepoClientIDRecrod_ImageTagPrefix)) "-"%char)
    as [[a b]|] eqn:Hcut; [|exact Hskip].
  destruct (ParseInt (Reverse a)) as [ts| |] eqn:Hparse; try exact Hskip.
  intros H. destruct (IH _ H) as [Hin|(t & sfx & Ht & Hrest)].
  - apply elem_of_app in Hin as [Hin|Hin]; [now left|].
    apply list_elem_of_singleton in Hin. subst rec. right.
    apply HasPrefix_true_app in Hprefix as (rest & ->).
    rewrite TrimPrefix_app in Hcut.
    destruct (Cut_Some _ _ _ _ Hcut) as [Hrev Ha].
    exists (RepoClientIDRecrod_ImageTagPrefix ++ rest), (Reverse a).
    split; [left|]. cbn [ClientID TimestampMillisec].
    split; [|split; [now rewrite ContainsByte_Reverse|exact Hparse]].
    f_equal. rewrite <- (Reverse_involutive rest), Hrev.
    rewrite Reverse_app.
    change ("-" ++ b) with (String "-"%char b).
    change (String "-"%char b) with ("-" ++ b).
    rewrite Reverse_app. change (Reverse "-") with "-".
    now rewrite append_assoc.
  - right. exists t, sfx. split; [now right|exact Hrest].
Qed.

(** X19: [GetClientIDRecords] reads back the client id records.  When the
    registry lists its tags (ASCII text), the call succeeds; the record of
    every client id and timestamp (an int64 that is not negative) whose
    record tag is listed is returned, also when the client id holds
    hyphens, because the tag is cut at its last hyphen; and every record
    returned comes from a listed tag [client-id-<client id>-<suffix>] whose
    suffix holds no hyphen and parses to the timestamp of the record. *)
Theorem client_id_records_read_back (storage : RepoStagesStorage)
    (projectName : string) (tags : list string) :
  Tags (Registry storage) (RepoAddress storage) = Ok tags ->
  Forall (fun tag => isASCII tag = true) tags ->
  exists records,
    GetClientIDRecords storage projectName = Ok records
    /\ (forall clientID timestampMillisec,
          0 <= timestampMillisec ->
          is_int64 timestampMillisec = true ->
          clientIDRecordTag clientID timestampMillisec ∈ tags ->
          mkClientIDRecord clientID timestampMillisec ∈ records)
    /\ (forall rec,
          rec ∈ records ->
          exists tag suffix,
            tag ∈ tags
            /\ tag = RepoClientIDRecrod_ImageTagPrefix ++ ClientID rec ++ "-" ++ suffix
            /\ ContainsByte suffix "-"%char = false
            /\ ParseInt suffix = Ok (TimestampMillisec rec)).
Proof.
  intros Htags _. unfold GetClientIDRecords. rewrite Htags.
  eexists. split; [reflexivity|]. split.
  - intros clientID ts Hpos Hrange Hin.
    now apply GetClientIDRecords_loop_complete.
  - intros rec Hin.
    destruct (GetClientIDRecords_loop_sound _ _ _ Hin) as [Hnil|H]; [|exact H].
    now apply elem_of_nil in Hnil.
Qed.

Lemma client_id_records_read_back_witness :
  exists records,
    GetClientIDRecords
      (mkRepoStagesStorage "repo"
         (registryWithTags ["abc123-1700000000000"; "client-id-build-host-7-1700000000123"]))
      "project" = Ok records
    /\ mkClientIDRecord "build-host-7" 1700000000123 ∈ records.
Proof.
  destruct (client_id_records_read_back
              (mkRepoStagesStorage "repo"
                 (registryWithTags ["abc123-1700000000000";
                                    "client-id-build-host-7-1700000000123"]))
              "project" _ eq_refl)
    as (records & Hrun & Hall & _).
  - repeat constructor.
  - exists records. split; [exact Hrun|].
    apply Hall; [lia|reflexivity|].
    apply list_elem_of_further, list_elem_of_here.
Defined.

End ClientIDExtra.


(** * Grouping the images by content signature *)

Module GroupingExtra.
Import GoStrings Image Storage Cleaning CleaningFacts.

Local Open Scope list_scope.

Section Grouping.

Variable heap : ptr -> Info.
Variable m : imagesCleanupManager.

Lemma groupByContentSignature_lookup (l : list ptr)
    (entries : list (Hash * ImageMetadata)) (acc : gmap string (list ptr))
    (contentSignature : string) (images : list ptr) :
  foldl (groupByContentSignature_step heap l) acc entries !! contentSignature
  = Some images
  <-> acc !! contentSignature = Some images
      \/ (acc !! contentSignature = None
          /\ (exists entry : Hash * ImageMetadata,
                 entry ∈ entries /\ ContentSignature entry.2 = contentSignature)
          /\ images = filter (fun p => contentSignatureOf heap p = contentSignature) l).
Proof.
  revert acc. induction entries as [|[h md] entries IH]; intros acc.
  - cbn. split; [now left|].
    intros [H|(_ & (entry & Hin & _) & _)]; [exact H|inversion Hin].
  - cbn [foldl]. rewrite IH. clear IH.
    unfold groupByContentSignature_step. cbn [snd].
    destruct (acc !! ContentSignature md) as [x|] eqn:Hacc.
    + split.
      * intros [H|(Hnone & (entry & Hin & Hsig) & ->)]; [now left|].
        right. split; [exact Hnone|]. split; [|reflexivity].
        exists entry. split; [now right|exact Hsig].
      * intros [H|(Hnone & (entry & Hin & Hsig) & ->)]; [now left|].
        right. split; [exact Hnone|]. split; [|reflexivity].
        apply elem_of_cons in Hin as [->|Hin]; [cbn in Hsig; congruence|].
        exists entry. auto.
    + destruct (decide (ContentSignature md = contentSignature)) as [<-|Hne].
      * rewrite lookup_insert_eq, Hacc. split.
        -- intros [[= <-]|(Hnone & _)]; [|discriminate].
           right. split; [reflexivity|]. split; [|reflexivity].
           exists (h, md). split; [left|reflexivity].
        -- intros [H|(_ & _ & ->)]; [discriminate|now left].
      * rewrite lookup_insert_ne by exact Hne. split.
        -- intros [H|(Hnone & (entry & Hin & Hsig) & ->)]; [now left|].
           right. split; [exact Hnone|]. split; [|reflexivity].
           exists entry. split; [now right|exact Hsig].
        -- intros [H|(Hnone & (entry & Hin & Hsig) & ->)]; [now left|].
           right. split; [exact Hnone|]. split; [|reflexivity].
           apply elem_of_cons in Hin as [->|Hin]; [cbn in Hsig; congruence|].
           exists entry. auto.
Qed.

Lemma bySignature_lookup (repoImagesToCleanup : gmap string (list ptr))
    (imageName : string) :
  getImageContentSignatureRepoImageListToCleanup heap m repoImagesToCleanup
    !! imageName
  = (fun l => foldl (groupByContentSignature_step heap l) ∅
                (map_to_list (metadataOf m imageName)))
    <$> repoImagesToCleanup !! imageName.
Proof.
  unfold getImageContentSignatureRepoImageListToCleanup.
  rewrite (foldl_map_to_list
             (fun s : gmap string (gmap string (list ptr)) => fun k => s !! k)
             _ (fun k l _ => Some (foldl (groupByContentSignature_step heap l) ∅
                                     (map_to_list (metadataOf m k))))).
  - rewrite lookup_empty. now destruct (repoImagesToCleanup !! imageName).
  - intros acc k v. cbn [fst snd]. apply lookup_insert_eq.
  - intros acc k v k' Hne. cbn [fst snd]. now apply lookup_insert_ne.
Qed.

End Grouping.

(** X20: how the git history based cleanup groups the images to clean up.
    For an image name with images to clean up, the images are grouped
    under exactly the content signatures of the image metadata held for
    that name, each group being the images that carry the signature as
    their content signature label, in their order (possibly none); and
    the images without related image metadata are exactly the images of
    the name whose content signature label is none of these
    signatures. *)
Theorem images_grouped_by_content_signature (heap : ptr -> Info)
    (m : imagesCleanupManager) (repoImagesToCleanup : gmap string (list ptr))
    (imageName : string) (l : list ptr) :
  repoImagesToCleanup !! imageName = Some l ->
  let bySignature :=
    getImageContentSignatureRepoImageListToCleanup heap m repoImagesToCleanup in
  let without :=
    getImageRepoImageListWithoutRelatedImageMetadata repoImagesToCleanup bySignature in
  (forall contentSignature images,
      default ∅ (bySignature !! imageName) !! contentSignature = Some images
      <-> (exists commitHash imageMetadata,
              metadataOf m imageName !! commitHash = Some imageMetadata
              /\ ContentSignature imageMetadata = contentSignature)
          /\ images = filter (fun p => contentSignatureOf heap p = contentSignature) l)
  /\ (forall p,
        p ∈ default [] (without !! imageName)
        <-> p ∈ l /\ withoutRelatedMetadata heap m imageName p).
Proof.
  intros Hl bySignature without.
  assert (Hgroups : forall contentSignature images,
             default ∅ (bySignature !! imageName) !! contentSignature = Some images
             <-> (exists commitHash imageMetadata,
                     metadataOf m imageName !! commitHash = Some imageMetadata
                     /\ ContentSignature imageMetadata = contentSignature)
                 /\ images
                    = filter (fun p => contentSignatureOf heap p = contentSignature) l).
  { intros sig images. unfold bySignature. rewrite bySignature_lookup, Hl.
    cbn [fmap option_fmap option_map default from_option id].
    rewrite groupByContentSignature_lookup, lookup_empty. split.
    - intros [H|(_ & ([h md] & Hin & Hsig) & ->)]; [discriminate|].
      split; [|reflexivity]. exists h, md.
      split; [now apply elem_of_map_to_list|exact Hsig].
    - intros ((h & md & Hmd & Hsig) & ->). right. split; [reflexivity|].
      split; [|reflexivity]. exists (h, md).
      split; [now apply elem_of_map_to_list|exact Hsig]. }
  split; [exact Hgroups|].
  intros p. unfold without. rewrite withoutRelated_lookup, Hl.
  cbn [fmap option_fmap option_map default from_option id].
  rewrite (foldl_except_elem_of heap). unfold withoutRelatedMetadata. split.
  - intros [Hp Hnot]. split; [exact Hp|].
    intros h md Hmd Hcs.
    apply (Hnot (ContentSignature md,
                 filter (fun q => contentSignatureOf heap q = ContentSignature md) l)).
    + apply elem_of_map_to_list. apply Hgroups. split; [eauto|reflexivity].
    + cbn [snd]. apply list_elem_of_filter. now split.
  - intros [Hp Hwithout]. split; [exact Hp|].
    intros [sig images] Hin Hpin. apply elem_of_map_to_list in Hin.
    apply Hgroups in Hin as ((h & md & Hmd & Hsig) & ->). cbn [snd] in Hpin.
    apply list_elem_of_filter in Hpin as [Hcs _].
    apply (Hwithout h md Hmd). congruence.
Qed.

Lemma images_grouped_by_content_signature_witness :
  1%nat ∈ default []
            (getImageRepoImageListWithoutRelatedImageMetadata
               {[ "app" := [1; 2]%nat ]}
               (getImageContentSignatureRepoImageListToCleanup demoHeap
                  (historyManager false) {[ "app" := [1; 2]%nat ]})
             !! "app").
Proof.
  refine (proj2 (proj2 (images_grouped_by_content_signature demoHeap
                          (historyManager false)
                          ({[ "app" := [1; 2]%nat ]} : gmap string (list ptr)) "app"
                          [1; 2]%nat _) 1%nat) _); [vm_compute; reflexivity|].
  split; [repeat constructor|].
  intros commitHash imageMetadata Hmd.
  unfold metadataOf in Hmd. cbn [imageCommitHashImageMetadata historyManager] in Hmd.
  rewrite lookup_singleton_eq in Hmd. cbn [default from_option id] in Hmd.
  apply lookup_singleton_Some in Hmd as [_ <-]. vm_compute. discriminate.
Defined.

End GroupingExtra.
